(** * TenacityTracker: the application state reducer and the checklist catalog

    A shallow embedding of [appReducer] (the state container of the client)
    and of [createMilestoneFromStep] (client/src/lib/checklist-data.ts),
    followed by the properties of the completion cascade, of rep updates, of
    the audit log and of the catalog accessor.

    Conventions of the embedding.
    - JavaScript numbers that hold step numbers, stages and millisecond
      instants are integers ([Z]); strings are [string].
    - A property that may be absent or [undefined] is an [option]; an object
      used as an open bag of fields is a [gmap string string].
    - [new Date()], [Date.now()] and [generateId()] read the environment.
      They are modelled by two oracles, [clock] and [generateId], indexed by
      the number of reads made so far, and the reducer is written in a state
      monad over these two counters, in the evaluation order of the source.
    - The reducer pushes into [rep.milestones] and [milestone.subTasks] of
      the state it is given before it maps over them.  The cascade is
      embedded twice.  The first embedding is value based: it computes the
      state that the reducer returns, in which the pushed entries appear
      through the mapped copies, and it takes the arrays held by different
      reps and milestones of one state to be different arrays, as they are
      in a state loaded from the JSON fixtures.  The second embedding is on
      a store with references, where the pushes write in place: it says
      what the cascade does to the other holders of an array or of a
      milestone object, and it is the one used for what the cascade leaves
      alone.
    - The reducer has no [throw] and calls nothing that can fail on values
      of the types below: it is a total function, which is what "no error
      is raised" means here. *)

From Stdlib Require Import ZArith List.
From stdpp Require Import base option list strings gmap pretty.

Local Open Scope Z_scope.

(** ** Data model *)

(** Instants, as milliseconds since the epoch (the value of a [Date]). *)
Definition Instant : Type := Z.

Inductive Role : Type := trainer | admin.

Module SubTask.
Record t : Type := mk {
  taskId : string;
  description : string;
  completed : bool;
  completedAt : option string;
  completedBy : option string
}.
End SubTask.

Module Milestone.
Record t : Type := mk {
  stepId : Z;
  title : string;
  completed : bool;
  completedAt : option string;
  completedBy : option string;
  (** [None] is a missing (falsy) [subTasks] property. *)
  subTasks : option (list SubTask.t)
}.
End Milestone.

(** Modelled from the spec: the type [Rep] of [@shared/schema], which is not
    among the sources: a unique id, an integer stage, a milestone list, the
    two timestamps and domain fields that the reducer never inspects. *)
Module Rep.
Record t : Type := mk {
  id : string;
  stage : Z;
  (** [None] is a [milestones] property that is not an array. *)
  milestones : option (list Milestone.t);
  createdAt : Instant;
  updatedAt : Instant;
  fields : gmap string string
}.
End Rep.

(** [Omit<Rep, 'id' | 'createdAt' | 'updatedAt'>], the payload of ADD_REP. *)
Module NewRep.
Record t : Type := mk {
  stage : Z;
  milestones : option (list Milestone.t);
  fields : gmap string string
}.
End NewRep.

(** [Partial<Rep>], the [updates] of UPDATE_REP: [None] is an absent
    property, and [fields] holds the domain fields that are given. *)
Module RepPatch.
Record t : Type := mk {
  id : option string;
  stage : option Z;
  milestones : option (option (list Milestone.t));
  createdAt : option Instant;
  updatedAt : option Instant;
  fields : gmap string string
}.
End RepPatch.

(** Modelled from the spec: the type [AppUser] of [@shared/schema]: an
    identity and a role that may be unset. *)
Module AppUser.
Record t : Type := mk {
  id : string;
  role : option Role;
  fields : gmap string string
}.
End AppUser.

(** Modelled from the spec: the type [AuditLog] of [@shared/schema]: an id
    and a timestamp given at creation, and the fields of the entry. *)
Module AuditLog.
Record t : Type := mk {
  id : Z;
  timestamp : Instant;
  fields : gmap string string
}.
End AuditLog.

(** Modelled from the spec: the type [FieldTrainer] of [@shared/schema], a
    reference entity that no action changes. *)
Module FieldTrainer.
Record t : Type := mk {
  id : string;
  createdAt : Instant;
  fields : gmap string string
}.
End FieldTrainer.

Record AppState : Type := mkAppState {
  isAuthenticated : bool;
  currentUser : option AppUser.t;
  userRole : option Role;
  reps : list Rep.t;
  trainers : list FieldTrainer.t;
  auditLogs : list AuditLog.t;
  selectedRep : option Rep.t
}.

Inductive AppAction : Type :=
  | SIGN_IN (payload : AppUser.t)
  | SIGN_OUT
  | SET_ROLE (payload : Role)
  | ADD_REP (payload : NewRep.t)
  | UPDATE_REP (id : string) (updates : RepPatch.t)
  | SELECT_REP (payload : option Rep.t)
  | UPDATE_SUBTASK (repId : string) (stepId : Z) (taskId : string) (completed : bool)
  | ADD_AUDIT_LOG (payload : gmap string string)
  (** an action whose [type] is none of the above: the [default] branch *)
  | OTHER (type : string).

(** ** The environment: clock and id generator *)

Record World : Type := mkWorld {
  reads : nat;   (* how many times the clock has been read *)
  gens : nat     (* how many ids have been generated *)
}.

Definition Ambient (A : Type) : Type := World → A * World.

Global Instance Ambient_ret : MRet Ambient := λ A x w, (x, w).
Global Instance Ambient_bind : MBind Ambient :=
  λ A B f m w, let '(x, w') := m w in f x w'.
Global Instance Ambient_fmap : FMap Ambient :=
  λ A B f m w, let '(x, w') := m w in (f x, w').

(** ** The checklist catalog (checklist-data.ts) *)

Module StepDef.
Record task : Type := mkTask {
  taskId : string;
  description : string
}.
Record t : Type := mk {
  stepId : Z;
  title : string;
  subTasks : list task
}.
End StepDef.

Section Catalog.

(** The catalog [@/data/checklist-steps.json] is not among the sources;
    the accessors are stated over any catalog. *)
Variable checklistSteps : list StepDef.t.

Definition getChecklistSteps : list StepDef.t := checklistSteps.

Definition getStepById (stepId : Z) : option StepDef.t :=
  find (λ step, bool_decide (StepDef.stepId step = stepId)) checklistSteps.

Definition createMilestoneFromStep (stepId : Z) : option Milestone.t :=
  match getStepById stepId with
  | None => None
  | Some step =>
      Some {| Milestone.stepId := stepId;
              Milestone.title := StepDef.title step;
              Milestone.completed := false;
              Milestone.completedAt := None;
              Milestone.completedBy := None;
              Milestone.subTasks :=
                Some ((λ task,
                         {| SubTask.taskId := StepDef.taskId task;
                            SubTask.description := StepDef.description task;
                            SubTask.completed := false;
                            SubTask.completedAt := None;
                            SubTask.completedBy := None |})
                      <$> StepDef.subTasks step) |}
  end.

End Catalog.

(** ** The reducer *)

(** What the reducer reads from its surroundings: the instant returned by the
  [n]-th read of the clock, the id returned by the [n]-th call of
  [generateId] ([@/lib/utils], not among the sources), and
  [Date.prototype.toISOString]. *)
Class Environment : Type := {
clock : nat → Instant;
generateId : nat → string;
toISOString : Instant → string
}.

Section Reducer.

Context {env : Environment}.

(** [new Date()] and [Date.now()]. *)
Definition new_Date : Ambient Instant :=
  λ w, (clock (reads w), {| reads := S (reads w); gens := gens w |}).

Definition generateId_call : Ambient string :=
  λ w, (generateId (gens w), {| reads := reads w; gens := S (gens w) |}).

(** [new Date().toISOString()] *)
Definition now_iso : Ambient string := toISOString <$> new_Date.

(** [{ ...rep, ...updates, updatedAt: now }] *)
Definition merge_rep (rep : Rep.t) (updates : RepPatch.t) (now : Instant) : Rep.t :=
  {| Rep.id := default (Rep.id rep) (RepPatch.id updates);
     Rep.stage := default (Rep.stage rep) (RepPatch.stage updates);
     Rep.milestones := default (Rep.milestones rep) (RepPatch.milestones updates);
     Rep.createdAt := default (Rep.createdAt rep) (RepPatch.createdAt updates);
     Rep.updatedAt := now;
     Rep.fields := RepPatch.fields updates ∪ Rep.fields rep |}.

(** The placeholder milestone of the cascade, [title: `Step ${stepId}`]. *)
Definition placeholder_milestone (stepId : Z) : Milestone.t :=
  {| Milestone.stepId := stepId;
     Milestone.title := "Step " +:+ pretty stepId;
     Milestone.completed := false;
     Milestone.completedAt := None;
     Milestone.completedBy := None;
     Milestone.subTasks := Some [] |}.

(** The placeholder subtask, [description: `Task ${taskId}`]. *)
Definition placeholder_subtask (taskId : string) : SubTask.t :=
  {| SubTask.taskId := taskId;
     SubTask.description := "Task " +:+ taskId;
     SubTask.completed := false;
     SubTask.completedAt := None;
     SubTask.completedBy := None |}.

(** Lines 109-122: the milestone array (empty when [rep.milestones] is not
    an array), with the placeholder pushed when no milestone has the step
    id. *)
Definition ensure_milestone (stepId : Z) (ms : option (list Milestone.t))
  : list Milestone.t :=
  let milestones := default [] ms in
  match find (λ m, bool_decide (Milestone.stepId m = stepId)) milestones with
  | Some _ => milestones
  | None => milestones ++ [placeholder_milestone stepId]
  end.

(** Lines 127-140: the subtask array (empty when missing), with the
    placeholder pushed when no subtask has the task id. *)
Definition ensure_subtask (taskId : string) (sts : option (list SubTask.t))
  : list SubTask.t :=
  let subTasks := default [] sts in
  match find (λ task, bool_decide (SubTask.taskId task = taskId)) subTasks with
  | Some _ => subTasks
  | None => subTasks ++ [placeholder_subtask taskId]
  end.

Section Cascade.

Variable state : AppState.
Variables (repId : string) (stepId : Z) (taskId : string) (completed : bool).

(** [state.currentUser?.id] *)
Definition currentUser_id : option string := AppUser.id <$> currentUser state.

(** Lines 142-150, the callback of [milestone.subTasks.map]. *)
Definition update_task (task : SubTask.t) : Ambient SubTask.t :=
  if decide (SubTask.taskId task ≠ taskId) then mret task
  else
    completedAt ← (if completed then Some <$> now_iso else mret None);
    mret {| SubTask.taskId := SubTask.taskId task;
            SubTask.description := SubTask.description task;
            SubTask.completed := completed;
            SubTask.completedAt := completedAt;
            SubTask.completedBy :=
              if completed then currentUser_id else None |}.

(** Lines 124-162, the callback of [milestones.map]. *)
Definition update_milestone (milestone : Milestone.t) : Ambient Milestone.t :=
  if decide (Milestone.stepId milestone ≠ stepId) then mret milestone
  else
    updatedSubTasks ←
      mapM update_task (ensure_subtask taskId (Milestone.subTasks milestone));
    let allSubTasksComplete := forallb SubTask.completed updatedSubTasks in
    let stamp := allSubTasksComplete && negb (Milestone.completed milestone) in
    completedAt ← (if stamp then Some <$> now_iso
                   else mret (Milestone.completedAt milestone));
    mret {| Milestone.stepId := Milestone.stepId milestone;
            Milestone.title := Milestone.title milestone;
            Milestone.completed := allSubTasksComplete;
            Milestone.completedAt := completedAt;
            Milestone.completedBy :=
              if stamp then currentUser_id else Milestone.completedBy milestone;
            Milestone.subTasks := Some updatedSubTasks |}.

(** Lines 106-174, the callback of [state.reps.map]. *)
Definition update_rep (rep : Rep.t) : Ambient Rep.t :=
  if decide (Rep.id rep ≠ repId) then mret rep
  else
    updatedMilestones ←
      mapM update_milestone (ensure_milestone stepId (Rep.milestones rep));
    let completedSteps :=
      length (List.filter Milestone.completed updatedMilestones) in
    let newStage := Z.max (Rep.stage rep) (Z.of_nat completedSteps + 1) in
    now ← new_Date;
    mret {| Rep.id := Rep.id rep;
            Rep.stage := newStage;
            Rep.milestones := Some updatedMilestones;
            Rep.createdAt := Rep.createdAt rep;
            Rep.updatedAt := now;
            Rep.fields := Rep.fields rep |}.

Definition update_subtask : Ambient AppState :=
  updatedReps ← mapM update_rep (reps state);
  mret {| isAuthenticated := isAuthenticated state;
          currentUser := currentUser state;
          userRole := userRole state;
          reps := updatedReps;
          trainers := trainers state;
          auditLogs := auditLogs state;
          selectedRep :=
            if decide (Rep.id <$> selectedRep state = Some repId)
            then find (λ r, bool_decide (Rep.id r = repId)) updatedReps
            else selectedRep state |}.

End Cascade.

(** Lines 88-92, the callback of [state.reps.map] in UPDATE_REP. *)
Definition merge_into (id : string) (updates : RepPatch.t) (rep : Rep.t)
  : Ambient Rep.t :=
  if decide (Rep.id rep = id)
  then merge_rep rep updates <$> new_Date
  else mret rep.

Definition appReducer (state : AppState) (action : AppAction) : Ambient AppState :=
  match action with
  | SIGN_IN payload =>
      mret {| isAuthenticated := true;
              currentUser := Some payload;
              userRole := userRole state;
              reps := reps state;
              trainers := trainers state;
              auditLogs := auditLogs state;
              selectedRep := selectedRep state |}
  | SIGN_OUT =>
      mret {| isAuthenticated := false;
              currentUser := None;
              userRole := None;
              reps := reps state;
              trainers := trainers state;
              auditLogs := auditLogs state;
              selectedRep := selectedRep state |}
  | SET_ROLE payload =>
      mret {| isAuthenticated := isAuthenticated state;
              currentUser :=
                (λ u, {| AppUser.id := AppUser.id u;
                         AppUser.role := Some payload;
                         AppUser.fields := AppUser.fields u |})
                <$> currentUser state;
              userRole := Some payload;
              reps := reps state;
              trainers := trainers state;
              auditLogs := auditLogs state;
              selectedRep := selectedRep state |}
  | ADD_REP payload =>
      id ← generateId_call;
      createdAt ← new_Date;
      updatedAt ← new_Date;
      let newRep :=
        {| Rep.id := id;
           Rep.stage := NewRep.stage payload;
           Rep.milestones := NewRep.milestones payload;
           Rep.createdAt := createdAt;
           Rep.updatedAt := updatedAt;
           Rep.fields := NewRep.fields payload |} in
      mret {| isAuthenticated := isAuthenticated state;
              currentUser := currentUser state;
              userRole := userRole state;
              reps := reps state ++ [newRep];
              trainers := trainers state;
              auditLogs := auditLogs state;
              selectedRep := selectedRep state |}
  | UPDATE_REP id updates =>
      reps' ← mapM (merge_into id updates) (reps state);
      selectedRep' ←
        match selectedRep state with
        | Some sel =>
            if decide (Rep.id sel = id)
            then Some ∘ merge_rep sel updates <$> new_Date
            else mret (Some sel)
        | None => mret None
        end;
      mret {| isAuthenticated := isAuthenticated state;
              currentUser := currentUser state;
              userRole := userRole state;
              reps := reps';
              trainers := trainers state;
              auditLogs := auditLogs state;
              selectedRep := selectedRep' |}
  | SELECT_REP payload =>
      mret {| isAuthenticated := isAuthenticated state;
              currentUser := currentUser state;
              userRole := userRole state;
              reps := reps state;
              trainers := trainers state;
              auditLogs := auditLogs state;
              selectedRep := payload |}
  | UPDATE_SUBTASK repId stepId taskId completed =>
      update_subtask state repId stepId taskId completed
  | ADD_AUDIT_LOG payload =>
      id ← new_Date;
      timestamp ← new_Date;
      let newLog :=
        {| AuditLog.id := id;
           AuditLog.timestamp := timestamp;
           AuditLog.fields := payload |} in
      mret {| isAuthenticated := isAuthenticated state;
              currentUser := currentUser state;
              userRole := userRole state;
              reps := reps state;
              trainers := trainers state;
              auditLogs := newLog :: auditLogs state;
              selectedRep := selectedRep state |}
  | OTHER _ => mret state
  end.

(** A sequence of dispatches, each on the state and the environment left
    by the one before. *)
Fixpoint dispatch_all (actions : list AppAction) (state : AppState)
  : Ambient AppState :=
  match actions with
  | [] => mret state
  | action :: rest => state' ← appReducer state action; dispatch_all rest state'
  end.

End Reducer.

(** ** Vocabulary of the specification *)

(** [w'] is reached from [w]: no read is undone. *)
Definition World_le (w w' : World) : Prop :=
  (reads w ≤ reads w')%nat ∧ (gens w ≤ gens w')%nat.

Section Vocabulary.

Context {env : Environment}.

(** [t] is the instant of a clock read made between [w] and [w']. *)
Definition read_in (w w' : World) (t : Instant) : Prop :=
  ∃ k : nat, (reads w ≤ k < reads w')%nat ∧ t = clock k.

(** The stamp [o] is set, to the ISO form of a clock read made between [w]
    and [w']: "stamped with the current time" for a dispatch that takes the
    environment from [w] to [w']. *)
Definition stamped_in (w w' : World) (o : option string) : Prop :=
  ∃ t : Instant, read_in w w' t ∧ o = Some (toISOString t).

(** What [update_task] does to one subtask, run from [w] to [w']. *)
Definition task_rel (uid : option string) (taskId : string) (completed : bool)
    (w w' : World) (task task' : SubTask.t) : Prop :=
  SubTask.taskId task' = SubTask.taskId task ∧
  SubTask.description task' = SubTask.description task ∧
  (SubTask.taskId task ≠ taskId → task' = task) ∧
  (SubTask.taskId task = taskId →
     SubTask.completed task' = completed ∧
     (completed = true →
        stamped_in w w' (SubTask.completedAt task') ∧
        SubTask.completedBy task' = uid) ∧
     (completed = false →
        SubTask.completedAt task' = None ∧ SubTask.completedBy task' = None)).

(** What [update_milestone] does to one milestone, run from [w] to [w']. *)
Definition milestone_rel (uid : option string) (stepId : Z) (taskId : string)
    (completed : bool) (w w' : World) (m m' : Milestone.t) : Prop :=
  Milestone.stepId m' = Milestone.stepId m ∧
  Milestone.title m' = Milestone.title m ∧
  (Milestone.stepId m ≠ stepId → m' = m) ∧
  (Milestone.stepId m = stepId →
     ∃ sts',
       Milestone.subTasks m' = Some sts' ∧
       Forall2 (task_rel uid taskId completed w w')
         (ensure_subtask taskId (Milestone.subTasks m)) sts' ∧
       Milestone.completed m' = forallb SubTask.completed sts' ∧
       (Milestone.completed m = false → Milestone.completed m' = true →
          stamped_in w w' (Milestone.completedAt m') ∧
          Milestone.completedBy m' = uid) ∧
       (¬ (Milestone.completed m = false ∧ Milestone.completed m' = true) →
          Milestone.completedAt m' = Milestone.completedAt m ∧
          Milestone.completedBy m' = Milestone.completedBy m)).

(** What [update_rep] does to one rep, run from [w] to [w']. *)
Definition rep_rel (uid : option string) (repId : string) (stepId : Z)
    (taskId : string) (completed : bool) (w w' : World) (r r' : Rep.t) : Prop :=
  Rep.id r' = Rep.id r ∧
  Rep.createdAt r' = Rep.createdAt r ∧
  Rep.fields r' = Rep.fields r ∧
  (Rep.id r ≠ repId → r' = r) ∧
  (Rep.id r = repId →
     ∃ ms',
       Rep.milestones r' = Some ms' ∧
       Forall2 (milestone_rel uid stepId taskId completed w w')
         (ensure_milestone stepId (Rep.milestones r)) ms' ∧
       Rep.stage r' =
         Z.max (Rep.stage r)
               (1 + Z.of_nat (length (List.filter Milestone.completed ms'))) ∧
       read_in w w' (Rep.updatedAt r')).

(** Every subtask under step [stepId] of [r] is completed or has its task id
    in [rest]: the tasks that a run of toggles still has to set. *)
Definition pending (stepId : Z) (rest : list string) (r : Rep.t) : Prop :=
  ∀ m, m ∈ default [] (Rep.milestones r) → Milestone.stepId m = stepId →
  ∀ st, st ∈ default [] (Milestone.subTasks m) →
    SubTask.completed st = true ∨ SubTask.taskId st ∈ rest.


(** What the callback of UPDATE_REP does to one rep, run from [w] to [w']. *)
Definition merge_rel (id : string) (updates : RepPatch.t) (w w' : World)
    (rep rep' : Rep.t) : Prop :=
  (Rep.id rep = id → ∃ t, read_in w w' t ∧ rep' = merge_rep rep updates t) ∧
  (Rep.id rep ≠ id → rep' = rep).

(** The dispatches that toggle the tasks of [l] on one rep, in order. *)
Definition toggles (repId : string) (l : list (Z * string * bool)) : list AppAction :=
  (λ '(stepId, taskId, completed), UPDATE_SUBTASK repId stepId taskId completed)
  <$> l.

End Vocabulary.

(** ** The initial state *)

(** The records of [@/data/dummy-reps.json] and [@/data/dummy-trainers.json]
    (not among the sources): reps and trainers whose dates are still ISO
    strings. *)
Module DummyRep.
Record t : Type := mk {
  id : string;
  stage : Z;
  milestones : option (list Milestone.t);
  createdAt : string;
  updatedAt : string;
  fields : gmap string string
}.
End DummyRep.

Module DummyTrainer.
Record t : Type := mk {
  id : string;
  createdAt : string;
  fields : gmap string string
}.
End DummyTrainer.

Section Initial.

(** [new Date(s)] for a string [s]. *)
Variable Date_of_string : string → Instant.
Variable dummyReps : list DummyRep.t.
Variable dummyTrainers : list DummyTrainer.t.

(** Lines 29-44. *)
Definition initialState : AppState :=
  {| isAuthenticated := false;
     currentUser := None;
     userRole := None;
     reps :=
       (λ rep, {| Rep.id := DummyRep.id rep;
                  Rep.stage := DummyRep.stage rep;
                  Rep.milestones := DummyRep.milestones rep;
                  Rep.createdAt := Date_of_string (DummyRep.createdAt rep);
                  Rep.updatedAt := Date_of_string (DummyRep.updatedAt rep);
                  Rep.fields := DummyRep.fields rep |})
       <$> dummyReps;
     trainers :=
       (λ trainer,
          {| FieldTrainer.id := DummyTrainer.id trainer;
             FieldTrainer.createdAt := Date_of_string (DummyTrainer.createdAt trainer);
             FieldTrainer.fields := DummyTrainer.fields trainer |})
       <$> dummyTrainers;
     auditLogs := [];
     selectedRep := None |}.

End Initial.

(** ** Vocabulary of the further properties *)

(** The step ids of a rep are pairwise different, and so are the task ids
    under each of its milestones. *)
Definition unique_ids (r : Rep.t) : Prop :=
  NoDup (Milestone.stepId <$> default [] (Rep.milestones r)) ∧
  ∀ m, m ∈ default [] (Rep.milestones r) →
       NoDup (SubTask.taskId <$> default [] (Milestone.subTasks m)).


(** Every subtask of the rep has a completedAt stamp exactly when it is
    completed. *)
Definition stamps_agree (r : Rep.t) : Prop :=
  ∀ m t, m ∈ default [] (Rep.milestones r) →
         t ∈ default [] (Milestone.subTasks m) →
         (SubTask.completed t = true ↔ is_Some (SubTask.completedAt t)).

(** A subtask, a milestone and a rep without what a dispatch takes from the
    clock and from the signed-in user. *)
Definition erase_task (t : SubTask.t) : SubTask.t :=
  {| SubTask.taskId := SubTask.taskId t;
     SubTask.description := SubTask.description t;
     SubTask.completed := SubTask.completed t;
     SubTask.completedAt := None;
     SubTask.completedBy := None |}.

Definition erase_milestone (m : Milestone.t) : Milestone.t :=
  {| Milestone.stepId := Milestone.stepId m;
     Milestone.title := Milestone.title m;
     Milestone.completed := Milestone.completed m;
     Milestone.completedAt := None;
     Milestone.completedBy := None;
     Milestone.subTasks := (λ l : list SubTask.t, erase_task <$> l) <$> Milestone.subTasks m |}.

Definition erase_rep (r : Rep.t) : Rep.t :=
  {| Rep.id := Rep.id r;
     Rep.stage := Rep.stage r;
     Rep.milestones := (λ l : list Milestone.t, erase_milestone <$> l) <$> Rep.milestones r;
     Rep.createdAt := Rep.createdAt r;
     Rep.updatedAt := 0;
     Rep.fields := Rep.fields r |}.

(** The rep that a dispatch with these arguments has just returned. *)
Definition settled (rid : string) (sid : Z) (tid : string) (c : bool)
    (x : Rep.t) : Prop :=
  Rep.id x = rid →
  ∃ ms,
    Rep.milestones x = Some ms ∧
    (∃ m, m ∈ ms ∧ Milestone.stepId m = sid) ∧
    (∀ m, m ∈ ms → Milestone.stepId m = sid →
       ∃ sts,
         Milestone.subTasks m = Some sts ∧
         (∃ t, t ∈ sts ∧ SubTask.taskId t = tid) ∧
         (∀ t, t ∈ sts → SubTask.taskId t = tid → SubTask.completed t = c) ∧
         Milestone.completed m = forallb SubTask.completed sts) ∧
    1 + Z.of_nat (length (List.filter Milestone.completed ms)) ≤ Rep.stage x.

(** The rep has [n] milestones, and the one at place [j] is that of step
    [s], with title [T] and with the tasks [L], given as pairs of task id
    and description, in this order. *)
Definition shaped (s : Z) (n j : nat) (T : string) (L : list (string * string))
    (r : Rep.t) : Prop :=
  ∃ ms m sts,
    Rep.milestones r = Some ms ∧
    length ms = n ∧
    ms !! j = Some m ∧
    Milestone.stepId m = s ∧
    Milestone.title m = T ∧
    Milestone.subTasks m = Some sts ∧
    (λ t, (SubTask.taskId t, SubTask.description t)) <$> sts = L.

(** The role of the current user, when there is one, is the role of the
    state. *)
Definition role_ok (s : AppState) : Prop :=
  ∀ u, currentUser s = Some u → AppUser.role u = userRole s.

Definition is_SIGN_IN (a : AppAction) : bool :=
  match a with SIGN_IN _ => true | _ => false end.

(** The stage of the rep lies between one more than the number of its
    completed milestones and one more than the number of its milestones. *)
Definition stage_in_range (r : Rep.t) : Prop :=
  1 + Z.of_nat (length (List.filter Milestone.completed
                          (default [] (Rep.milestones r))))
    ≤ Rep.stage r ∧
  Rep.stage r ≤ 1 + Z.of_nat (length (default [] (Rep.milestones r))).

(** Somebody is signed in exactly when the state says so. *)
Definition auth_ok (s : AppState) : Prop :=
  isAuthenticated s = true ↔ is_Some (currentUser s).

Definition is_ADD_REP (a : AppAction) : bool :=
  match a with ADD_REP _ => true | _ => false end.

Definition is_ADD_AUDIT_LOG (a : AppAction) : bool :=
  match a with ADD_AUDIT_LOG _ => true | _ => false end.

(** The action signs somebody in or out. *)
Definition is_sign (a : AppAction) : bool :=
  match a with SIGN_IN _ | SIGN_OUT => true | _ => false end.

(** The action is an Update rep whose patch gives a stage. *)
Definition patches_stage (a : AppAction) : bool :=
  match a with
  | UPDATE_REP _ updates => bool_decide (is_Some (RepPatch.stage updates))
  | _ => false
  end.

(** ** The cascade on a store with references *)

(** The cascade pushes into the arrays it is given and sets a field of the
    milestone objects it is given (lines 121, 129, 135), so what it does to
    a rep that shares an array or an object with its target can only be
    said on a store: arrays and milestone objects live at locations, a rep
    holds the location of its milestone array and a milestone object that of
    its subtask array.  Reps and subtasks are never written to by the
    reducer and stay values.  A location that is not allocated reads as the
    empty array or as the default object; in a store built by JavaScript
    every location held is allocated. *)
Definition loc : Type := positive.

Module HMilestone.
Record t : Type := mk {
  stepId : Z;
  title : string;
  completed : bool;
  completedAt : option string;
  completedBy : option string;
  subTasks : option loc
}.
End HMilestone.

Global Instance HMilestone_inhabited : Inhabited HMilestone.t :=
  populate {| HMilestone.stepId := 0;
              HMilestone.title := "";
              HMilestone.completed := false;
              HMilestone.completedAt := None;
              HMilestone.completedBy := None;
              HMilestone.subTasks := None |}.

Module HRep.
Record t : Type := mk {
  id : string;
  stage : Z;
  milestones : option loc;
  createdAt : Instant;
  updatedAt : Instant;
  fields : gmap string string
}.
End HRep.

Record Heap : Type := mkHeap {
  milestone_arrays : gmap loc (list loc);
  milestone_objects : gmap loc HMilestone.t;
  subtask_arrays : gmap loc (list SubTask.t)
}.

Record Store : Type := mkStore {
  heap : Heap;
  world : World
}.

Definition Mut (A : Type) : Type := Store → A * Store.

Global Instance Mut_ret : MRet Mut := λ A x s, (x, s).
Global Instance Mut_bind : MBind Mut :=
  λ A B f m s, let '(x, s') := m s in f x s'.
Global Instance Mut_fmap : FMap Mut :=
  λ A B f m s, let '(x, s') := m s in (f x, s').

Definition with_milestone_arrays (f : gmap loc (list loc) → gmap loc (list loc))
    (s : Store) : Store :=
  {| heap := {| milestone_arrays := f (milestone_arrays (heap s));
                milestone_objects := milestone_objects (heap s);
                subtask_arrays := subtask_arrays (heap s) |};
     world := world s |}.

Definition with_milestone_objects
    (f : gmap loc HMilestone.t → gmap loc HMilestone.t) (s : Store) : Store :=
  {| heap := {| milestone_arrays := milestone_arrays (heap s);
                milestone_objects := f (milestone_objects (heap s));
                subtask_arrays := subtask_arrays (heap s) |};
     world := world s |}.

Definition with_subtask_arrays
    (f : gmap loc (list SubTask.t) → gmap loc (list SubTask.t)) (s : Store)
  : Store :=
  {| heap := {| milestone_arrays := milestone_arrays (heap s);
                milestone_objects := milestone_objects (heap s);
                subtask_arrays := f (subtask_arrays (heap s)) |};
     world := world s |}.

(** A new array of milestone references, a new milestone object and a new
    array of subtasks, each at a location that is not in use. *)
Definition new_milestone_array (l : list loc) : Mut loc :=
  λ s, let a := fresh (dom (milestone_arrays (heap s))) in
       (a, with_milestone_arrays (insert a l) s).

Definition new_milestone_object (m : HMilestone.t) : Mut loc :=
  λ s, let o := fresh (dom (milestone_objects (heap s))) in
       (o, with_milestone_objects (insert o m) s).

Definition new_subtask_array (l : list SubTask.t) : Mut loc :=
  λ s, let t := fresh (dom (subtask_arrays (heap s))) in
       (t, with_subtask_arrays (insert t l) s).

Definition get_milestone_array (a : loc) : Mut (list loc) :=
  λ s, (milestone_arrays (heap s) !!! a, s).

Definition get_milestone_object (o : loc) : Mut HMilestone.t :=
  λ s, (milestone_objects (heap s) !!! o, s).

Definition get_subtask_array (t : loc) : Mut (list SubTask.t) :=
  λ s, (subtask_arrays (heap s) !!! t, s).

(** [milestones.push(o)] *)
Definition push_milestone (a o : loc) : Mut unit :=
  λ s, (tt, with_milestone_arrays (alter (λ l, l ++ [o]) a) s).

(** [milestone.subTasks.push(task)] *)
Definition push_subtask (t : loc) (task : SubTask.t) : Mut unit :=
  λ s, (tt, with_subtask_arrays (alter (λ l, l ++ [task]) t) s).

(** [milestone.subTasks = t] *)
Definition set_subTasks (o t : loc) : Mut unit :=
  λ s, (tt, with_milestone_objects
              (alter (λ m, {| HMilestone.stepId := HMilestone.stepId m;
                              HMilestone.title := HMilestone.title m;
                              HMilestone.completed := HMilestone.completed m;
                              HMilestone.completedAt := HMilestone.completedAt m;
                              HMilestone.completedBy := HMilestone.completedBy m;
                              HMilestone.subTasks := Some t |}) o) s).

(** A read of the clock or of the id generator leaves the heap alone. *)
Definition lift {A} (m : Ambient A) : Mut A :=
  λ s, let '(x, w') := m (world s) in (x, {| heap := heap s; world := w' |}).

Section Cascade_on_store.

Context {env : Environment}.

(** [state.currentUser?.id] and the payload of the action. *)
Variable uid : option string.
Variables (repId : string) (stepId : Z) (taskId : string) (completed : bool).

(** Lines 142-150: subtasks are not written to, a new one is built. *)
Definition update_task_ref (task : SubTask.t) : Mut SubTask.t :=
  if decide (SubTask.taskId task ≠ taskId) then mret task
  else
    completedAt ← (if completed then Some <$> lift now_iso else mret None);
    mret {| SubTask.taskId := SubTask.taskId task;
            SubTask.description := SubTask.description task;
            SubTask.completed := completed;
            SubTask.completedAt := completedAt;
            SubTask.completedBy := if completed then uid else None |}.

(** Lines 127-130: the subtask array of the milestone object at [o]; an
    object without one is given a new empty array, in place. *)
Definition ensure_subTasks_ref (o : loc) : Mut loc :=
  milestone ← get_milestone_object o;
  match HMilestone.subTasks milestone with
  | Some t => mret t
  | None => t ← new_subtask_array []; _ ← set_subTasks o t; mret t
  end.

(** Lines 132-140: the placeholder subtask is pushed into the array at
    [t], in place, when the array has no subtask with the id. *)
Definition ensure_subtask_ref (t : loc) : Mut unit :=
  subTasks ← get_subtask_array t;
  match find (λ task, bool_decide (SubTask.taskId task = taskId)) subTasks with
  | Some _ => mret tt
  | None => push_subtask t (placeholder_subtask taskId)
  end.

(** Lines 124-162, the callback of [milestones.map], on the reference [o]
    of a milestone object: the object may get a [subTasks] array and the
    array may get the placeholder pushed, in place; the milestone returned
    is a new object that holds a new array. *)
Definition update_milestone_ref (o : loc) : Mut loc :=
  milestone ← get_milestone_object o;
  if decide (HMilestone.stepId milestone ≠ stepId) then mret o
  else
    t ← ensure_subTasks_ref o;
    _ ← ensure_subtask_ref t;
    subTasks ← get_subtask_array t;
    updatedSubTasks ← mapM update_task_ref subTasks;
    t' ← new_subtask_array updatedSubTasks;
    let allSubTasksComplete := forallb SubTask.completed updatedSubTasks in
    milestone ← get_milestone_object o;
    let stamp := allSubTasksComplete && negb (HMilestone.completed milestone) in
    completedAt ← (if stamp then Some <$> lift now_iso
                   else mret (HMilestone.completedAt milestone));
    new_milestone_object
      {| HMilestone.stepId := HMilestone.stepId milestone;
         HMilestone.title := HMilestone.title milestone;
         HMilestone.completed := allSubTasksComplete;
         HMilestone.completedAt := completedAt;
         HMilestone.completedBy :=
           if stamp then uid else HMilestone.completedBy milestone;
         HMilestone.subTasks := Some t' |}.

(** Lines 110-122: the placeholder milestone, a new object with a new empty
    subtask array, is pushed into the array at [a], in place, when the array
    has no milestone of the step. *)
Definition ensure_milestone_ref (a : loc) : Mut unit :=
  refs ← get_milestone_array a;
  existing ← mapM get_milestone_object refs;
  match find (λ m, bool_decide (HMilestone.stepId m = stepId)) existing with
  | Some _ => mret tt
  | None =>
      t ← new_subtask_array [];
      o ← new_milestone_object
            {| HMilestone.stepId := stepId;
               HMilestone.title := "Step " +:+ pretty stepId;
               HMilestone.completed := false;
               HMilestone.completedAt := None;
               HMilestone.completedBy := None;
               HMilestone.subTasks := Some t |};
      push_milestone a o
  end.

(** Lines 106-174, the callback of [state.reps.map]: [milestones] is the
    array of the rep itself (a new empty one when the rep has none), the
    placeholder is pushed into it in place, and the rep returned holds the
    new array that [map] builds. *)
Definition update_rep_ref (rep : HRep.t) : Mut HRep.t :=
  if decide (HRep.id rep ≠ repId) then mret rep
  else
    a ← match HRep.milestones rep with
        | Some a => mret a
        | None => new_milestone_array []
        end;
    _ ← ensure_milestone_ref a;
    refs ← get_milestone_array a;
    updatedRefs ← mapM update_milestone_ref refs;
    a' ← new_milestone_array updatedRefs;
    updatedMilestones ← mapM get_milestone_object updatedRefs;
    let completedSteps :=
      length (List.filter HMilestone.completed updatedMilestones) in
    let newStage := Z.max (HRep.stage rep) (Z.of_nat completedSteps + 1) in
    now ← lift new_Date;
    mret {| HRep.id := HRep.id rep;
            HRep.stage := newStage;
            HRep.milestones := Some a';
            HRep.createdAt := HRep.createdAt rep;
            HRep.updatedAt := now;
            HRep.fields := HRep.fields rep |}.

(** Lines 104-182 on the two fields that the branch computes: the rep list
    and the selection. *)
Definition update_subtask_ref (reps : list HRep.t) (selectedRep : option HRep.t)
  : Mut (list HRep.t * option HRep.t) :=
  updatedReps ← mapM update_rep_ref reps;
  mret (updatedReps,
        if decide (HRep.id <$> selectedRep = Some repId)
        then find (λ r, bool_decide (HRep.id r = repId)) updatedReps
        else selectedRep).

End Cascade_on_store.

(** The values that a milestone reference and a rep stand for in a heap. *)
Definition milestone_value (h : Heap) (o : loc) : Milestone.t :=
  let m := milestone_objects h !!! o in
  {| Milestone.stepId := HMilestone.stepId m;
     Milestone.title := HMilestone.title m;
     Milestone.completed := HMilestone.completed m;
     Milestone.completedAt := HMilestone.completedAt m;
     Milestone.completedBy := HMilestone.completedBy m;
     Milestone.subTasks :=
       (λ t : loc, subtask_arrays h !!! t) <$> HMilestone.subTasks m |}.

Definition milestones_value (h : Heap) (a : loc) : list Milestone.t :=
  milestone_value h <$> (milestone_arrays h !!! a).

Definition rep_value (h : Heap) (r : HRep.t) : Rep.t :=
  {| Rep.id := HRep.id r;
     Rep.stage := HRep.stage r;
     Rep.milestones := milestones_value h <$> HRep.milestones r;
     Rep.createdAt := HRep.createdAt r;
     Rep.updatedAt := HRep.updatedAt r;
     Rep.fields := HRep.fields r |}.

(** A region of a heap: some milestone arrays, milestone objects and subtask
    arrays. *)
Record Region : Type := mkRegion {
  in_milestone_arrays : loc → Prop;
  in_milestone_objects : loc → Prop;
  in_subtask_arrays : loc → Prop
}.

(** What a rep holds in a heap: its milestone array, the milestone objects
    of that array and their subtask arrays. *)
Definition held (h : Heap) (r : HRep.t) : Region :=
  {| in_milestone_arrays a := HRep.milestones r = Some a;
     in_milestone_objects o :=
       ∃ a, HRep.milestones r = Some a ∧ o ∈ milestone_arrays h !!! a;
     in_subtask_arrays t :=
       ∃ a o, HRep.milestones r = Some a ∧ o ∈ milestone_arrays h !!! a ∧
              HMilestone.subTasks (milestone_objects h !!! o) = Some t |}.

Definition allocated (P : Region) (h : Heap) : Prop :=
  (∀ a, in_milestone_arrays P a → a ∈ dom (milestone_arrays h)) ∧
  (∀ o, in_milestone_objects P o → o ∈ dom (milestone_objects h)) ∧
  (∀ t, in_subtask_arrays P t → t ∈ dom (subtask_arrays h)).

(** The milestone object at [o] and its subtask array are outside [P]. *)
Definition safe_object (P : Region) (h : Heap) (o : loc) : Prop :=
  ¬ in_milestone_objects P o ∧
  ∀ t, HMilestone.subTasks (milestone_objects h !!! o) = Some t →
       ¬ in_subtask_arrays P t.

(** The milestone array at [a], its milestone objects and their subtask
    arrays are outside [P]. *)
Definition safe_array (P : Region) (h : Heap) (a : loc) : Prop :=
  ¬ in_milestone_arrays P a ∧
  ∀ o, o ∈ milestone_arrays h !!! a → safe_object P h o.

(** [r'] holds no milestone array, no milestone object and no subtask array
    that [r] holds. *)
Definition apart (h : Heap) (r r' : HRep.t) : Prop :=
  ∀ a, HRep.milestones r' = Some a → safe_array (held h r) h a.

(** From [h] to [h'] nothing of [P] is written to, nothing is freed, and
    what was outside [P] still is. *)
Definition spares (P : Region) (h h' : Heap) : Prop :=
  (∀ a, in_milestone_arrays P a → milestone_arrays h' !! a = milestone_arrays h !! a) ∧
  (∀ o, in_milestone_objects P o → milestone_objects h' !! o = milestone_objects h !! o) ∧
  (∀ t, in_subtask_arrays P t → subtask_arrays h' !! t = subtask_arrays h !! t) ∧
  dom (milestone_arrays h) ⊆ dom (milestone_arrays h') ∧
  dom (milestone_objects h) ⊆ dom (milestone_objects h') ∧
  dom (subtask_arrays h) ⊆ dom (subtask_arrays h') ∧
  (∀ a, safe_array P h a → safe_array P h' a) ∧
  (∀ o, safe_object P h o → safe_object P h' o).

(** Run from [s], the computation [m] spares [P] and ends with a result and
    a heap in [Q]. *)
Definition sparing (P : Region) {A} (m : Mut A) (s : Store)
    (Q : A → Heap → Prop) : Prop :=
  spares P (heap s) (heap (m s).2) ∧ Q (m s).1 (heap (m s).2).

(** ** Example data *)

Definition example_environment : Environment :=
  {| clock := λ n, 1700000000000 + Z.of_nat n;
     generateId := λ n, "rep-" +:+ pretty n;
     toISOString := λ t, "ms:" +:+ pretty t |}.

Definition w0 : World := {| reads := 0; gens := 0 |}.

Definition example_user : AppUser.t :=
  {| AppUser.id := "u1"; AppUser.role := Some trainer; AppUser.fields := ∅ |}.

Definition example_task (taskId : string) (completed : bool) : SubTask.t :=
  {| SubTask.taskId := taskId;
     SubTask.description := "Task " +:+ taskId;
     SubTask.completed := completed;
     SubTask.completedAt := if completed then Some "ms:1600000000000" else None;
     SubTask.completedBy := if completed then Some "u0" else None |}.

(** Step 1 is completed; step 2 has task [a] done and task [b] open. *)
Definition example_rep : Rep.t :=
  {| Rep.id := "r1";
     Rep.stage := 2;
     Rep.milestones :=
       Some [ {| Milestone.stepId := 1;
                 Milestone.title := "Orientation";
                 Milestone.completed := true;
                 Milestone.completedAt := Some "ms:1600000000000";
                 Milestone.completedBy := Some "u0";
                 Milestone.subTasks := Some [example_task "t1" true] |};
              {| Milestone.stepId := 2;
                 Milestone.title := "Field training";
                 Milestone.completed := false;
                 Milestone.completedAt := None;
                 Milestone.completedBy := None;
                 Milestone.subTasks :=
                   Some [example_task "a" true; example_task "b" false] |} ];
     Rep.createdAt := 1500000000000;
     Rep.updatedAt := 1600000000000;
     Rep.fields := {[ "name" := "Ada" ]} |}.

Definition other_rep : Rep.t :=
  {| Rep.id := "r2";
     Rep.stage := 1;
     Rep.milestones := None;
     Rep.createdAt := 1500000000001;
     Rep.updatedAt := 1500000000001;
     Rep.fields := {[ "name" := "Bo" ]} |}.

Definition example_state : AppState :=
  {| isAuthenticated := true;
     currentUser := Some example_user;
     userRole := Some trainer;
     reps := [example_rep; other_rep];
     trainers := [];
     auditLogs := [];
     selectedRep := None |}.

(** A rep that is selected but is not in the list. *)
Definition unlisted_rep : Rep.t :=
  {| Rep.id := "r9";
     Rep.stage := 1;
     Rep.milestones := Some [];
     Rep.createdAt := 1500000000002;
     Rep.updatedAt := 1500000000002;
     Rep.fields := ∅ |}.

Definition stale_state : AppState :=
  {| isAuthenticated := true;
     currentUser := Some example_user;
     userRole := Some trainer;
     reps := [example_rep; other_rep];
     trainers := [];
     auditLogs := [];
     selectedRep := Some unlisted_rep |}.

Definition example_patch : RepPatch.t :=
  {| RepPatch.id := None;
     RepPatch.stage := Some 5;
     RepPatch.milestones := None;
     RepPatch.createdAt := None;
     RepPatch.updatedAt := None;
     RepPatch.fields := {[ "name" := "Ada L." ]} |}.

Definition example_catalog : list StepDef.t :=
  [ {| StepDef.stepId := 1;
       StepDef.title := "Orientation";
       StepDef.subTasks :=
         [ {| StepDef.taskId := "t1"; StepDef.description := "Meet the team" |} ] |};
    {| StepDef.stepId := 2;
       StepDef.title := "Field training";
       StepDef.subTasks :=
         [ {| StepDef.taskId := "a"; StepDef.description := "Ride along" |};
           {| StepDef.taskId := "b"; StepDef.description := "Lead a visit" |} ] |} ].


(** A patch that gives no stage. *)
Definition name_patch : RepPatch.t :=
  {| RepPatch.id := None;
     RepPatch.stage := None;
     RepPatch.milestones := None;
     RepPatch.createdAt := None;
     RepPatch.updatedAt := None;
     RepPatch.fields := {[ "name" := "Ada L." ]} |}.

(** A rep whose only milestone is the default milestone of step 2. *)
Definition catalog_rep : Rep.t :=
  {| Rep.id := "r3";
     Rep.stage := 1;
     Rep.milestones := Some (option_list (createMilestoneFromStep example_catalog 2));
     Rep.createdAt := 1500000000003;
     Rep.updatedAt := 1500000000003;
     Rep.fields := ∅ |}.

Definition catalog_state : AppState :=
  {| isAuthenticated := false;
     currentUser := None;
     userRole := None;
     reps := [catalog_rep];
     trainers := [];
     auditLogs := [];
     selectedRep := None |}.

(** A store for the example: the first rep holds the two milestones of
    [example_rep], a third rep holds a milestone of its own. *)
Definition example_heap : Heap :=
  {| milestone_arrays := {[ 1%positive := [1%positive; 2%positive];
                            2%positive := [3%positive] ]};
     milestone_objects :=
       {[ 1%positive := {| HMilestone.stepId := 1;
                           HMilestone.title := "Orientation";
                           HMilestone.completed := true;
                           HMilestone.completedAt := Some "ms:1600000000000";
                           HMilestone.completedBy := Some "u0";
                           HMilestone.subTasks := Some 1%positive |};
          2%positive := {| HMilestone.stepId := 2;
                           HMilestone.title := "Field training";
                           HMilestone.completed := false;
                           HMilestone.completedAt := None;
                           HMilestone.completedBy := None;
                           HMilestone.subTasks := Some 2%positive |};
          3%positive := {| HMilestone.stepId := 2;
                           HMilestone.title := "Field training";
                           HMilestone.completed := false;
                           HMilestone.completedAt := None;
                           HMilestone.completedBy := None;
                           HMilestone.subTasks := Some 3%positive |} ]};
     subtask_arrays :=
       {[ 1%positive := [example_task "t1" true];
          2%positive := [example_task "a" true; example_task "b" false];
          3%positive := [example_task "b" false] ]} |}.

Definition example_store : Store := {| heap := example_heap; world := w0 |}.

Definition example_rep_ref : HRep.t :=
  {| HRep.id := "r1";
     HRep.stage := 2;
     HRep.milestones := Some 1%positive;
     HRep.createdAt := 1500000000000;
     HRep.updatedAt := 1600000000000;
     HRep.fields := {[ "name" := "Ada" ]} |}.

Definition other_rep_ref : HRep.t :=
  {| HRep.id := "r2";
     HRep.stage := 1;
     HRep.milestones := None;
     HRep.createdAt := 1500000000001;
     HRep.updatedAt := 1500000000001;
     HRep.fields := {[ "name" := "Bo" ]} |}.

Definition third_rep_ref : HRep.t :=
  {| HRep.id := "r3";
     HRep.stage := 1;
     HRep.milestones := Some 2%positive;
     HRep.createdAt := 1500000000003;
     HRep.updatedAt := 1500000000003;
     HRep.fields := ∅ |}.

(** Two reps that hold one and the same, empty, milestone array, as two Add
    rep dispatches of one payload object leave them (the spread of lines
    74-79 copies the reference). *)
Definition shared_store : Store :=
  {| heap := {| milestone_arrays := {[ 1%positive := [] ]};
                milestone_objects := ∅;
                subtask_arrays := ∅ |};
     world := w0 |}.

Definition sharing_rep (id : string) : HRep.t :=
  {| HRep.id := id;
     HRep.stage := 1;
     HRep.milestones := Some 1%positive;
     HRep.createdAt := 0;
     HRep.updatedAt := 0;
     HRep.fields := ∅ |}.

(** A rep with no milestones at stage 1. *)
Definition fresh_state : AppState :=
  {| isAuthenticated := false;
     currentUser := None;
     userRole := None;
     reps := [ {| Rep.id := "r1"; Rep.stage := 1; Rep.milestones := Some [];
                  Rep.createdAt := 0; Rep.updatedAt := 0; Rep.fields := ∅ |} ];
     trainers := [];
     auditLogs := [];
     selectedRep := None |}.

(** What an example looks at: per rep the stage and, per milestone, the
    step id, the completed flag and the task ids with their flags. *)
Definition progress (s : AppState)
  : list (Z * list (Z * bool * list (string * bool))) :=
  (λ r, (Rep.stage r,
         (λ m, (Milestone.stepId m, Milestone.completed m,
                (λ t, (SubTask.taskId t, SubTask.completed t))
                <$> default [] (Milestone.subTasks m)))
         <$> default [] (Rep.milestones r)))
  <$> reps s.

(** ** Running the environment monad *)

Global Instance World_le_preorder : PreOrder World_le.
Proof. split; unfold World_le; [intros ?; lia | intros ???; lia]. Qed.

Lemma Ambient_bind_run {A B} (f : A → Ambient B) (m : Ambient A) w :
  (m ≫= f) w = f (m w).1 (m w).2.
Proof. unfold mbind, Ambient_bind. by destruct (m w). Qed.

Lemma Ambient_fmap_run {A B} (f : A → B) (m : Ambient A) w :
  (f <$> m) w = (f (m w).1, (m w).2).
Proof. unfold fmap, Ambient_fmap. by destruct (m w). Qed.

Lemma mapM_Ambient_cons {A B} (f : A → Ambient B) x l w :
  mapM f (x :: l) w =
  ((f x w).1 :: (mapM f l (f x w).2).1, (mapM f l (f x w).2).2).
Proof. simpl. by rewrite !Ambient_bind_run. Qed.

(** A relation between an element and its image that survives the widening
    of the interval of worlds holds along the whole of [mapM]. *)
Lemma mapM_Ambient_spec {A B} (f : A → Ambient B)
    (R : World → World → A → B → Prop) :
  (∀ w1 w2 w3 w4 x y,
     World_le w1 w2 → World_le w3 w4 → R w2 w3 x y → R w1 w4 x y) →
  (∀ x w, World_le w (f x w).2 ∧ R w (f x w).2 x (f x w).1) →
  ∀ l w, World_le w (mapM f l w).2 ∧
         Forall2 (R w (mapM f l w).2) l (mapM f l w).1.
Proof.
  intros Hmono Hf l. induction l as [|x l IH]; intros w.
  - split; [done | constructor].
  - rewrite mapM_Ambient_cons. simpl.
    destruct (Hf x w) as [Hle1 HR1].
    destruct (IH (f x w).2) as [Hle2 HR2].
    split; [by etrans |].
    constructor.
    + eapply Hmono; [reflexivity | exact Hle2 | exact HR1].
    + eapply Forall2_impl; [exact HR2 |].
      intros a b Hab. eapply Hmono; [exact Hle1 | reflexivity | exact Hab].
Qed.

(** Elements that the callback returns as they are stay as they are. *)
Lemma mapM_Ambient_id {A} (f : A → Ambient A) (l : list A) :
  (∀ x w, x ∈ l → f x w = (x, w)) → ∀ w, mapM f l w = (l, w).
Proof.
  induction l as [|x l IH]; intros Hf w; [done |].
  rewrite mapM_Ambient_cons, (Hf x w) by left. simpl.
  rewrite IH; [done |]. intros y w' Hy. apply Hf. by right.
Qed.

(** ** Lists *)

Lemma find_bool_decide_None {A} (P : A → Prop) `{!∀ x, Decision (P x)} (l : list A) :
  find (λ x, bool_decide (P x)) l = None ↔ ∀ x, x ∈ l → ¬ P x.
Proof.
  induction l as [|y l IH]; simpl.
  - split; [intros _ x Hx; by apply elem_of_nil in Hx | done].
  - case_bool_decide as Hy.
    + split; [done |]. intros Hall. destruct (Hall y); [left | done].
    + rewrite IH. split.
      * intros Hall x [->|Hx]%elem_of_cons; [done | by apply Hall].
      * intros Hall x Hx. apply Hall. by right.
Qed.

Lemma find_bool_decide_Some {A} (P : A → Prop) `{!∀ x, Decision (P x)} (l : list A) x :
  find (λ x, bool_decide (P x)) l = Some x → x ∈ l ∧ P x.
Proof.
  induction l as [|y l IH]; simpl; [done |].
  case_bool_decide as Hy.
  - intros [= ->]. split; [left | done].
  - intros [? ?]%IH. split; [by right | done].
Qed.

Lemma find_bool_decide_is_Some {A} (P : A → Prop) `{!∀ x, Decision (P x)} (l : list A) x :
  x ∈ l → P x → is_Some (find (λ x, bool_decide (P x)) l).
Proof.
  intros Hx HP. destruct (find _ l) eqn:Hfind; [done |].
  rewrite find_bool_decide_None in Hfind. by destruct (Hfind x).
Qed.

(** The first match of [find]. *)
Lemma find_bool_decide_first {A} (P : A → Prop) `{!∀ x, Decision (P x)} (l : list A) :
  (∃ x, x ∈ l ∧ P x) →
  ∃ (k : nat) x,
    find (λ x, bool_decide (P x)) l = Some x ∧
    l !! k = Some x ∧ P x ∧
    ∀ (k' : nat) y, (k' < k)%nat → l !! k' = Some y → ¬ P y.
Proof.
  induction l as [|y l IH]; intros (x & Hx & HP).
  - by apply elem_of_nil in Hx.
  - simpl. case_bool_decide as Hy.
    + exists 0%nat, y. split_and!; [done | done | done |]. intros; lia.
    + apply elem_of_cons in Hx as [->|Hx]; [done |].
      destruct (IH (ex_intro _ x (conj Hx HP))) as (k & z & Hfind & Hk & Hz & Hfirst).
      exists (S k), z. split_and!; [done | done | done |].
      intros [|k'] y' Hlt Hy'; simpl in Hy'; [congruence |].
      apply (Hfirst k'); [lia | done].
Qed.

Lemma Forall2_unchanged {A} (R : A → A → Prop) (l k : list A) :
  Forall2 R l k → (∀ x y, x ∈ l → R x y → y = x) → k = l.
Proof.
  induction 1 as [|x y l k HR _ IH]; intros Hsame; [done |].
  rewrite (Hsame x y) by (done || left). f_equal.
  apply IH. intros x' y' Hx'. apply Hsame. by right.
Qed.

(** ** The cascade *)

Section Cascade_facts.

Context {env : Environment}.

Lemma read_in_mono w1 w2 w3 w4 t :
  World_le w1 w2 → World_le w3 w4 → read_in w2 w3 t → read_in w1 w4 t.
Proof.
  intros [? _] [? _] (k & ? & ->). exists k. split; [lia | done].
Qed.

Lemma stamped_in_mono w1 w2 w3 w4 o :
  World_le w1 w2 → World_le w3 w4 → stamped_in w2 w3 o → stamped_in w1 w4 o.
Proof.
  intros ?? (t & ? & ->). exists t. split; [by eapply read_in_mono | done].
Qed.

Lemma new_Date_spec w :
  World_le w (new_Date w).2 ∧ read_in w (new_Date w).2 (new_Date w).1.
Proof.
  unfold new_Date, World_le, read_in; simpl. split; [lia |].
  exists (reads w). split; [lia | done].
Qed.

Lemma task_rel_mono uid tid c w1 w2 w3 w4 task task' :
  World_le w1 w2 → World_le w3 w4 →
  task_rel uid tid c w2 w3 task task' → task_rel uid tid c w1 w4 task task'.
Proof.
  intros ?? (? & ? & ? & Hhit). repeat split; try done;
    destruct (Hhit ltac:(done)) as (? & Ht & Hf); try done.
  - eapply stamped_in_mono; [done | done |]. by apply Ht.
  - by apply Ht.
  - by apply Hf.
  - by apply Hf.
Qed.

Lemma update_task_spec state tid c task w :
  World_le w (update_task state tid c task w).2 ∧
  task_rel (currentUser_id state) tid c w (update_task state tid c task w).2
    task (update_task state tid c task w).1.
Proof.
  unfold update_task. case_decide as Hne.
  - split; [done |]. repeat split; done.
  - destruct c.
    + rewrite Ambient_bind_run. unfold now_iso. rewrite !Ambient_fmap_run. simpl.
      destruct (new_Date_spec w) as [Hle Hrd].
      split; [done |]. repeat split; try done.
      by exists (new_Date w).1.
    + split; [done |]. repeat split; done.
Qed.

Lemma update_tasks_spec state tid c l w :
  World_le w (mapM (update_task state tid c) l w).2 ∧
  Forall2 (task_rel (currentUser_id state) tid c w
             (mapM (update_task state tid c) l w).2)
    l (mapM (update_task state tid c) l w).1.
Proof.
  apply (mapM_Ambient_spec (update_task state tid c)
           (task_rel (currentUser_id state) tid c)).
  - intros. by eapply task_rel_mono.
  - intros. apply update_task_spec.
Qed.

Lemma milestone_rel_mono uid sid tid c w1 w2 w3 w4 m m' :
  World_le w1 w2 → World_le w3 w4 →
  milestone_rel uid sid tid c w2 w3 m m' → milestone_rel uid sid tid c w1 w4 m m'.
Proof.
  intros H12 H34 (? & ? & ? & Hhit). repeat split; try done.
  intros Hsid. destruct (Hhit Hsid) as (sts' & ? & Hsts & ? & Hstamp & Hkeep).
  exists sts'. repeat split; try done.
  - eapply Forall2_impl; [exact Hsts |]. intros. by eapply task_rel_mono.
  - eapply stamped_in_mono; [done | done |]. by apply Hstamp.
  - by apply Hstamp.
  - by apply Hkeep.
  - by apply Hkeep.
Qed.

Lemma update_milestone_spec state sid tid c m w :
  World_le w (update_milestone state sid tid c m w).2 ∧
  milestone_rel (currentUser_id state) sid tid c w
    (update_milestone state sid tid c m w).2 m (update_milestone state sid tid c m w).1.
Proof.
  unfold update_milestone. case_decide as Hne.
  - split; [done |]. by split_and!.
  - rewrite Ambient_bind_run.
    destruct (update_tasks_spec state tid c
                (ensure_subtask tid (Milestone.subTasks m)) w) as [Hle Hsts].
    set (r := mapM (update_task state tid c)
                (ensure_subtask tid (Milestone.subTasks m)) w) in *.
    destruct (forallb SubTask.completed r.1 && negb (Milestone.completed m))
      eqn:Hstamp.
    + apply andb_prop in Hstamp as [Hall Hold].
      apply negb_true_iff in Hold.
      rewrite Ambient_bind_run. unfold now_iso. rewrite !Ambient_fmap_run. simpl.
      destruct (new_Date_spec r.2) as [Hle' Hrd].
      split; [by etrans |]. split_and!; try done.
      intros _. exists r.1. simpl. split_and!; try done.
      * eapply Forall2_impl; [exact Hsts |]. intros.
        eapply task_rel_mono; [reflexivity | exact Hle' | done].
      * intros _ _. split; [| done].
        exists (new_Date r.2).1. split; [| done].
        eapply read_in_mono; [exact Hle | reflexivity | exact Hrd].
      * intros Hno. destruct Hno. by rewrite Hall.
    + rewrite Ambient_bind_run. simpl.
      split; [done |]. split_and!; try done.
      intros _. exists r.1. simpl. split_and!; try done.
      intros Hold Hnew. rewrite Hold, Hnew in Hstamp. done.
Qed.

Lemma update_milestones_spec state sid tid c l w :
  World_le w (mapM (update_milestone state sid tid c) l w).2 ∧
  Forall2 (milestone_rel (currentUser_id state) sid tid c w
             (mapM (update_milestone state sid tid c) l w).2)
    l (mapM (update_milestone state sid tid c) l w).1.
Proof.
  apply (mapM_Ambient_spec (update_milestone state sid tid c)
           (milestone_rel (currentUser_id state) sid tid c)).
  - intros. by eapply milestone_rel_mono.
  - intros. apply update_milestone_spec.
Qed.

Lemma rep_rel_mono uid rid sid tid c w1 w2 w3 w4 r r' :
  World_le w1 w2 → World_le w3 w4 →
  rep_rel uid rid sid tid c w2 w3 r r' → rep_rel uid rid sid tid c w1 w4 r r'.
Proof.
  intros H12 H34 (? & ? & ? & ? & Hhit). repeat split; try done.
  intros Hrid. destruct (Hhit Hrid) as (ms' & ? & Hms & ? & Hrd).
  exists ms'. repeat split; try done.
  - eapply Forall2_impl; [exact Hms |]. intros. by eapply milestone_rel_mono.
  - by eapply read_in_mono.
Qed.

Lemma update_rep_spec state rid sid tid c r w :
  World_le w (update_rep state rid sid tid c r w).2 ∧
  rep_rel (currentUser_id state) rid sid tid c w
    (update_rep state rid sid tid c r w).2 r (update_rep state rid sid tid c r w).1.
Proof.
  unfold update_rep. case_decide as Hne.
  - split; [done |]. repeat split; done.
  - rewrite !Ambient_bind_run.
    destruct (update_milestones_spec state sid tid c
                (ensure_milestone sid (Rep.milestones r)) w) as [Hle Hms].
    set (q := mapM (update_milestone state sid tid c)
                (ensure_milestone sid (Rep.milestones r)) w) in *.
    destruct (new_Date_spec q.2) as [Hle' Hrd]. simpl.
    split; [by etrans |]. split_and!; try done.
    intros _. exists q.1. split_and!; [done | | |].
    + eapply Forall2_impl; [exact Hms |]. intros.
      eapply milestone_rel_mono; [reflexivity | exact Hle' | done].
    + simpl. rewrite (Z.add_comm 1). done.
    + eapply read_in_mono; [exact Hle | reflexivity | exact Hrd].
Qed.

Lemma update_reps_spec state rid sid tid c l w :
  World_le w (mapM (update_rep state rid sid tid c) l w).2 ∧
  Forall2 (rep_rel (currentUser_id state) rid sid tid c w
             (mapM (update_rep state rid sid tid c) l w).2)
    l (mapM (update_rep state rid sid tid c) l w).1.
Proof.
  apply (mapM_Ambient_spec (update_rep state rid sid tid c)
           (rep_rel (currentUser_id state) rid sid tid c)).
  - intros. by eapply rep_rel_mono.
  - intros. apply update_rep_spec.
Qed.

(** The state after an Update subtask dispatch: only [reps] and
    [selectedRep] can differ, and [reps] is related rep by rep. *)
Lemma update_subtask_spec state rid sid tid c w :
  let r := appReducer state (UPDATE_SUBTASK rid sid tid c) w in
  World_le w r.2 ∧
  Forall2 (rep_rel (currentUser_id state) rid sid tid c w r.2)
    (reps state) (reps r.1) ∧
  currentUser r.1 = currentUser state ∧
  auditLogs r.1 = auditLogs state.
Proof.
  simpl. unfold update_subtask. rewrite Ambient_bind_run. simpl.
  destruct (update_reps_spec state rid sid tid c (reps state) w). done.
Qed.

(** *** The two synthesis steps *)

Lemma ensure_milestone_absent sid ms :
  (∀ m, m ∈ default [] ms → Milestone.stepId m ≠ sid) →
  ensure_milestone sid ms = default [] ms ++ [placeholder_milestone sid].
Proof.
  intros Habs. unfold ensure_milestone.
  by rewrite (proj2 (find_bool_decide_None _ _) Habs).
Qed.

Lemma ensure_milestone_present sid ms m :
  m ∈ default [] ms → Milestone.stepId m = sid →
  ensure_milestone sid ms = default [] ms.
Proof.
  intros Hm Hsid. unfold ensure_milestone.
  by destruct (find_bool_decide_is_Some
                 (λ m, Milestone.stepId m = sid) _ m Hm Hsid) as [? ->].
Qed.

Lemma ensure_milestone_cases sid ms :
  (ensure_milestone sid ms = default [] ms ∧
     ∃ m, m ∈ default [] ms ∧ Milestone.stepId m = sid) ∨
  (ensure_milestone sid ms = default [] ms ++ [placeholder_milestone sid] ∧
     ∀ m, m ∈ default [] ms → Milestone.stepId m ≠ sid).
Proof.
  unfold ensure_milestone.
  destruct (find _ (default [] ms)) as [m|] eqn:Hfind.
  - left. split; [done |]. exists m.
    by apply (find_bool_decide_Some (λ m, Milestone.stepId m = sid)).
  - right. split; [done |].
    by apply (find_bool_decide_None (λ m, Milestone.stepId m = sid)).
Qed.

Lemma ensure_milestone_has sid ms :
  ∃ m, m ∈ ensure_milestone sid ms ∧ Milestone.stepId m = sid.
Proof.
  destruct (ensure_milestone_cases sid ms) as [[-> Hm]|[-> _]]; [done |].
  exists (placeholder_milestone sid). split; [| done].
  apply elem_of_app. right. by left.
Qed.

Lemma ensure_milestone_elem sid ms m :
  m ∈ ensure_milestone sid ms → m ∈ default [] ms ∨ m = placeholder_milestone sid.
Proof.
  destruct (ensure_milestone_cases sid ms) as [[-> _]|[-> _]]; [by left |].
  intros [?|?%list_elem_of_singleton]%elem_of_app; [by left | by right].
Qed.

Lemma ensure_milestone_lookup sid ms j m :
  default [] ms !! j = Some m → ensure_milestone sid ms !! j = Some m.
Proof.
  intros Hj.
  destruct (ensure_milestone_cases sid ms) as [[-> _]|[-> _]]; [done |].
  by apply lookup_app_l_Some.
Qed.

Lemma ensure_subtask_cases tid sts :
  (ensure_subtask tid sts = default [] sts ∧
     ∃ t, t ∈ default [] sts ∧ SubTask.taskId t = tid) ∨
  (ensure_subtask tid sts = default [] sts ++ [placeholder_subtask tid] ∧
     ∀ t, t ∈ default [] sts → SubTask.taskId t ≠ tid).
Proof.
  unfold ensure_subtask.
  destruct (find _ (default [] sts)) as [t|] eqn:Hfind.
  - left. split; [done |]. exists t.
    by apply (find_bool_decide_Some (λ t, SubTask.taskId t = tid)).
  - right. split; [done |].
    by apply (find_bool_decide_None (λ t, SubTask.taskId t = tid)).
Qed.

Lemma ensure_subtask_has tid sts :
  ∃ t, t ∈ ensure_subtask tid sts ∧ SubTask.taskId t = tid.
Proof.
  destruct (ensure_subtask_cases tid sts) as [[-> Ht]|[-> _]]; [done |].
  exists (placeholder_subtask tid). split; [| done].
  apply elem_of_app. right. by left.
Qed.

Lemma ensure_subtask_elem tid sts t :
  t ∈ ensure_subtask tid sts → t ∈ default [] sts ∨ t = placeholder_subtask tid.
Proof.
  destruct (ensure_subtask_cases tid sts) as [[-> _]|[-> _]]; [by left |].
  intros [?|?%list_elem_of_singleton]%elem_of_app; [by left | by right].
Qed.

(** *** One dispatch, seen from one rep of the list *)

Lemma update_subtask_lookup state rid sid tid c w i r :
  reps state !! i = Some r →
  ∃ r', reps (appReducer state (UPDATE_SUBTASK rid sid tid c) w).1 !! i = Some r' ∧
        rep_rel (currentUser_id state) rid sid tid c w
          (appReducer state (UPDATE_SUBTASK rid sid tid c) w).2 r r'.
Proof.
  intros Hi.
  destruct (update_subtask_spec state rid sid tid c w) as (_ & Hreps & _).
  by eapply Forall2_lookup_l.
Qed.

Lemma update_subtask_hit state rid sid tid c w i r :
  reps state !! i = Some r → Rep.id r = rid →
  ∃ r' ms',
    reps (appReducer state (UPDATE_SUBTASK rid sid tid c) w).1 !! i = Some r' ∧
    Rep.id r' = rid ∧
    Rep.milestones r' = Some ms' ∧
    Forall2 (milestone_rel (currentUser_id state) sid tid c w
               (appReducer state (UPDATE_SUBTASK rid sid tid c) w).2)
      (ensure_milestone sid (Rep.milestones r)) ms' ∧
    Rep.stage r' =
      Z.max (Rep.stage r)
            (1 + Z.of_nat (length (List.filter Milestone.completed ms'))) ∧
    read_in w (appReducer state (UPDATE_SUBTASK rid sid tid c) w).2 (Rep.updatedAt r').
Proof.
  intros Hi Hid.
  destruct (update_subtask_lookup state rid sid tid c w i r Hi)
    as (r' & Hi' & Hid' & _ & _ & _ & Hhit).
  destruct (Hhit Hid) as (ms' & ? & ? & ? & ?).
  exists r', ms'. split_and!; try done. congruence.
Qed.

(** The image of a milestone list: the target milestone is there, and every
    milestone with the step id is the image of one with the step id. *)
Lemma milestones_image uid sid tid c w w' ms ms' :
  Forall2 (milestone_rel uid sid tid c w w') (ensure_milestone sid ms) ms' →
  (∃ m', m' ∈ ms' ∧ Milestone.stepId m' = sid) ∧
  (∀ m', m' ∈ ms' → Milestone.stepId m' = sid →
     ∃ m sts',
       m ∈ ensure_milestone sid ms ∧ Milestone.stepId m = sid ∧
       Milestone.subTasks m' = Some sts' ∧
       Forall2 (task_rel uid tid c w w')
         (ensure_subtask tid (Milestone.subTasks m)) sts' ∧
       Milestone.completed m' = forallb SubTask.completed sts').
Proof.
  intros Hms. split.
  - destruct (ensure_milestone_has sid ms) as (m & [j Hj]%list_elem_of_lookup & Hsid).
    destruct (Forall2_lookup_l _ _ _ _ _ Hms Hj) as (m' & Hj' & Hid & _).
    exists m'. split; [by eapply list_elem_of_lookup_2 | congruence].
  - intros m' [j Hj']%list_elem_of_lookup Hsid.
    destruct (Forall2_lookup_r _ _ _ _ _ Hms Hj') as (m & Hj & Hid & _ & _ & Hhit).
    assert (Milestone.stepId m = sid) as Hm by congruence.
    destruct (Hhit Hm) as (sts' & ? & ? & ? & _).
    exists m, sts'. split_and!; try done. by eapply list_elem_of_lookup_2.
Qed.

(** The image of a subtask list: the target subtask is there, and every
    subtask with the task id carries the value passed. *)
Lemma subtasks_image uid tid c w w' sts sts' :
  Forall2 (task_rel uid tid c w w') (ensure_subtask tid sts) sts' →
  (∃ t', t' ∈ sts' ∧ SubTask.taskId t' = tid) ∧
  (∀ t', t' ∈ sts' → SubTask.taskId t' = tid →
     SubTask.completed t' = c ∧
     (c = true → stamped_in w w' (SubTask.completedAt t') ∧
                 SubTask.completedBy t' = uid) ∧
     (c = false → SubTask.completedAt t' = None ∧ SubTask.completedBy t' = None)).
Proof.
  intros Hsts. split.
  - destruct (ensure_subtask_has tid sts) as (t & [j Hj]%list_elem_of_lookup & Htid).
    destruct (Forall2_lookup_l _ _ _ _ _ Hsts Hj) as (t' & Hj' & Hid & _).
    exists t'. split; [by eapply list_elem_of_lookup_2 | congruence].
  - intros t' [j Hj']%list_elem_of_lookup Htid.
    destruct (Forall2_lookup_r _ _ _ _ _ Hsts Hj') as (t & Hj & Hid & _ & _ & Hhit).
    apply Hhit. congruence.
Qed.

(** When no rep has the id, the dispatch reads nothing and rebuilds the same
    rep list. *)
Lemma update_reps_miss state rid sid tid c w :
  (∀ r, r ∈ reps state → Rep.id r ≠ rid) →
  mapM (update_rep state rid sid tid c) (reps state) w = (reps state, w).
Proof.
  intros Hmiss. apply mapM_Ambient_id. intros r w' Hr.
  unfold update_rep. destruct (decide (Rep.id r ≠ rid)) as [|Hne]; [done |].
  destruct Hne. by apply Hmiss.
Qed.

(** The image of the placeholder milestone: one subtask, with the value
    passed, under the placeholder title. *)
Lemma placeholder_milestone_image uid sid tid c w w' m' :
  milestone_rel uid sid tid c w w' (placeholder_milestone sid) m' →
  Milestone.stepId m' = sid ∧
  Milestone.title m' = "Step " +:+ pretty sid ∧
  Milestone.completed m' = c ∧
  ∃ t', Milestone.subTasks m' = Some [t'] ∧
        SubTask.taskId t' = tid ∧
        SubTask.description t' = "Task " +:+ tid ∧
        SubTask.completed t' = c.
Proof.
  intros (Hsid & Htitle & _ & Hhit).
  destruct (Hhit eq_refl) as (sts' & Hsts' & Htasks & Hdone & _).
  change (ensure_subtask tid (Milestone.subTasks (placeholder_milestone sid)))
    with [placeholder_subtask tid] in Htasks.
  apply Forall2_cons_inv_l in Htasks as (t' & k & Ht' & ->%Forall2_nil_inv_l & ->).
  destruct Ht' as (Htid & Hdesc & _ & Hflag).
  destruct (Hflag eq_refl) as (Hc & _).
  split_and!; [done | done | |].
  - rewrite Hdone. simpl. rewrite Hc. by destruct c.
  - by exists t'.
Qed.

(** The targeted subtask after one dispatch. *)
Lemma update_subtask_target state rid sid tid c w i r :
  reps state !! i = Some r → Rep.id r = rid →
  ∃ r' ms',
    reps (appReducer state (UPDATE_SUBTASK rid sid tid c) w).1 !! i = Some r' ∧
    Rep.milestones r' = Some ms' ∧
    (∃ m' sts' t',
       m' ∈ ms' ∧ Milestone.stepId m' = sid ∧
       Milestone.subTasks m' = Some sts' ∧
       t' ∈ sts' ∧ SubTask.taskId t' = tid) ∧
    (∀ m' sts' t',
       m' ∈ ms' → Milestone.stepId m' = sid →
       Milestone.subTasks m' = Some sts' →
       t' ∈ sts' → SubTask.taskId t' = tid →
       SubTask.completed t' = c ∧
       (c = true →
          stamped_in w (appReducer state (UPDATE_SUBTASK rid sid tid c) w).2
            (SubTask.completedAt t') ∧
          SubTask.completedBy t' = AppUser.id <$> currentUser state) ∧
       (c = false →
          SubTask.completedAt t' = None ∧ SubTask.completedBy t' = None)).
Proof.
  intros Hi Hid.
  destruct (update_subtask_hit state rid sid tid c w i r Hi Hid)
    as (r' & ms' & Hi' & _ & Hms' & Hrel & _).
  destruct (milestones_image _ _ _ _ _ _ _ _ Hrel) as [(m0 & Hm0 & Hsid0) Hall].
  exists r', ms'. split_and!; try done.
  - destruct (Hall m0 Hm0 Hsid0) as (m & sts' & _ & _ & Hsts' & Htasks & _).
    destruct (subtasks_image _ _ _ _ _ _ _ Htasks) as [(t' & Ht' & Htid) _].
    by exists m0, sts', t'.
  - intros m' sts' t' Hm' Hsid Hsts' Ht' Htid.
    destruct (Hall m' Hm' Hsid) as (m & sts'' & _ & _ & Hsts'' & Htasks & _).
    assert (sts'' = sts') as -> by congruence.
    destruct (subtasks_image _ _ _ _ _ _ _ Htasks) as [_ Hflag].
    by apply Hflag.
Qed.

(** When the image of a subtask list is all completed: the value passed is
    true and every subtask with another task id was completed already. *)
Lemma subtasks_all_completed_iff uid tid c w w' sts sts' :
  Forall2 (task_rel uid tid c w w') (ensure_subtask tid sts) sts' →
  forallb SubTask.completed sts' = true ↔
  c = true ∧
  ∀ t, t ∈ default [] sts → SubTask.taskId t ≠ tid → SubTask.completed t = true.
Proof.
  intros Hsts. rewrite forallb_forall. split.
  - intros Hall. split.
    + destruct (subtasks_image _ _ _ _ _ _ _ Hsts) as [(t' & Ht' & Htid) Hflag].
      destruct (Hflag t' Ht' Htid) as (<- & _).
      apply Hall. by apply list_elem_of_In.
    + intros t [k Hk]%list_elem_of_lookup Hne.
      assert (ensure_subtask tid sts !! k = Some t) as Hk'.
      { destruct (ensure_subtask_cases tid sts) as [[-> _]|[-> _]]; [done |].
        by apply lookup_app_l_Some. }
      destruct (Forall2_lookup_l _ _ _ _ _ Hsts Hk')
        as (t' & Hk2%list_elem_of_lookup_2 & _ & _ & Hmiss & _).
      rewrite <- (Hmiss Hne). apply Hall. by apply list_elem_of_In.
  - intros [-> Hothers] t' [k Hk]%list_elem_of_In%list_elem_of_lookup.
    destruct (Forall2_lookup_r _ _ _ _ _ Hsts Hk)
      as (t & Ht%list_elem_of_lookup_2 & _ & _ & Hmiss & Hhit).
    destruct (decide (SubTask.taskId t = tid)) as [Heq|Hne].
    + by destruct (Hhit Heq) as (-> & _).
    + rewrite (Hmiss Hne). apply Hothers; [| done].
      by apply ensure_subtask_elem in Ht as [?| ->].
Qed.

End Cascade_facts.

(** ** Update rep *)

Section Update_rep_facts.

Context {env : Environment}.


Lemma merge_rel_mono id updates w1 w2 w3 w4 rep rep' :
  World_le w1 w2 → World_le w3 w4 →
  merge_rel id updates w2 w3 rep rep' → merge_rel id updates w1 w4 rep rep'.
Proof.
  intros ?? [Hhit Hmiss]. split; [| done].
  intros Hid. destruct (Hhit Hid) as (t & ? & ?).
  exists t. split; [by eapply read_in_mono | done].
Qed.

Lemma merge_into_list_spec id updates l w :
  World_le w (mapM (merge_into id updates) l w).2 ∧
  Forall2 (merge_rel id updates w (mapM (merge_into id updates) l w).2)
    l (mapM (merge_into id updates) l w).1.
Proof.
  apply (mapM_Ambient_spec (merge_into id updates) (merge_rel id updates)).
  - intros. by eapply merge_rel_mono.
  - intros rep w'. unfold merge_into. destruct (decide (Rep.id rep = id)) as [Heq|Hne].
    + rewrite Ambient_fmap_run. simpl.
      destruct (new_Date_spec w') as [Hle Hrd].
      split; [done |]. split; [| done].
      intros _. by exists (new_Date w').1.
    + split; [done |]. split; [done | done].
Qed.

(** The state after an Update rep dispatch. *)
Lemma UPDATE_REP_spec state id updates w :
  let r := appReducer state (UPDATE_REP id updates) w in
  World_le w r.2 ∧
  Forall2 (merge_rel id updates w r.2) (reps state) (reps r.1) ∧
  (∀ sel, selectedRep state = Some sel → Rep.id sel = id →
     ∃ t, read_in w r.2 t ∧ selectedRep r.1 = Some (merge_rep sel updates t)) ∧
  (Rep.id <$> selectedRep state ≠ Some id →
     selectedRep r.1 = selectedRep state ∧
     r.2 = (mapM (merge_into id updates) (reps state) w).2) ∧
  isAuthenticated r.1 = isAuthenticated state ∧
  currentUser r.1 = currentUser state ∧
  userRole r.1 = userRole state ∧
  trainers r.1 = trainers state ∧
  auditLogs r.1 = auditLogs state.
Proof.
  simpl. rewrite Ambient_bind_run.
  destruct (merge_into_list_spec id updates (reps state) w) as [Hle Hreps].
  set (q := mapM (merge_into id updates) (reps state) w) in *.
  rewrite Ambient_bind_run.
  destruct (selectedRep state) as [sel|] eqn:Hsel; simpl.
  - destruct (decide (Rep.id sel = id)) as [Heq|Hne].
    + rewrite Ambient_fmap_run. simpl.
      destruct (new_Date_spec q.2) as [Hle' Hrd].
      split_and!; try done.
      * by etrans.
      * eapply Forall2_impl; [exact Hreps |]. intros.
        eapply merge_rel_mono; [reflexivity | exact Hle' | done].
      * intros sel' [= <-] _. exists (new_Date q.2).1. split; [| done].
        eapply read_in_mono; [exact Hle | reflexivity | exact Hrd].
      * intros Hno. destruct Hno. by rewrite Heq.
    + simpl. split_and!; try done.
      intros sel' [= <-] ?. done.
  - split_and!; try done.
Qed.

End Update_rep_facts.

(** ** Sequences of dispatches *)

Section Sequences.

Context {env : Environment}.

Lemma dispatch_all_app l1 l2 state w :
  dispatch_all (l1 ++ l2) state w =
  dispatch_all l2 (dispatch_all l1 state w).1 (dispatch_all l1 state w).2.
Proof.
  revert state w. induction l1 as [|a l1 IH]; intros state w; [done |].
  simpl. rewrite !Ambient_bind_run. apply IH.
Qed.

Lemma dispatch_all_one a state w : dispatch_all [a] state w = appReducer state a w.
Proof. simpl. rewrite Ambient_bind_run. by destruct (appReducer state a w). Qed.

Lemma toggles_app rid l1 l2 : toggles rid (l1 ++ l2) = toggles rid l1 ++ toggles rid l2.
Proof. unfold toggles. apply fmap_app. Qed.

(** Toggles keep the length of the rep list, the id of every rep, the
    signed-in user, and never lower a stage. *)
Lemma toggles_frame rid l :
  ∀ state w i r,
    reps state !! i = Some r →
    World_le w (dispatch_all (toggles rid l) state w).2 ∧
    currentUser (dispatch_all (toggles rid l) state w).1 = currentUser state ∧
    ∃ r', reps (dispatch_all (toggles rid l) state w).1 !! i = Some r' ∧
          Rep.id r' = Rep.id r ∧ Rep.stage r ≤ Rep.stage r'.
Proof.
  induction l as [|[[sid tid] c] l IH]; intros state w i r Hi.
  - simpl. split_and!; [done | done |]. exists r. split_and!; [done | done | lia].
  - simpl. rewrite Ambient_bind_run.
    destruct (update_subtask_spec state rid sid tid c w) as (Hle & _ & Hcu & _).
    destruct (update_subtask_lookup state rid sid tid c w i r Hi)
      as (r1 & Hi1 & Hid1 & _ & _ & Hmiss & Hhit).
    simpl in Hle, Hcu, Hi1.
    destruct (IH _ (update_subtask state rid sid tid c w).2 i r1 Hi1)
      as (Hle2 & Hcu2 & r2 & Hi2 & Hid2 & Hst2).
    split_and!; [by etrans | congruence |].
    exists r2. split_and!; [done | congruence |].
    destruct (decide (Rep.id r = rid)) as [Heq|Hne].
    + destruct (Hhit Heq) as (ms' & _ & _ & Hst & _). lia.
    + rewrite (Hmiss Hne) in Hst2. done.
Qed.

(** Setting task [t] of step [sid] to true takes it off the pending tasks. *)
Lemma toggle_true_step state rid sid t rest w i r :
  reps state !! i = Some r → Rep.id r = rid → pending sid (t :: rest) r →
  ∃ r' ms',
    reps (appReducer state (UPDATE_SUBTASK rid sid t true) w).1 !! i = Some r' ∧
    Rep.id r' = rid ∧
    Rep.milestones r' = Some ms' ∧
    pending sid rest r' ∧
    (∃ m', m' ∈ ms' ∧ Milestone.stepId m' = sid) ∧
    (∀ m', m' ∈ ms' → Milestone.stepId m' = sid →
       ∃ sts', Milestone.subTasks m' = Some sts' ∧
               Milestone.completed m' = forallb SubTask.completed sts').
Proof.
  intros Hi Hid Hpend.
  destruct (update_subtask_hit state rid sid t true w i r Hi Hid)
    as (r' & ms' & Hi' & Hid' & Hms' & Hrel & _).
  destruct (milestones_image _ _ _ _ _ _ _ _ Hrel) as [Hex Hall].
  exists r', ms'. split_and!; try done.
  - intros m' Hm' Hsid st' Hst'. rewrite Hms' in Hm'. simpl in Hm'.
    destruct (Hall m' Hm' Hsid) as (m & sts' & Hm & Hmsid & Hsts' & Htasks & _).
    rewrite Hsts' in Hst'. simpl in Hst'.
    apply list_elem_of_lookup in Hst' as [k Hk].
    destruct (Forall2_lookup_r _ _ _ _ _ Htasks Hk)
      as (st & Hst%list_elem_of_lookup_2 & _ & _ & Hmiss & Hhit).
    destruct (decide (SubTask.taskId st = t)) as [Heq|Hne].
    + left. by apply Hhit.
    + rewrite (Hmiss Hne).
      apply ensure_subtask_elem in Hst as [Hst| ->]; [| done].
      apply ensure_milestone_elem in Hm as [Hm| ->];
        [| by apply elem_of_nil in Hst].
      destruct (Hpend m Hm Hmsid st Hst) as [?|Hin]; [by left |].
      apply elem_of_cons in Hin as [?|?]; [done | by right].
  - intros m' Hm' Hsid.
    destruct (Hall m' Hm' Hsid) as (m & sts' & _ & _ & ? & _ & ?).
    by exists sts'.
Qed.

(** Setting the tasks [t :: rest] of step [sid] to true, one after the other,
    completes every milestone of that step when they cover its subtasks. *)
Lemma toggles_true_all rid sid rest :
  ∀ t state w i r,
    reps state !! i = Some r → Rep.id r = rid → pending sid (t :: rest) r →
    ∃ r' ms',
      reps (dispatch_all (toggles rid ((λ t, (sid, t, true)) <$> (t :: rest)))
              state w).1 !! i = Some r' ∧
      Rep.milestones r' = Some ms' ∧
      (∃ m', m' ∈ ms' ∧ Milestone.stepId m' = sid) ∧
      (∀ m', m' ∈ ms' → Milestone.stepId m' = sid → Milestone.completed m' = true).
Proof.
  induction rest as [|t2 rest IH]; intros t state w i r Hi Hid Hpend.
  - destruct (toggle_true_step state rid sid t [] w i r Hi Hid Hpend)
      as (r' & ms' & Hi' & _ & Hms' & Hpend' & Hex & Hall).
    exists r', ms'. simpl. rewrite Ambient_bind_run. simpl.
    split_and!; try done.
    intros m' Hm' Hsid. destruct (Hall m' Hm' Hsid) as (sts' & Hsts' & ->).
    apply forallb_forall. intros st Hst%list_elem_of_In.
    unfold pending in Hpend'. rewrite Hms' in Hpend'. simpl in Hpend'.
    specialize (Hpend' m' Hm' Hsid st). rewrite Hsts' in Hpend'.
    destruct (Hpend' Hst) as [?|Hin]; [done | by apply elem_of_nil in Hin].
  - destruct (toggle_true_step state rid sid t (t2 :: rest) w i r Hi Hid Hpend)
      as (r1 & ms1 & Hi1 & Hid1 & _ & Hpend1 & _).
    change (toggles rid ((λ t, (sid, t, true)) <$> (t :: t2 :: rest)))
      with (UPDATE_SUBTASK rid sid t true
              :: toggles rid ((λ t, (sid, t, true)) <$> (t2 :: rest))).
    cbn [dispatch_all]. rewrite Ambient_bind_run.
    by apply (IH t2 _ _ i r1).
Qed.

End Sequences.

(** ** The claims *)

Section Claims.

Context {env : Environment}.

(** C1. An Update subtask dispatch that targets a rep of the list leaves it
    with the stage max(previous stage, 1 + number of its milestones that are
    completed after the update); and along any sequence of Update subtask
    dispatches on that rep its stage never goes down. *)
Theorem C1_stage_max_and_monotone
    state repId stepId taskId completed w (i : nat) rep
    (before after : list (Z * string * bool)) :
  reps state !! i = Some rep →
  Rep.id rep = repId →
  (∃ rep' ms',
     reps (appReducer state (UPDATE_SUBTASK repId stepId taskId completed) w).1 !! i
       = Some rep' ∧
     Rep.milestones rep' = Some ms' ∧
     Rep.stage rep' =
       Z.max (Rep.stage rep)
             (1 + Z.of_nat (length (List.filter Milestone.completed ms')))) ∧
  (∃ rep1 rep2,
     reps (dispatch_all (toggles repId before) state w).1 !! i = Some rep1 ∧
     reps (dispatch_all (toggles repId (before ++ after)) state w).1 !! i = Some rep2 ∧
     Rep.stage rep ≤ Rep.stage rep1 ∧ Rep.stage rep1 ≤ Rep.stage rep2).
Proof.
  intros Hi Hid. split.
  - destruct (update_subtask_hit state repId stepId taskId completed w i rep Hi Hid)
      as (rep' & ms' & ? & _ & ? & _ & ? & _).
    by exists rep', ms'.
  - destruct (toggles_frame repId before state w i rep Hi)
      as (_ & _ & rep1 & Hi1 & _ & Hst1).
    rewrite toggles_app, dispatch_all_app.
    destruct (toggles_frame repId after _
                (dispatch_all (toggles repId before) state w).2 i rep1 Hi1)
      as (_ & _ & rep2 & Hi2 & _ & Hst2).
    by exists rep1, rep2.
Qed.

(** C2. After an Update subtask dispatch that targets a rep of the list, a
    milestone with the step id exists, and every such milestone is completed
    exactly when all the subtasks of its list are (so an empty list gives
    completed).  In particular a dispatch that passes false leaves the
    milestone not completed, and setting the tasks [first :: others] to true
    one after the other, when they cover the subtasks of the step, leaves it
    completed. *)
Theorem C2_milestone_completed_iff_all_subtasks
    state repId stepId taskId completed w (i : nat) rep
    (first : string) (others : list string) :
  reps state !! i = Some rep →
  Rep.id rep = repId →
  (∃ rep' ms',
     reps (appReducer state (UPDATE_SUBTASK repId stepId taskId completed) w).1 !! i
       = Some rep' ∧
     Rep.milestones rep' = Some ms' ∧
     (∃ m', m' ∈ ms' ∧ Milestone.stepId m' = stepId) ∧
     (∀ m', m' ∈ ms' → Milestone.stepId m' = stepId →
        ∃ sts', Milestone.subTasks m' = Some sts' ∧
                (Milestone.completed m' = true ↔
                 ∀ st, st ∈ sts' → SubTask.completed st = true)) ∧
     (completed = false →
        ∀ m', m' ∈ ms' → Milestone.stepId m' = stepId →
              Milestone.completed m' = false)) ∧
  ((∀ m st, m ∈ default [] (Rep.milestones rep) → Milestone.stepId m = stepId →
            st ∈ default [] (Milestone.subTasks m) →
            SubTask.taskId st ∈ first :: others) →
   ∃ rep' ms',
     reps (dispatch_all
             (toggles repId ((λ t, (stepId, t, true)) <$> (first :: others)))
             state w).1 !! i = Some rep' ∧
     Rep.milestones rep' = Some ms' ∧
     (∃ m', m' ∈ ms' ∧ Milestone.stepId m' = stepId) ∧
     (∀ m', m' ∈ ms' → Milestone.stepId m' = stepId →
            Milestone.completed m' = true)).
Proof.
  intros Hi Hid. split.
  - destruct (update_subtask_hit state repId stepId taskId completed w i rep Hi Hid)
      as (rep' & ms' & Hi' & _ & Hms' & Hrel & _).
    destruct (milestones_image _ _ _ _ _ _ _ _ Hrel) as [Hex Hall].
    exists rep', ms'. split_and!; try done.
    + intros m' Hm' Hsid.
      destruct (Hall m' Hm' Hsid) as (m & sts' & _ & _ & Hsts' & _ & ->).
      exists sts'. split; [done |]. rewrite forallb_forall.
      split; intros Hall' st Hst; apply Hall'; by apply list_elem_of_In.
    + intros -> m' Hm' Hsid.
      destruct (Hall m' Hm' Hsid) as (m & sts' & _ & _ & _ & Htasks & ->).
      destruct (subtasks_image _ _ _ _ _ _ _ Htasks)
        as [(t' & Ht' & Htid) Hflag].
      destruct (Hflag t' Ht' Htid) as (Hfalse & _).
      apply not_true_is_false. rewrite forallb_forall. intros Hall'.
      apply list_elem_of_In in Ht'. specialize (Hall' t' Ht'). congruence.
  - intros Hcover.
    apply (toggles_true_all repId stepId others first state w i rep Hi Hid).
    intros m Hm Hsid st Hst. right. by eapply Hcover.
Qed.

(** C3. After an Update subtask dispatch that targets a rep of the list, the
    subtask with the task id exists under the step and has the value passed
    as its completed flag; when the value is true, completedAt is the
    instant of a clock read of this dispatch and completedBy is the id of the
    signed-in user (unset when nobody is signed in); when it is false, both
    are unset.  After any run of toggles of the same rep, step and task, the
    flag is the last value passed. *)
Theorem C3_subtask_takes_value_passed
    state repId stepId taskId completed w (i : nat) rep (earlier : list bool) :
  reps state !! i = Some rep →
  Rep.id rep = repId →
  (∃ rep' ms',
     reps (appReducer state (UPDATE_SUBTASK repId stepId taskId completed) w).1 !! i
       = Some rep' ∧
     Rep.milestones rep' = Some ms' ∧
     (∃ m' sts' t',
        m' ∈ ms' ∧ Milestone.stepId m' = stepId ∧
        Milestone.subTasks m' = Some sts' ∧
        t' ∈ sts' ∧ SubTask.taskId t' = taskId) ∧
     (∀ m' sts' t',
        m' ∈ ms' → Milestone.stepId m' = stepId →
        Milestone.subTasks m' = Some sts' →
        t' ∈ sts' → SubTask.taskId t' = taskId →
        SubTask.completed t' = completed ∧
        (completed = true →
           stamped_in w
             (appReducer state (UPDATE_SUBTASK repId stepId taskId completed) w).2
             (SubTask.completedAt t') ∧
           SubTask.completedBy t' = AppUser.id <$> currentUser state) ∧
        (completed = false →
           SubTask.completedAt t' = None ∧ SubTask.completedBy t' = None))) ∧
  (∃ rep' ms',
     reps (dispatch_all
             (toggles repId
                ((λ v, (stepId, taskId, v)) <$> (earlier ++ [completed])))
             state w).1 !! i = Some rep' ∧
     Rep.milestones rep' = Some ms' ∧
     (∃ m' sts' t',
        m' ∈ ms' ∧ Milestone.stepId m' = stepId ∧
        Milestone.subTasks m' = Some sts' ∧
        t' ∈ sts' ∧ SubTask.taskId t' = taskId) ∧
     (∀ m' sts' t',
        m' ∈ ms' → Milestone.stepId m' = stepId →
        Milestone.subTasks m' = Some sts' →
        t' ∈ sts' → SubTask.taskId t' = taskId →
        SubTask.completed t' = completed)).
Proof.
  intros Hi Hid. split.
  - by apply (update_subtask_target state repId stepId taskId completed w i rep).
  - rewrite fmap_app, toggles_app, dispatch_all_app.
    destruct (toggles_frame repId ((λ v, (stepId, taskId, v)) <$> earlier)
                state w i rep Hi) as (_ & _ & rep1 & Hi1 & Hid1 & _).
    change (toggles repId ((λ v, (stepId, taskId, v)) <$> [completed]))
      with [UPDATE_SUBTASK repId stepId taskId completed].
    rewrite dispatch_all_one.
    destruct (update_subtask_target _ repId stepId taskId completed
                (dispatch_all
                   (toggles repId ((λ v, (stepId, taskId, v)) <$> earlier))
                   state w).2 i rep1 Hi1 ltac:(congruence))
      as (rep' & ms' & Hi' & Hms' & Hex & Hall).
    exists rep', ms'. split_and!; try done.
    intros m' sts' t' ?????. by eapply Hall.
Qed.

(** C4. An Update subtask dispatch that targets a rep of the list first
    pushes, when the rep has no milestone with the step id, the placeholder
    milestone (title "Step N", not completed, no subtasks) at the end of the
    milestone list, and then, when a milestone with the step id has no
    subtask with the task id, the placeholder subtask (description
    "Task id", not completed) at the end of its subtask list; the toggle is
    applied to the lists so extended.  In the state returned the appended
    entries are the last of their lists, the entries that were there keep
    their places, and a milestone with the step id that holds a subtask with
    the task id always exists. *)
Theorem C4_missing_milestone_and_subtask_synthesized
    state repId stepId taskId completed w (i : nat) rep :
  reps state !! i = Some rep →
  Rep.id rep = repId →
  (* what is pushed on the milestone list *)
  ((∀ m, m ∈ default [] (Rep.milestones rep) → Milestone.stepId m ≠ stepId) →
   ensure_milestone stepId (Rep.milestones rep) =
     default [] (Rep.milestones rep) ++
     [ {| Milestone.stepId := stepId;
          Milestone.title := "Step " +:+ pretty stepId;
          Milestone.completed := false;
          Milestone.completedAt := None;
          Milestone.completedBy := None;
          Milestone.subTasks := Some [] |} ]) ∧
  (* what is pushed on the subtask list of a milestone with the step id *)
  (∀ m, m ∈ ensure_milestone stepId (Rep.milestones rep) →
        Milestone.stepId m = stepId →
        (∀ t, t ∈ default [] (Milestone.subTasks m) → SubTask.taskId t ≠ taskId) →
        ensure_subtask taskId (Milestone.subTasks m) =
          default [] (Milestone.subTasks m) ++
          [ {| SubTask.taskId := taskId;
               SubTask.description := "Task " +:+ taskId;
               SubTask.completed := false;
               SubTask.completedAt := None;
               SubTask.completedBy := None |} ]) ∧
  (* the state returned *)
  ∃ rep' ms',
    reps (appReducer state (UPDATE_SUBTASK repId stepId taskId completed) w).1 !! i
      = Some rep' ∧
    Rep.milestones rep' = Some ms' ∧
    ((∀ m, m ∈ default [] (Rep.milestones rep) → Milestone.stepId m ≠ stepId) →
     ∃ m' t',
       ms' = default [] (Rep.milestones rep) ++ [m'] ∧
       Milestone.stepId m' = stepId ∧
       Milestone.title m' = "Step " +:+ pretty stepId ∧
       Milestone.subTasks m' = Some [t'] ∧
       SubTask.taskId t' = taskId ∧
       SubTask.description t' = "Task " +:+ taskId ∧
       SubTask.completed t' = completed) ∧
    (∀ j m, default [] (Rep.milestones rep) !! j = Some m →
            Milestone.stepId m = stepId →
       length ms' = length (default [] (Rep.milestones rep)) ∧
       ∃ m' sts',
         ms' !! j = Some m' ∧
         Milestone.stepId m' = stepId ∧
         Milestone.title m' = Milestone.title m ∧
         Milestone.subTasks m' = Some sts' ∧
         ((∀ t, t ∈ default [] (Milestone.subTasks m) → SubTask.taskId t ≠ taskId) →
          ∃ t', sts' = default [] (Milestone.subTasks m) ++ [t'] ∧
                SubTask.taskId t' = taskId ∧
                SubTask.description t' = "Task " +:+ taskId ∧
                SubTask.completed t' = completed) ∧
         ((∃ t, t ∈ default [] (Milestone.subTasks m) ∧ SubTask.taskId t = taskId) →
          length sts' = length (default [] (Milestone.subTasks m)))) ∧
    (∃ m' sts' t',
       m' ∈ ms' ∧ Milestone.stepId m' = stepId ∧
       Milestone.subTasks m' = Some sts' ∧
       t' ∈ sts' ∧ SubTask.taskId t' = taskId).
Proof.
  intros Hi Hid. split_and!.
  - apply ensure_milestone_absent.
  - intros m _ _ Habs.
    destruct (ensure_subtask_cases taskId (Milestone.subTasks m))
      as [[_ (t & Ht & Htid)]|[-> _]]; [by destruct (Habs t) | done].
  - destruct (update_subtask_hit state repId stepId taskId completed w i rep Hi Hid)
      as (rep' & ms' & Hi' & _ & Hms' & Hrel & _).
    destruct (update_subtask_target state repId stepId taskId completed w i rep Hi Hid)
      as (rep'' & ms'' & Hi'' & Hms'' & Hex & _).
    assert (ms'' = ms') as -> by congruence.
    exists rep', ms'. split_and!; try done.
    + intros Habs. rewrite (ensure_milestone_absent _ _ Habs) in Hrel.
      apply Forall2_app_inv_l in Hrel as (k1 & k2 & Hold & Hnew & ->).
      apply Forall2_cons_inv_l in Hnew as (m' & k & Hm' & ->%Forall2_nil_inv_l & ->).
      apply Forall2_unchanged in Hold; last first.
      { intros x y Hx (_ & _ & Hmiss & _). apply Hmiss. by apply Habs. }
      subst k1.
      destruct (placeholder_milestone_image _ _ _ _ _ _ _ Hm')
        as (? & ? & _ & t' & ? & ? & ? & ?).
      by exists m', t'.
    + intros j m Hj Hsid.
      pose proof (list_elem_of_lookup_2 _ _ _ Hj) as Hm.
      rewrite (ensure_milestone_present _ _ m Hm Hsid) in Hrel.
      split; [symmetry; by eapply Forall2_length |].
      destruct (Forall2_lookup_l _ _ _ _ _ Hrel Hj)
        as (m' & Hj' & Hsid' & Htitle & _ & Hhit).
      destruct (Hhit Hsid) as (sts' & Hsts' & Htasks & _).
      exists m', sts'. split_and!; try done; [congruence | |].
      * intros Habs.
        destruct (ensure_subtask_cases taskId (Milestone.subTasks m))
          as [[_ (t & Ht & Htid)]|[Heq _]]; [by destruct (Habs t) |].
        rewrite Heq in Htasks.
        apply Forall2_app_inv_l in Htasks as (k1 & k2 & Hold & Hnew & ->).
        apply Forall2_cons_inv_l in Hnew
          as (t' & k & Ht' & ->%Forall2_nil_inv_l & ->).
        apply Forall2_unchanged in Hold; last first.
        { intros x y Hx (_ & _ & Hmiss & _). apply Hmiss. by apply Habs. }
        subst k1. destruct Ht' as (Htid & Hdesc & _ & Hflag).
        destruct (Hflag eq_refl) as (Hc & _).
        by exists t'.
      * intros (t & Ht & Htid).
        destruct (ensure_subtask_cases taskId (Milestone.subTasks m))
          as [[Heq _]|[_ Habs]]; [| by destruct (Habs t)].
        rewrite Heq in Htasks. symmetry. by eapply Forall2_length.
Qed.

(** C5. In an Update subtask dispatch that targets a rep of the list, a
    milestone with the step id comes out completed exactly when the value
    passed is true and every subtask of it with another task id was
    completed.  When it was not completed and comes out completed it is
    stamped: completedAt is the instant of a clock read of this dispatch and
    completedBy the id of the signed-in user (unset when nobody is signed
    in); this covers the milestone synthesized by the dispatch, which comes
    out completed exactly when the value passed is true.  A milestone that
    was already completed keeps both stamps as they were, and so does one
    that comes out not completed. *)
Theorem C5_milestone_stamped_on_transition_only
    state repId stepId taskId completed w (i : nat) rep :
  reps state !! i = Some rep →
  Rep.id rep = repId →
  ∃ rep' ms',
    reps (appReducer state (UPDATE_SUBTASK repId stepId taskId completed) w).1 !! i
      = Some rep' ∧
    Rep.milestones rep' = Some ms' ∧
    (∀ j m, default [] (Rep.milestones rep) !! j = Some m →
            Milestone.stepId m = stepId →
       ∃ m',
         ms' !! j = Some m' ∧
         Milestone.stepId m' = stepId ∧
         (Milestone.completed m' = true ↔
          completed = true ∧
          ∀ t, t ∈ default [] (Milestone.subTasks m) →
               SubTask.taskId t ≠ taskId → SubTask.completed t = true) ∧
         (Milestone.completed m = false → Milestone.completed m' = true →
            stamped_in w
              (appReducer state (UPDATE_SUBTASK repId stepId taskId completed) w).2
              (Milestone.completedAt m') ∧
            Milestone.completedBy m' = AppUser.id <$> currentUser state) ∧
         (Milestone.completed m = true →
            Milestone.completedAt m' = Milestone.completedAt m ∧
            Milestone.completedBy m' = Milestone.completedBy m) ∧
         (Milestone.completed m' = false →
            Milestone.completedAt m' = Milestone.completedAt m ∧
            Milestone.completedBy m' = Milestone.completedBy m)) ∧
    ((∀ m, m ∈ default [] (Rep.milestones rep) → Milestone.stepId m ≠ stepId) →
     ∃ m',
       ms' !! length (default [] (Rep.milestones rep)) = Some m' ∧
       Milestone.stepId m' = stepId ∧
       (Milestone.completed m' = true ↔ completed = true) ∧
       (Milestone.completed m' = true →
          stamped_in w
            (appReducer state (UPDATE_SUBTASK repId stepId taskId completed) w).2
            (Milestone.completedAt m') ∧
          Milestone.completedBy m' = AppUser.id <$> currentUser state) ∧
       (Milestone.completed m' = false →
          Milestone.completedAt m' = None ∧ Milestone.completedBy m' = None)).
Proof.
  intros Hi Hid.
  destruct (update_subtask_hit state repId stepId taskId completed w i rep Hi Hid)
    as (rep' & ms' & Hi' & _ & Hms' & Hrel & _).
  exists rep', ms'. split_and!; try done.
  - intros j m Hj Hsid.
    apply (ensure_milestone_lookup stepId) in Hj.
    destruct (Forall2_lookup_l _ _ _ _ _ Hrel Hj)
      as (m' & Hj' & Hsid' & _ & _ & Hhit).
    destruct (Hhit Hsid) as (sts' & _ & Hsts & Hdone & Hstamp & Hkeep).
    exists m'. split_and!; [done | congruence | | done | |].
    + rewrite Hdone. by eapply subtasks_all_completed_iff.
    + intros Hwas. apply Hkeep. intros [? _]. congruence.
    + intros Hnot. apply Hkeep. intros [_ ?]. congruence.
  - intros Habs. rewrite (ensure_milestone_absent _ _ Habs) in Hrel.
    destruct (Forall2_lookup_l _ _ _ _ _ Hrel
                (list_lookup_middle _ [] (placeholder_milestone stepId) _ eq_refl))
      as (m' & Hj' & Hm').
    destruct (placeholder_milestone_image _ _ _ _ _ _ _ Hm')
      as (Hsid' & _ & Hdone & _).
    destruct Hm' as (_ & _ & _ & Hhit).
    destruct (Hhit eq_refl) as (sts' & _ & _ & _ & Hstamp & Hkeep).
    exists m'. split_and!; [done | done | by rewrite Hdone | |].
    + intros Hnow. by apply Hstamp.
    + intros Hnot. apply Hkeep. intros [_ ?]. congruence.
Qed.

(** C6. An Update subtask dispatch whose rep id matches no rep of the list
    returns a state (the reducer is a total function: nothing is raised) in
    which the rep list is the one it was given; nothing but the selection
    differs from the state before, and the clock is not read. *)
Theorem C6_unknown_rep_leaves_reps_unchanged
    state repId stepId taskId completed w :
  (∀ r, r ∈ reps state → Rep.id r ≠ repId) →
  ∃ state',
    appReducer state (UPDATE_SUBTASK repId stepId taskId completed) w = (state', w) ∧
    reps state' = reps state ∧
    (∀ i r, reps state !! i = Some r → reps state' !! i = Some r) ∧
    isAuthenticated state' = isAuthenticated state ∧
    currentUser state' = currentUser state ∧
    userRole state' = userRole state ∧
    trainers state' = trainers state ∧
    auditLogs state' = auditLogs state.
Proof.
  intros Hmiss. simpl. unfold update_subtask.
  rewrite Ambient_bind_run, (update_reps_miss _ _ _ _ _ _ Hmiss). simpl.
  eexists. split; [reflexivity |]. by split_and!.
Qed.


(** C8. Build default milestone: a step id without a catalog entry gives
    "not found"; a step id with an entry gives the milestone built from the
    first such entry: its title, one subtask for each subtask definition, in
    the order of the catalog, with the same task id and description, and
    nothing completed. *)
Theorem C8_default_milestone_from_catalog (checklistSteps : list StepDef.t) stepId :
  ((∀ step, step ∈ checklistSteps → StepDef.stepId step ≠ stepId) →
   createMilestoneFromStep checklistSteps stepId = None) ∧
  ((∃ step, step ∈ checklistSteps ∧ StepDef.stepId step = stepId) →
   ∃ (k : nat) step m sts,
     checklistSteps !! k = Some step ∧
     StepDef.stepId step = stepId ∧
     (∀ (k' : nat) other, (k' < k)%nat → checklistSteps !! k' = Some other →
                          StepDef.stepId other ≠ stepId) ∧
     createMilestoneFromStep checklistSteps stepId = Some m ∧
     Milestone.stepId m = stepId ∧
     Milestone.title m = StepDef.title step ∧
     Milestone.completed m = false ∧
     Milestone.completedAt m = None ∧
     Milestone.completedBy m = None ∧
     Milestone.subTasks m = Some sts ∧
     length sts = length (StepDef.subTasks step) ∧
     (∀ (n : nat) task, StepDef.subTasks step !! n = Some task →
        ∃ st, sts !! n = Some st ∧
              SubTask.taskId st = StepDef.taskId task ∧
              SubTask.description st = StepDef.description task ∧
              SubTask.completed st = false) ∧
     (∀ st, st ∈ sts → SubTask.completed st = false)).
Proof.
  unfold createMilestoneFromStep, getStepById. split.
  - intros Habs.
    by rewrite (proj2 (find_bool_decide_None
                         (λ step, StepDef.stepId step = stepId) _) Habs).
  - intros Hex.
    destruct (find_bool_decide_first (λ step, StepDef.stepId step = stepId) _ Hex)
      as (k & step & -> & Hk & Hsid & Hfirst).
    eexists k, step, _, _. split_and!; try done.
    + by rewrite length_fmap.
    + intros n task Hn. rewrite list_lookup_fmap, Hn. by eexists.
    + intros st (task & -> & _)%list_elem_of_fmap. done.
Qed.

(** C9. Add audit log puts one new record in front of the log: its id and
    its timestamp are the instants of the two clock reads of the dispatch
    and its fields are the payload; the log is one longer and every entry
    that was there follows, unchanged and in the same order.  No action
    removes or changes an entry: the log before is always a suffix of the
    log after. *)
Theorem C9_audit_log_prepended state payload w :
  (∃ newLog,
     auditLogs (appReducer state (ADD_AUDIT_LOG payload) w).1
       = newLog :: auditLogs state ∧
     auditLogs (appReducer state (ADD_AUDIT_LOG payload) w).1 !! 0%nat = Some newLog ∧
     AuditLog.id newLog = clock (reads w) ∧
     AuditLog.timestamp newLog = clock (S (reads w)) ∧
     reads (appReducer state (ADD_AUDIT_LOG payload) w).2 = S (S (reads w)) ∧
     AuditLog.fields newLog = payload ∧
     length (auditLogs (appReducer state (ADD_AUDIT_LOG payload) w).1)
       = S (length (auditLogs state)) ∧
     (∀ (j : nat) log, auditLogs state !! j = Some log →
        auditLogs (appReducer state (ADD_AUDIT_LOG payload) w).1 !! S j = Some log)) ∧
  (∀ action, auditLogs state `suffix_of` auditLogs (appReducer state action w).1).
Proof.
  split.
  - eexists. simpl. split_and!; done.
  - intros action. destruct action; simpl; try unfold update_subtask;
      rewrite ?Ambient_bind_run; simpl; try done.
    by apply suffix_cons_r.
Qed.

(** C10. An Update subtask dispatch whose rep id is the id of the selected
    rep but of no rep of the list clears the selection, while the rep list
    stays as it was. *)
Theorem C10_selection_cleared_when_rep_not_listed
    state repId stepId taskId completed w sel :
  selectedRep state = Some sel →
  Rep.id sel = repId →
  (∀ r, r ∈ reps state → Rep.id r ≠ repId) →
  selectedRep (appReducer state (UPDATE_SUBTASK repId stepId taskId completed) w).1
    = None ∧
  reps (appReducer state (UPDATE_SUBTASK repId stepId taskId completed) w).1
    = reps state.
Proof.
  intros Hsel Hid Hmiss. simpl. unfold update_subtask.
  rewrite Ambient_bind_run, (update_reps_miss _ _ _ _ _ _ Hmiss). simpl.
  split; [| done].
  rewrite Hsel. simpl. rewrite Hid. rewrite decide_True by done.
  by apply (find_bool_decide_None (λ r, Rep.id r = repId)).
Qed.

End Claims.

(** ** Further properties of the code *)

Section More_cascade.

Context {env : Environment}.

Lemma Forall2_fmap_same {A B} (R : A → A → Prop) (f : A → B) (l k : list A) :
  Forall2 R l k → (∀ x y, x ∈ l → R x y → f y = f x) → f <$> k = f <$> l.
Proof.
  induction 1 as [|x y l k HR _ IH]; intros Hsame; [done |].
  rewrite !fmap_cons, (Hsame x y) by (done || left). f_equal.
  apply IH. intros x' y' Hx'. apply Hsame. by right.
Qed.

Lemma ensure_subtask_lookup tid sts k t :
  default [] sts !! k = Some t → ensure_subtask tid sts !! k = Some t.
Proof.
  intros Hk.
  destruct (ensure_subtask_cases tid sts) as [[-> _]|[-> _]]; [done |].
  by apply lookup_app_l_Some.
Qed.

(** A property of a rep that one dispatch keeps is kept along a run. *)
Lemma toggles_preserve (P : Rep.t → Prop) :
  (∀ uid rid sid tid c w w' r r',
     rep_rel uid rid sid tid c w w' r r' → P r → P r') →
  ∀ rid l state w (i : nat) r,
    reps state !! i = Some r → P r →
    ∃ r', reps (dispatch_all (toggles rid l) state w).1 !! i = Some r' ∧
          Rep.id r' = Rep.id r ∧ P r'.
Proof.
  intros Hstep rid l.
  induction l as [|[[sid tid] c] l IH]; intros state w i r Hi HP.
  - exists r. by split_and!.
  - simpl. rewrite Ambient_bind_run.
    destruct (update_subtask_lookup state rid sid tid c w i r Hi)
      as (r1 & Hi1 & Hrel).
    simpl in Hi1.
    destruct (IH _ (update_subtask state rid sid tid c w).2 i r1 Hi1
                (Hstep _ _ _ _ _ _ _ _ _ Hrel HP)) as (r2 & Hi2 & Hid2 & HP2).
    exists r2. split_and!; [done | | done].
    destruct Hrel as (Hid1 & _). congruence.
Qed.

Lemma rep_rel_step_ids uid rid sid tid c w w' r r' ms' :
  rep_rel uid rid sid tid c w w' r r' → Rep.id r = rid →
  Rep.milestones r' = Some ms' →
  Forall2 (milestone_rel uid sid tid c w w')
    (ensure_milestone sid (Rep.milestones r)) ms'.
Proof.
  intros (_ & _ & _ & _ & Hhit) Hid Hms'.
  destruct (Hhit Hid) as (ms'' & Hms'' & Hrel & _). congruence.
Qed.

Lemma milestone_rel_stepIds uid sid tid c w w' l ms' :
  Forall2 (milestone_rel uid sid tid c w w') l ms' →
  Milestone.stepId <$> ms' = Milestone.stepId <$> l.
Proof.
  intros Hrel. eapply Forall2_fmap_same; [exact Hrel |].
  by intros x y _ (? & _).
Qed.

Lemma task_rel_taskIds uid tid c w w' l sts' :
  Forall2 (task_rel uid tid c w w') l sts' →
  SubTask.taskId <$> sts' = SubTask.taskId <$> l.
Proof.
  intros Hrel. eapply Forall2_fmap_same; [exact Hrel |].
  by intros x y _ (? & _).
Qed.

Lemma ensure_milestone_NoDup sid ms :
  NoDup (Milestone.stepId <$> default [] ms) →
  NoDup (Milestone.stepId <$> ensure_milestone sid ms).
Proof.
  intros Hnd. destruct (ensure_milestone_cases sid ms) as [[-> _]|[-> Habs]];
    [done |].
  rewrite fmap_app. apply NoDup_app. split_and!; [done | | apply NoDup_singleton].
  intros x (m & -> & Hm)%list_elem_of_fmap Heq%list_elem_of_singleton.
  by apply (Habs m).
Qed.

Lemma ensure_subtask_NoDup tid sts :
  NoDup (SubTask.taskId <$> default [] sts) →
  NoDup (SubTask.taskId <$> ensure_subtask tid sts).
Proof.
  intros Hnd. destruct (ensure_subtask_cases tid sts) as [[-> _]|[-> Habs]];
    [done |].
  rewrite fmap_app. apply NoDup_app. split_and!; [done | | apply NoDup_singleton].
  intros x (t & -> & Ht)%list_elem_of_fmap Heq%list_elem_of_singleton.
  by apply (Habs t).
Qed.

(** What a milestone of the rep returned comes from. *)
Lemma rep_rel_milestone_origin uid rid sid tid c w w' r r' m' :
  rep_rel uid rid sid tid c w w' r r' → Rep.id r = rid →
  m' ∈ default [] (Rep.milestones r') →
  (Milestone.stepId m' ≠ sid ∧ m' ∈ default [] (Rep.milestones r)) ∨
  (Milestone.stepId m' = sid ∧
   ∃ m sts',
     (m ∈ default [] (Rep.milestones r) ∨ m = placeholder_milestone sid) ∧
     Milestone.stepId m = sid ∧
     Milestone.subTasks m' = Some sts' ∧
     Forall2 (task_rel uid tid c w w')
       (ensure_subtask tid (Milestone.subTasks m)) sts' ∧
     Milestone.completed m' = forallb SubTask.completed sts').
Proof.
  intros Hrel Hid Hm'.
  destruct Hrel as (_ & _ & _ & _ & Hhit).
  destruct (Hhit Hid) as (ms' & Hms' & Hms & _).
  rewrite Hms' in Hm'. simpl in Hm'.
  apply list_elem_of_lookup in Hm' as [j Hj'].
  destruct (Forall2_lookup_r _ _ _ _ _ Hms Hj')
    as (m & Hm%list_elem_of_lookup_2 & Hsid & _ & Hmiss & Hmhit).
  apply ensure_milestone_elem in Hm.
  destruct (decide (Milestone.stepId m = sid)) as [Heq|Hne].
  - right. split; [congruence |].
    destruct (Hmhit Heq) as (sts' & ? & ? & ? & _).
    by exists m, sts'.
  - left. rewrite (Hmiss Hne). split; [done |].
    by destruct Hm as [?| ->].
Qed.

Lemma unique_ids_step uid rid sid tid c w w' r r' :
  rep_rel uid rid sid tid c w w' r r' → unique_ids r → unique_ids r'.
Proof.
  intros Hrel [Hsteps Htasks].
  destruct (decide (Rep.id r = rid)) as [Hid|Hne]; last first.
  { destruct Hrel as (_ & _ & _ & Hmiss & _). by rewrite (Hmiss Hne). }
  pose proof Hrel as (_ & _ & _ & _ & Hhit).
  destruct (Hhit Hid) as (ms' & Hms' & Hms & _).
  split.
  - rewrite Hms'. simpl. rewrite (milestone_rel_stepIds _ _ _ _ _ _ _ _ Hms).
    by apply ensure_milestone_NoDup.
  - intros m' Hm'.
    destruct (rep_rel_milestone_origin _ _ _ _ _ _ _ _ _ _ Hrel Hid Hm')
      as [[_ Hold]|(_ & m & sts' & Hm & _ & -> & Hsts & _)]; [by apply Htasks |].
    simpl. rewrite (task_rel_taskIds _ _ _ _ _ _ _ Hsts).
    apply ensure_subtask_NoDup.
    destruct Hm as [Hm| ->]; [by apply Htasks | simpl; constructor].
Qed.


Lemma stamps_agree_step uid rid sid tid c w w' r r' :
  rep_rel uid rid sid tid c w w' r r' → stamps_agree r → stamps_agree r'.
Proof.
  intros Hrel Hst.
  destruct (decide (Rep.id r = rid)) as [Hid|Hne]; last first.
  { destruct Hrel as (_ & _ & _ & Hmiss & _). by rewrite (Hmiss Hne). }
  intros m' t' Hm' Ht'.
  destruct (rep_rel_milestone_origin _ _ _ _ _ _ _ _ _ _ Hrel Hid Hm')
    as [[_ Hold]|(_ & m & sts' & Hm & _ & Hsts' & Hsts & _)]; [by eapply Hst |].
  rewrite Hsts' in Ht'. simpl in Ht'.
  apply list_elem_of_lookup in Ht' as [k Hk'].
  destruct (Forall2_lookup_r _ _ _ _ _ Hsts Hk')
    as (t & Ht%list_elem_of_lookup_2 & _ & _ & Hmiss & Hhit).
  destruct (decide (SubTask.taskId t = tid)) as [Heq|Hne].
  - destruct (Hhit Heq) as (Hc & Htrue & Hfalse). rewrite Hc. destruct c.
    + destruct (Htrue eq_refl) as [(x & _ & ->) _]. by split.
    + destruct (Hfalse eq_refl) as [-> _]. split; [done |]. by intros [? ?].
  - rewrite (Hmiss Hne).
    apply ensure_subtask_elem in Ht as [Ht| ->]; [| done].
    destruct Hm as [Hm| ->]; [by eapply Hst | by apply elem_of_nil in Ht].
Qed.

(** X2. Unique ids are kept: when the step ids of a rep are pairwise
    different and so are the task ids under each of its milestones, the same
    holds after any run of Update subtask dispatches, which push a
    placeholder only when [find] has found no entry with the id. *)
Theorem X2_toggles_keep_ids_unique
    state repId (l : list (Z * string * bool)) w (i : nat) r :
  reps state !! i = Some r →
  unique_ids r →
  ∃ r', reps (dispatch_all (toggles repId l) state w).1 !! i = Some r' ∧
        Rep.id r' = Rep.id r ∧
        unique_ids r'.
Proof. apply toggles_preserve. apply unique_ids_step. Qed.


(** X4. Subtask stamps follow the flag: when every subtask of a rep has a
    completedAt stamp exactly when it is completed, the same holds after any
    run of Update subtask dispatches (a toggle to true stamps, a toggle to
    false clears, a placeholder has neither). *)
Theorem X4_toggles_keep_subtask_stamps
    state repId (l : list (Z * string * bool)) w (i : nat) r :
  reps state !! i = Some r →
  stamps_agree r →
  ∃ r', reps (dispatch_all (toggles repId l) state w).1 !! i = Some r' ∧
        Rep.id r' = Rep.id r ∧
        stamps_agree r'.
Proof. apply toggles_preserve. apply stamps_agree_step. Qed.

Lemma forallb_fmap_eq {A} (f : A → bool) (l k : list A) :
  f <$> l = f <$> k → forallb f l = forallb f k.
Proof.
  revert k. induction l as [|x l IH]; intros [|y k] Heq; try done.
  rewrite !fmap_cons in Heq. injection Heq as Hxy Hlk.
  simpl. by rewrite Hxy, (IH k Hlk).
Qed.

Lemma filter_length_fmap_eq {A} (f : A → bool) (l k : list A) :
  f <$> l = f <$> k → length (List.filter f l) = length (List.filter f k).
Proof.
  revert k. induction l as [|x l IH]; intros [|y k] Heq; try done.
  rewrite !fmap_cons in Heq. injection Heq as Hxy Hlk.
  simpl. rewrite Hxy. destruct (f y); simpl; by rewrite (IH k Hlk).
Qed.

Lemma rep_rel_settled uid rid sid tid c w w' r x :
  rep_rel uid rid sid tid c w w' r x → settled rid sid tid c x.
Proof.
  intros (Hid & _ & _ & _ & Hhit) Hx.
  destruct (Hhit ltac:(congruence)) as (ms & Hms & Hrel & Hstage & _).
  destruct (milestones_image _ _ _ _ _ _ _ _ Hrel) as [Hex Hall].
  exists ms. split_and!; [done | done | | lia].
  intros m Hm Hsid.
  destruct (Hall m Hm Hsid) as (m0 & sts & _ & _ & Hsts & Htasks & Hdone).
  destruct (subtasks_image _ _ _ _ _ _ _ Htasks) as [Hext Hflag].
  exists sts. split_and!; try done.
  intros t Ht Htid. by apply Hflag.
Qed.

Lemma erase_task_eq t t' :
  SubTask.taskId t' = SubTask.taskId t →
  SubTask.description t' = SubTask.description t →
  SubTask.completed t' = SubTask.completed t →
  erase_task t' = erase_task t.
Proof. unfold erase_task. by intros -> -> ->. Qed.

Lemma settled_again uid rid sid tid c w w' x y :
  settled rid sid tid c x → rep_rel uid rid sid tid c w w' x y →
  erase_rep y = erase_rep x.
Proof.
  intros Hset (Hid & Hcreated & Hfields & Hmiss & Hhit).
  destruct (decide (Rep.id x = rid)) as [Hx|Hne]; [| by rewrite (Hmiss Hne)].
  destruct (Hset Hx) as (ms & Hms & (m0 & Hm0 & Hsid0) & Hall & Hstage).
  destruct (Hhit Hx) as (ms' & Hms' & Hrel & Hstage' & _).
  rewrite Hms in Hrel.
  rewrite (ensure_milestone_present sid (Some ms) m0 Hm0 Hsid0) in Hrel.
  simpl in Hrel.
  assert (erase_milestone <$> ms' = erase_milestone <$> ms) as Hers.
  { eapply Forall2_fmap_same; [exact Hrel |].
    intros m m' Hm (Hsid & Htitle & Hmmiss & Hmhit).
    destruct (decide (Milestone.stepId m = sid)) as [Heq|Hneq];
      [| by rewrite (Hmmiss Hneq)].
    destruct (Hall m Hm Heq) as (sts & Hsts & (t0 & Ht0 & Htid0) & Hflag & Hdone).
    destruct (Hmhit Heq) as (sts' & Hsts' & Htasks & Hdone' & _).
    rewrite Hsts in Htasks.
    assert (ensure_subtask tid (Some sts) = sts) as Hens.
    { destruct (ensure_subtask_cases tid (Some sts)) as [[Heqs _]|[_ Habs]];
        [done | by destruct (Habs t0)]. }
    rewrite Hens in Htasks.
    assert (erase_task <$> sts' = erase_task <$> sts) as Hts.
    { eapply Forall2_fmap_same; [exact Htasks |].
      intros t t' Ht (Htid & Hdesc & Htmiss & Hthit).
      destruct (decide (SubTask.taskId t = tid)) as [Heqt|Hnet];
        [| by rewrite (Htmiss Hnet)].
      apply erase_task_eq; [done | done |].
      destruct (Hthit Heqt) as (-> & _). symmetry. by apply Hflag. }
    assert (SubTask.completed <$> sts' = SubTask.completed <$> sts) as Hcs.
    { apply (f_equal (fmap SubTask.completed)) in Hts.
      by rewrite <- !list_fmap_compose in Hts. }
    unfold erase_milestone. rewrite Hsid, Htitle, Hsts, Hsts', Hdone, Hdone'.
    simpl. by rewrite Hts, (forallb_fmap_eq _ _ _ Hcs). }
  assert (Milestone.completed <$> ms' = Milestone.completed <$> ms) as Hcm.
  { apply (f_equal (fmap Milestone.completed)) in Hers.
    by rewrite <- !list_fmap_compose in Hers. }
  unfold erase_rep. rewrite Hid, Hcreated, Hfields, Hms, Hms', Hstage'.
  simpl. rewrite Hers, (filter_length_fmap_eq _ _ _ Hcm). f_equal. lia.
Qed.


(** X6. A rep without milestones (the list is empty or is not an array):
    an Update subtask dispatch on it returns exactly one milestone, the
    placeholder of the step, with exactly one subtask, the placeholder of
    the task carrying the value passed; the milestone is completed exactly
    when the value is true, and the stage becomes max(stage before, 2) when
    the value is true and max(stage before, 1) when it is false. *)
Theorem X6_first_toggle_on_a_bare_rep
    state repId stepId taskId completed w (i : nat) r :
  reps state !! i = Some r →
  Rep.id r = repId →
  default [] (Rep.milestones r) = [] →
  ∃ r' m' t',
    reps (appReducer state (UPDATE_SUBTASK repId stepId taskId completed) w).1 !! i
      = Some r' ∧
    Rep.milestones r' = Some [m'] ∧
    Milestone.stepId m' = stepId ∧
    Milestone.title m' = "Step " +:+ pretty stepId ∧
    Milestone.completed m' = completed ∧
    Milestone.subTasks m' = Some [t'] ∧
    SubTask.taskId t' = taskId ∧
    SubTask.description t' = "Task " +:+ taskId ∧
    SubTask.completed t' = completed ∧
    Rep.stage r' = Z.max (Rep.stage r) (if completed then 2 else 1).
Proof.
  intros Hi Hid Hbare.
  destruct (update_subtask_hit state repId stepId taskId completed w i r Hi Hid)
    as (r' & ms' & Hi' & _ & Hms' & Hrel & Hstage & _).
  rewrite ensure_milestone_absent in Hrel; last first.
  { rewrite Hbare. intros m Hm. by apply elem_of_nil in Hm. }
  rewrite Hbare in Hrel. simpl in Hrel.
  apply Forall2_cons_inv_l in Hrel as (m' & k & Hm' & ->%Forall2_nil_inv_l & ->).
  destruct (placeholder_milestone_image _ _ _ _ _ _ _ Hm')
    as (? & ? & Hdone & t' & ? & ? & ? & ?).
  exists r', m', t'. split_and!; try done.
  rewrite Hstage. simpl. rewrite Hdone. by destruct completed.
Qed.

(** X7. Dispatching the same Update subtask twice in a row gives the reps
    that dispatching it once gives, up to what is read from the clock and
    the signed-in user: the completedAt and completedBy stamps and
    updatedAt.  Nothing is synthesized, no flag and no stage changes. *)
Theorem X7_repeated_toggle_changes_only_stamps
    state repId stepId taskId completed w :
  erase_rep <$>
    reps (dispatch_all
            [UPDATE_SUBTASK repId stepId taskId completed;
             UPDATE_SUBTASK repId stepId taskId completed] state w).1
  = erase_rep <$>
    reps (dispatch_all [UPDATE_SUBTASK repId stepId taskId completed] state w).1.
Proof.
  change [UPDATE_SUBTASK repId stepId taskId completed;
          UPDATE_SUBTASK repId stepId taskId completed]
    with ([UPDATE_SUBTASK repId stepId taskId completed]
          ++ [UPDATE_SUBTASK repId stepId taskId completed]).
  rewrite dispatch_all_app, !dispatch_all_one.
  set (a := appReducer state (UPDATE_SUBTASK repId stepId taskId completed) w).
  destruct (update_subtask_spec state repId stepId taskId completed w)
    as (_ & Hreps & _).
  destruct (update_subtask_spec a.1 repId stepId taskId completed a.2)
    as (_ & Hreps' & _).
  cbv zeta in Hreps, Hreps'. fold a in Hreps.
  eapply Forall2_fmap_same; [exact Hreps' |].
  intros x y [j Hj]%list_elem_of_lookup Hxy.
  destruct (Forall2_lookup_r _ _ _ _ _ Hreps Hj) as (r & _ & Hrx).
  eapply settled_again; [| exact Hxy]. by eapply rep_rel_settled.
Qed.

Lemma stage_in_range_step uid rid sid tid c w w' r r' :
  rep_rel uid rid sid tid c w w' r r' → stage_in_range r → stage_in_range r'.
Proof.
  intros (_ & _ & _ & Hmiss & Hhit) [Hlow Hhigh].
  destruct (decide (Rep.id r = rid)) as [Hid|Hne]; [| by rewrite (Hmiss Hne)].
  destruct (Hhit Hid) as (ms' & Hms' & Hrel & Hstage & _).
  unfold stage_in_range. rewrite Hms', Hstage. simpl.
  pose proof (List.filter_length_le Milestone.completed ms') as Hcount.
  assert (length (default [] (Rep.milestones r)) ≤ length ms')%nat as Hgrow.
  { rewrite <- (Forall2_length _ _ _ Hrel).
    destruct (ensure_milestone_cases sid (Rep.milestones r)) as [[-> _]|[-> _]];
      [done |].
    rewrite length_app. lia. }
  lia.
Qed.

(** X17. The stage stays in range: when the stage of a rep is at least one
    more than the number of its completed milestones and at most one more
    than the number of its milestones (as for a rep at stage 1 without
    milestones), the same holds after any run of Update subtask
    dispatches. *)
Theorem X17_toggles_keep_stage_in_range
    state repId (l : list (Z * string * bool)) w (i : nat) r :
  reps state !! i = Some r →
  stage_in_range r →
  ∃ r', reps (dispatch_all (toggles repId l) state w).1 !! i = Some r' ∧
        Rep.id r' = Rep.id r ∧
        stage_in_range r'.
Proof. apply toggles_preserve. apply stage_in_range_step. Qed.

(** X19. What an Update subtask dispatch returns for its target keeps what
    was there: the rep list keeps its ids in their order, and in a rep with
    the id, createdAt and the domain fields are kept, every milestone that
    was there keeps its place, step id and title, and in a milestone with
    the step id every subtask that was there keeps its place, task id and
    description, a subtask with another task id being returned as it is. *)
Theorem X19_toggle_keeps_what_was_there
    state repId stepId taskId completed w :
  Rep.id <$> reps (appReducer state (UPDATE_SUBTASK repId stepId taskId completed) w).1
    = Rep.id <$> reps state ∧
  (∀ (i : nat) r, reps state !! i = Some r → Rep.id r = repId →
     ∃ r' ms',
       reps (appReducer state (UPDATE_SUBTASK repId stepId taskId completed) w).1 !! i
         = Some r' ∧
       Rep.createdAt r' = Rep.createdAt r ∧
       Rep.fields r' = Rep.fields r ∧
       Rep.milestones r' = Some ms' ∧
       ∀ (j : nat) m, default [] (Rep.milestones r) !! j = Some m →
         ∃ m',
           ms' !! j = Some m' ∧
           Milestone.stepId m' = Milestone.stepId m ∧
           Milestone.title m' = Milestone.title m ∧
           (Milestone.stepId m = stepId →
              ∃ sts',
                Milestone.subTasks m' = Some sts' ∧
                ∀ (k : nat) t, default [] (Milestone.subTasks m) !! k = Some t →
                  ∃ t',
                    sts' !! k = Some t' ∧
                    SubTask.taskId t' = SubTask.taskId t ∧
                    SubTask.description t' = SubTask.description t ∧
                    (SubTask.taskId t ≠ taskId → t' = t))).
Proof.
  destruct (update_subtask_spec state repId stepId taskId completed w)
    as (_ & Hreps & _).
  cbv zeta in Hreps. split.
  - eapply Forall2_fmap_same; [exact Hreps |]. by intros x y _ (? & _).
  - intros i r Hi Hid.
    destruct (Forall2_lookup_l _ _ _ _ _ Hreps Hi)
      as (r' & Hi' & _ & Hcreated & Hfields & _ & Hhit).
    destruct (Hhit Hid) as (ms' & Hms' & Hms & _).
    exists r', ms'. split_and!; try done.
    intros j m Hj. apply (ensure_milestone_lookup stepId) in Hj.
    destruct (Forall2_lookup_l _ _ _ _ _ Hms Hj)
      as (m' & Hj' & Hsid & Htitle & Hmmiss & Hmhit).
    exists m'. split_and!; try done.
    intros Heq. destruct (Hmhit Heq) as (sts' & Hsts' & Hsts & _).
    exists sts'. split; [done |].
    intros k t Hk. apply (ensure_subtask_lookup taskId) in Hk.
    destruct (Forall2_lookup_l _ _ _ _ _ Hsts Hk) as (t' & Hk' & ? & ? & ? & _).
    by exists t'.
Qed.

End More_cascade.

(** *** The cascade on a store *)

Lemma Mut_bind_run {A B} (f : A → Mut B) (m : Mut A) s :
  (m ≫= f) s = f (m s).1 (m s).2.
Proof. unfold mbind, Mut_bind. by destruct (m s). Qed.

Lemma Mut_fmap_run {A B} (f : A → B) (m : Mut A) s :
  (f <$> m) s = (f (m s).1, (m s).2).
Proof. unfold fmap, Mut_fmap. by destruct (m s). Qed.

Lemma mapM_Mut_cons {A B} (f : A → Mut B) x l s :
  mapM f (x :: l) s =
  ((f x s).1 :: (mapM f l (f x s).2).1, (mapM f l (f x s).2).2).
Proof.
  change (mapM f (x :: l)) with (y ← f x; k ← mapM f l; mret (y :: k)).
  by rewrite !Mut_bind_run.
Qed.

Lemma lift_heap {A} (m : Ambient A) s : heap (lift m s).2 = heap s.
Proof. unfold lift. by destruct (m (world s)). Qed.

Section Store_frame.

Context {env : Environment}.
Variable P : Region.

Lemma spares_refl h : spares P h h.
Proof. by split_and!. Qed.

Lemma spares_trans h1 h2 h3 : spares P h1 h2 → spares P h2 h3 → spares P h1 h3.
Proof.
  intros (Ka & Ko & Kt & Da & Do & Dt & Sa & So)
         (Ka' & Ko' & Kt' & Da' & Do' & Dt' & Sa' & So').
  split_and!.
  - intros a Ha. by rewrite Ka', Ka.
  - intros o Ho. by rewrite Ko', Ko.
  - intros t Ht. by rewrite Kt', Kt.
  - by etrans.
  - by etrans.
  - by etrans.
  - intros a Ha. by apply Sa', Sa.
  - intros o Ho. by apply So', So.
Qed.

Lemma allocated_spares h h' : allocated P h → spares P h h' → allocated P h'.
Proof.
  intros (Aa & Ao & At) (_ & _ & _ & Da & Do & Dt & _).
  split_and!; intros x Hx; [apply Da, Aa | apply Do, Ao | apply Dt, At]; done.
Qed.

Lemma safe_array_spares h h' a :
  safe_array P h a → spares P h h' → safe_array P h' a.
Proof. intros Ha (_ & _ & _ & _ & _ & _ & Sa & _). by apply Sa. Qed.

Lemma safe_object_spares h h' o :
  safe_object P h o → spares P h h' → safe_object P h' o.
Proof. intros Ho (_ & _ & _ & _ & _ & _ & _ & So). by apply So. Qed.

(** The rules of [sparing]: results, sequences, and steps that leave the
    heap as it is. *)
Lemma sparing_ret {A} (x : A) s (Q : A → Heap → Prop) :
  Q x (heap s) → sparing P (mret x) s Q.
Proof. intros HQ. split; [apply spares_refl | exact HQ]. Qed.

Lemma sparing_bind {A B} (m : Mut A) (f : A → Mut B) s
    (R : A → Heap → Prop) (Q : B → Heap → Prop) :
  sparing P m s R →
  (∀ x s', spares P (heap s) (heap s') → R x (heap s') → sparing P (f x) s' Q) →
  sparing P (m ≫= f) s Q.
Proof.
  intros [Hsp HR] Hf. unfold sparing. rewrite Mut_bind_run.
  destruct (Hf _ _ Hsp HR) as [Hsp' HQ].
  split; [by eapply spares_trans | exact HQ].
Qed.

Lemma sparing_reads {A} (m : Mut A) s :
  heap (m s).2 = heap s → sparing P m s (λ _ h, h = heap s).
Proof. intros Heq. split; [rewrite Heq; apply spares_refl | exact Heq]. Qed.

Lemma sparing_get_milestone_array a s :
  sparing P (get_milestone_array a) s
    (λ l h, h = heap s ∧ l = milestone_arrays h !!! a).
Proof. split; [apply spares_refl | done]. Qed.

Lemma sparing_get_milestone_object o s :
  sparing P (get_milestone_object o) s
    (λ m h, h = heap s ∧ m = milestone_objects h !!! o).
Proof. split; [apply spares_refl | done]. Qed.

Lemma sparing_get_subtask_array t s :
  sparing P (get_subtask_array t) s (λ _ h, h = heap s).
Proof. split; [apply spares_refl | done]. Qed.

(** The writes and the allocations. *)
Lemma sparing_new_subtask_array l s :
  allocated P (heap s) →
  sparing P (new_subtask_array l) s (λ t _, ¬ in_subtask_arrays P t).
Proof.
  intros (_ & _ & At). unfold sparing, new_subtask_array. cbn.
  set (t := fresh (dom (subtask_arrays (heap s)))).
  assert (¬ in_subtask_arrays P t) as Hfresh.
  { intros Ht%At. by apply is_fresh in Ht. }
  split; [| done]. split_and!; try done.
  - intros t' Ht'. apply lookup_insert_ne. by intros <-.
  - cbn. apply dom_insert_subseteq.
Qed.

Lemma sparing_push_subtask t task s :
  ¬ in_subtask_arrays P t →
  sparing P (push_subtask t task) s (λ _ _, True).
Proof.
  intros Ht. unfold sparing, push_subtask. cbn. split; [| done].
  split_and!; try done.
  - intros t' Ht'. apply lookup_alter_ne. by intros <-.
  - cbn. by rewrite dom_alter_L.
Qed.

Lemma sparing_new_milestone_object m s :
  allocated P (heap s) →
  (∀ t, HMilestone.subTasks m = Some t → ¬ in_subtask_arrays P t) →
  sparing P (new_milestone_object m) s (λ o h, safe_object P h o).
Proof.
  intros (_ & Ao & _) Hm. unfold sparing, new_milestone_object. cbn.
  set (o := fresh (dom (milestone_objects (heap s)))).
  assert (¬ in_milestone_objects P o) as Hfresh.
  { intros Ho%Ao. by apply is_fresh in Ho. }
  assert (∀ o', safe_object P (heap s) o' →
                safe_object P (heap (with_milestone_objects (insert o m) s)) o')
    as Hso.
  { intros o' [Hno Hsub]. split; [done |]. cbn. intros t.
    destruct (decide (o = o')) as [<-|Hne].
    - rewrite lookup_total_insert_eq. apply Hm.
    - rewrite lookup_total_insert_ne by done. apply Hsub. }
  split.
  - split_and!; try done.
    + intros o' Ho'. apply lookup_insert_ne. by intros <-.
    + cbn. apply dom_insert_subseteq.
    + intros a [Hna Hel]. split; [done |]. intros o' Ho'. apply Hso. by apply Hel.
  - split; [done |]. cbn. intros t. rewrite lookup_total_insert_eq. apply Hm.
Qed.

Lemma sparing_set_subTasks o t s :
  ¬ in_milestone_objects P o → ¬ in_subtask_arrays P t →
  sparing P (set_subTasks o t) s (λ _ _, True).
Proof.
  intros Ho Ht. unfold sparing, set_subTasks. cbn. split; [| done].
  set (f := λ m : HMilestone.t, _).
  assert (∀ o', safe_object P (heap s) o' →
                safe_object P (heap (with_milestone_objects (alter f o) s)) o')
    as Hso.
  { intros o' [Hno Hsub]. split; [done |]. cbn. intros t'.
    rewrite lookup_total_alter. case_decide as Heq; [| apply Hsub].
    destruct (milestone_objects (heap s) !! o) as [m|] eqn:Hm; cbn.
    - by intros [= <-].
    - done. }
  split_and!; try done.
  - intros o' Ho'. apply lookup_alter_ne. by intros <-.
  - cbn. by rewrite dom_alter_L.
  - intros a [Hna Hel]. split; [done |]. intros o' Ho'. apply Hso. by apply Hel.
Qed.

Lemma sparing_new_milestone_array l s :
  allocated P (heap s) →
  (∀ o, o ∈ l → safe_object P (heap s) o) →
  sparing P (new_milestone_array l) s (λ a h, safe_array P h a).
Proof.
  intros (Aa & _ & _) Hl. unfold sparing, new_milestone_array. cbn.
  set (a := fresh (dom (milestone_arrays (heap s)))).
  assert (¬ in_milestone_arrays P a) as Hfresh.
  { intros Ha%Aa. by apply is_fresh in Ha. }
  split.
  - split_and!; try done.
    + intros a' Ha'. apply lookup_insert_ne. by intros <-.
    + cbn. apply dom_insert_subseteq.
    + intros a' [Hna Hel]. split; [done |]. cbn. intros o.
      destruct (decide (a = a')) as [<-|Hne].
      * rewrite lookup_total_insert_eq. apply Hl.
      * rewrite lookup_total_insert_ne by done. apply Hel.
  - split; [done |]. cbn. intros o. rewrite lookup_total_insert_eq. apply Hl.
Qed.

Lemma sparing_push_milestone a o s :
  safe_array P (heap s) a → safe_object P (heap s) o →
  sparing P (push_milestone a o) s (λ _ h, safe_array P h a).
Proof.
  intros [Hna Hel] Ho. unfold sparing, push_milestone. cbn.
  assert (∀ a', safe_array P (heap s) a' →
                safe_array P (heap (with_milestone_arrays
                                      (alter (λ l, l ++ [o]) a) s)) a')
    as Hsa.
  { intros a' [Hna' Hel']. split; [done |]. cbn. intros o'.
    rewrite lookup_total_alter. case_decide as Heq; [| apply Hel'].
    subst a'. destruct (milestone_arrays (heap s) !! a) as [l|] eqn:Hl; cbn.
    + intros [Hin| ->%list_elem_of_singleton]%elem_of_app; [| done].
      apply Hel'. by rewrite lookup_total_alt, Hl.
    + by intros ?%elem_of_nil. }
  split; [| by apply Hsa]. split_and!; try done.
  - intros a' Ha'. apply lookup_alter_ne. by intros <-.
  - cbn. by rewrite dom_alter_L.
Qed.

(** The cascade, phase by phase. *)
Lemma update_task_ref_heap uid tid c task s :
  heap (update_task_ref uid tid c task s).2 = heap s.
Proof.
  unfold update_task_ref. destruct (decide _); [done |].
  rewrite Mut_bind_run. destruct c; [| done].
  rewrite Mut_fmap_run. cbn [fst snd]. change (heap (lift now_iso s).2 = heap s).
  apply lift_heap.
Qed.

Lemma update_tasks_ref_heap uid tid c l s :
  heap (mapM (update_task_ref uid tid c) l s).2 = heap s.
Proof.
  revert s. induction l as [|x l IH]; intros s; [done |].
  rewrite mapM_Mut_cons. cbn [fst snd]. by rewrite IH, update_task_ref_heap.
Qed.

Lemma get_milestone_objects_heap l s :
  (mapM get_milestone_object l s).2 = s.
Proof.
  revert s. induction l as [|x l IH]; intros s; [done |].
  rewrite mapM_Mut_cons. cbn [fst snd]. apply IH.
Qed.

Lemma ensure_subTasks_ref_sparing o s :
  allocated P (heap s) → safe_object P (heap s) o →
  sparing P (ensure_subTasks_ref o) s (λ t _, ¬ in_subtask_arrays P t).
Proof.
  intros Hal [Hno Hsub]. unfold ensure_subTasks_ref.
  eapply sparing_bind; [apply sparing_get_milestone_object |].
  intros milestone s1 _ [Hs1 ->]. cbv beta. rewrite Hs1 in *.
  destruct (HMilestone.subTasks _) as [t|] eqn:Ht.
  - apply sparing_ret. by apply Hsub.
  - eapply sparing_bind; [apply sparing_new_subtask_array; congruence |].
    intros t s2 _ Hfresh. cbv beta.
    eapply sparing_bind; [by apply sparing_set_subTasks |].
    intros _ s3 _ _. cbv beta. by apply sparing_ret.
Qed.

Lemma ensure_subtask_ref_sparing tid t s :
  ¬ in_subtask_arrays P t →
  sparing P (ensure_subtask_ref tid t) s (λ _ _, True).
Proof.
  intros Ht. unfold ensure_subtask_ref.
  eapply sparing_bind; [apply sparing_get_subtask_array |].
  intros subTasks s1 _ _. cbv beta.
  destruct (find _ subTasks).
  - by apply sparing_ret.
  - by apply sparing_push_subtask.
Qed.

Lemma update_milestone_ref_sparing uid sid tid c o s :
  allocated P (heap s) → safe_object P (heap s) o →
  sparing P (update_milestone_ref uid sid tid c o) s (λ o' h, safe_object P h o').
Proof.
  intros Hal Hsafe. unfold update_milestone_ref.
  eapply sparing_bind; [apply sparing_get_milestone_object |].
  intros milestone s1 Hsp1 _. cbv beta.
  pose proof (allocated_spares _ _ Hal Hsp1) as Hal1.
  pose proof (safe_object_spares _ _ _ Hsafe Hsp1) as Hsafe1.
  destruct (decide _); [by apply sparing_ret |].
  eapply sparing_bind; [by apply ensure_subTasks_ref_sparing |].
  intros t s2 Hsp2 Ht. cbv beta.
  pose proof (allocated_spares _ _ Hal1 Hsp2) as Hal2.
  eapply sparing_bind; [by apply ensure_subtask_ref_sparing |].
  intros _ s3 Hsp3 _. cbv beta.
  pose proof (allocated_spares _ _ Hal2 Hsp3) as Hal3.
  eapply sparing_bind; [apply sparing_get_subtask_array |].
  intros subTasks s4 Hsp4 _. cbv beta.
  pose proof (allocated_spares _ _ Hal3 Hsp4) as Hal4.
  eapply sparing_bind; [apply sparing_reads, update_tasks_ref_heap |].
  intros updatedSubTasks s5 Hsp5 _. cbv beta.
  pose proof (allocated_spares _ _ Hal4 Hsp5) as Hal5.
  eapply sparing_bind; [by apply sparing_new_subtask_array |].
  intros t' s6 Hsp6 Ht'. cbv beta zeta.
  pose proof (allocated_spares _ _ Hal5 Hsp6) as Hal6.
  eapply sparing_bind; [apply sparing_get_milestone_object |].
  intros milestone' s7 Hsp7 _. cbv beta.
  pose proof (allocated_spares _ _ Hal6 Hsp7) as Hal7.
  eapply sparing_bind with (R := λ _ _, True).
  { destruct (_ && _).
    - split; [| done]. rewrite Mut_fmap_run. cbn [snd].
      rewrite lift_heap. apply spares_refl.
    - by apply sparing_ret. }
  intros completedAt s8 Hsp8 _. cbv beta.
  pose proof (allocated_spares _ _ Hal7 Hsp8) as Hal8.
  apply sparing_new_milestone_object; [done |].
  cbn. by intros ? [= <-].
Qed.

Lemma update_milestones_ref_sparing uid sid tid c l :
  ∀ s, allocated P (heap s) →
       (∀ o, o ∈ l → safe_object P (heap s) o) →
       sparing P (mapM (update_milestone_ref uid sid tid c) l) s
         (λ l' h, ∀ o, o ∈ l' → safe_object P h o).
Proof.
  induction l as [|o l IH]; intros s Hal Hl.
  - apply sparing_ret. by intros o ?%elem_of_nil.
  - change (mapM (update_milestone_ref uid sid tid c) (o :: l))
      with (o' ← update_milestone_ref uid sid tid c o;
            l' ← mapM (update_milestone_ref uid sid tid c) l; mret (o' :: l')).
    eapply sparing_bind.
    { apply update_milestone_ref_sparing; [done |]. apply Hl. left. }
    intros o' s1 Hsp1 Ho'. cbv beta.
    eapply sparing_bind.
    { apply IH; [by eapply allocated_spares |].
      intros o'' Hin. eapply safe_object_spares; [| exact Hsp1]. apply Hl. by right. }
    intros l' s2 Hsp2 Hl'. cbv beta. apply sparing_ret.
    intros o'' [->|Hin]%elem_of_cons; [| by apply Hl'].
    exact (safe_object_spares _ _ _ Ho' Hsp2).
Qed.

Lemma ensure_milestone_ref_sparing sid a s :
  allocated P (heap s) → safe_array P (heap s) a →
  sparing P (ensure_milestone_ref sid a) s (λ _ h, safe_array P h a).
Proof.
  intros Hal Ha. unfold ensure_milestone_ref.
  eapply sparing_bind; [apply sparing_get_milestone_array |].
  intros refs s1 Hsp1 _. cbv beta.
  pose proof (allocated_spares _ _ Hal Hsp1) as Hal1.
  eapply sparing_bind.
  { apply sparing_reads. by rewrite get_milestone_objects_heap. }
  intros existing s2 Hsp2 _. cbv beta.
  pose proof (allocated_spares _ _ Hal1 Hsp2) as Hal2.
  pose proof (safe_array_spares _ _ _ (safe_array_spares _ _ _ Ha Hsp1) Hsp2)
    as Ha2.
  destruct (find _ existing).
  - by apply sparing_ret.
  - eapply sparing_bind; [by apply sparing_new_subtask_array |].
    intros t s3 Hsp3 Ht. cbv beta.
    pose proof (allocated_spares _ _ Hal2 Hsp3) as Hal3.
    eapply sparing_bind.
    { apply sparing_new_milestone_object; [done |]. cbn. by intros ? [= <-]. }
    intros o s4 Hsp4 Ho. cbv beta.
    apply sparing_push_milestone; [| done].
    eapply safe_array_spares; [| exact Hsp4].
    by eapply safe_array_spares.
Qed.

Lemma update_rep_ref_sparing uid rid sid tid c rep s :
  allocated P (heap s) →
  (HRep.id rep = rid → ∀ a, HRep.milestones rep = Some a →
                            safe_array P (heap s) a) →
  sparing P (update_rep_ref uid rid sid tid c rep) s
    (λ rep' _, HRep.id rep' = HRep.id rep ∧ (HRep.id rep ≠ rid → rep' = rep)).
Proof.
  intros Hal Hrep. unfold update_rep_ref.
  destruct (decide _) as [Hne|Heq%dec_stable]; [by apply sparing_ret |].
  specialize (Hrep Heq).
  eapply sparing_bind with (R := λ a h, safe_array P h a).
  { destruct (HRep.milestones rep) as [a|].
    - apply sparing_ret. by apply Hrep.
    - apply sparing_new_milestone_array; [done |]. by intros o ?%elem_of_nil. }
  intros a s1 Hsp1 Ha. cbv beta.
  pose proof (allocated_spares _ _ Hal Hsp1) as Hal1.
  eapply sparing_bind; [by apply ensure_milestone_ref_sparing |].
  intros [] s2 Hsp2 Ha2. cbv beta.
  pose proof (allocated_spares _ _ Hal1 Hsp2) as Hal2.
  eapply sparing_bind; [apply sparing_get_milestone_array |].
  intros refs s3 Hsp3 [Hs3 ->]. cbv beta.
  pose proof (allocated_spares _ _ Hal2 Hsp3) as Hal3.
  eapply sparing_bind.
  { apply update_milestones_ref_sparing; [done |].
    intros o Ho. by apply (safe_array_spares _ _ _ Ha2 Hsp3). }
  intros updatedRefs s4 Hsp4 Hrefs. cbv beta.
  pose proof (allocated_spares _ _ Hal3 Hsp4) as Hal4.
  eapply sparing_bind; [by apply sparing_new_milestone_array |].
  intros a' s5 Hsp5 _. cbv beta.
  eapply sparing_bind.
  { apply sparing_reads. by rewrite get_milestone_objects_heap. }
  intros updatedMilestones s6 Hsp6 _. cbv beta zeta.
  eapply sparing_bind; [apply sparing_reads, lift_heap |].
  intros now s7 Hsp7 _. cbv beta.
  by apply sparing_ret.
Qed.

Lemma update_reps_ref_sparing uid rid sid tid c l :
  ∀ s, allocated P (heap s) →
       (∀ rep a, rep ∈ l → HRep.id rep = rid → HRep.milestones rep = Some a →
                 safe_array P (heap s) a) →
       sparing P (mapM (update_rep_ref uid rid sid tid c) l) s
         (λ l' _, Forall2 (λ rep rep', HRep.id rep' = HRep.id rep ∧
                                       (HRep.id rep ≠ rid → rep' = rep)) l l').
Proof.
  induction l as [|rep l IH]; intros s Hal Hl.
  - apply sparing_ret. constructor.
  - change (mapM (update_rep_ref uid rid sid tid c) (rep :: l))
      with (rep' ← update_rep_ref uid rid sid tid c rep;
            l' ← mapM (update_rep_ref uid rid sid tid c) l; mret (rep' :: l')).
    eapply sparing_bind.
    { apply update_rep_ref_sparing; [done |].
      intros Heq a Ha. apply (Hl rep a); [left | done | done]. }
    intros rep' s1 Hsp1 Hrep'. cbv beta.
    eapply sparing_bind.
    { apply IH; [by eapply allocated_spares |].
      intros rep'' a Hin Heq Ha. eapply safe_array_spares; [| exact Hsp1].
      apply (Hl rep'' a); [by right | done | done]. }
    intros l' s2 Hsp2 Hl'. cbv beta. apply sparing_ret. by constructor.
Qed.

End Store_frame.

Section Store_claims.

Context {env : Environment}.

(** A rep stands for the same value in two heaps when what it holds in the
    first has not been written to. *)
Lemma rep_value_spared h h' r :
  spares (held h r) h h' → rep_value h' r = rep_value h r.
Proof.
  intros (Ka & Ko & Kt & _). unfold rep_value. f_equal.
  destruct (HRep.milestones r) as [a|] eqn:Hms; [| done]. cbn. f_equal.
  unfold milestones_value.
  assert (milestone_arrays h' !!! a = milestone_arrays h !!! a) as ->.
  { rewrite !lookup_total_alt, Ka; [done |]. cbn. done. }
  apply list_fmap_ext. intros j o Hj%list_elem_of_lookup_2.
  unfold milestone_value.
  assert (milestone_objects h' !!! o = milestone_objects h !!! o) as ->.
  { rewrite !lookup_total_alt, Ko; [done |]. cbn. by exists a. }
  f_equal.
  destruct (HMilestone.subTasks (milestone_objects h !!! o)) as [t|] eqn:Ht;
    [| done].
  cbn. f_equal. rewrite !lookup_total_alt, Kt; [done |]. cbn. by exists a, o.
Qed.

(** X1. On a store, where [milestones.push] and [milestone.subTasks.push]
    write into the arrays that the state holds: an Update subtask dispatch
    returns the rep list with its ids in their order and every rep with
    another id as the record it was, and it writes only into the milestone
    arrays of the reps with the id, into the milestone objects of those
    arrays and into their subtask arrays.  So a rep with another id that
    shares no array and no milestone object with a rep with the id stands
    for the same value after the dispatch as before. *)
Theorem X1_toggle_spares_what_it_does_not_share
    uid repId stepId taskId completed
    (hreps : list HRep.t) (selected : option HRep.t) s (i : nat) r :
  hreps !! i = Some r →
  HRep.id r ≠ repId →
  allocated (held (heap s) r) (heap s) →
  (∀ r', r' ∈ hreps → HRep.id r' = repId → apart (heap s) r r') →
  HRep.id <$> (update_subtask_ref uid repId stepId taskId completed
                 hreps selected s).1.1
    = HRep.id <$> hreps ∧
  (update_subtask_ref uid repId stepId taskId completed hreps selected s).1.1 !! i
    = Some r ∧
  rep_value (heap (update_subtask_ref uid repId stepId taskId completed
                     hreps selected s).2) r
    = rep_value (heap s) r.
Proof.
  intros Hi Hne Hal Hapart. unfold update_subtask_ref.
  rewrite Mut_bind_run. cbn [fst snd mret Mut_ret].
  destruct (update_reps_ref_sparing (held (heap s) r) uid repId stepId taskId
              completed hreps s Hal) as [Hsp Hreps].
  { intros r' a Hin Hid Ha. by apply (Hapart r' Hin Hid). }
  split_and!.
  - apply list_eq_Forall2, Forall2_fmap_2, Forall2_flip.
    eapply Forall2_impl; [exact Hreps |]. by intros x y [? _].
  - destruct (Forall2_lookup_l _ _ _ _ _ Hreps Hi) as (r' & Hi' & _ & Hsame).
    by rewrite Hi', (Hsame Hne).
  - by apply rep_value_spared.
Qed.

End Store_claims.

Section Store_writes.

Context {env : Environment}.

Lemma mapM_Mut_nil {A B} (f : A → Mut B) s : mapM f [] s = ([], s).
Proof. reflexivity. Qed.

Lemma mapM_Mut_app {A B} (f : A → Mut B) l1 l2 s :
  mapM f (l1 ++ l2) s =
  ((mapM f l1 s).1 ++ (mapM f l2 (mapM f l1 s).2).1,
   (mapM f l2 (mapM f l1 s).2).2).
Proof.
  revert s. induction l1 as [|x l1 IH]; intros s.
  - rewrite mapM_Mut_nil. cbn [app fst snd]. by destruct (mapM f l2 s).
  - rewrite <- app_comm_cons, !mapM_Mut_cons, IH. reflexivity.
Qed.

Lemma update_rep_ref_miss uid rid sid tid c rep s :
  HRep.id rep ≠ rid → update_rep_ref uid rid sid tid c rep s = (rep, s).
Proof. intros Hne. unfold update_rep_ref. by destruct (decide _). Qed.

Lemma update_reps_ref_miss uid rid sid tid c l s :
  (∀ x, x ∈ l → HRep.id x ≠ rid) →
  mapM (update_rep_ref uid rid sid tid c) l s = (l, s).
Proof.
  induction l as [|x l IH]; intros Hl; [done |].
  rewrite mapM_Mut_cons, update_rep_ref_miss by (apply Hl; left).
  cbn [fst snd]. rewrite IH; [done |]. intros y Hy. apply Hl. by right.
Qed.

Lemma get_milestone_objects_run l s :
  mapM get_milestone_object l s
    = ((λ o, milestone_objects (heap s) !!! o) <$> l, s).
Proof.
  induction l as [|x l IH]; [done |].
  rewrite mapM_Mut_cons.
  change (get_milestone_object x s) with (milestone_objects (heap s) !!! x, s).
  cbn [fst snd]. by rewrite IH.
Qed.

Lemma update_milestone_ref_miss uid sid tid c o s :
  HMilestone.stepId (milestone_objects (heap s) !!! o) ≠ sid →
  update_milestone_ref uid sid tid c o s = (o, s).
Proof.
  intros Hne. unfold update_milestone_ref. rewrite Mut_bind_run.
  change (get_milestone_object o s) with (milestone_objects (heap s) !!! o, s).
  cbn [fst snd]. by destruct (decide _).
Qed.

Lemma update_milestones_ref_miss uid sid tid c l s :
  (∀ o, o ∈ l → HMilestone.stepId (milestone_objects (heap s) !!! o) ≠ sid) →
  mapM (update_milestone_ref uid sid tid c) l s = (l, s).
Proof.
  induction l as [|x l IH]; intros Hl; [done |].
  rewrite mapM_Mut_cons, update_milestone_ref_miss by (apply Hl; left).
  cbn [fst snd]. rewrite IH; [done |]. intros y Hy. apply Hl. by right.
Qed.

Lemma ensure_subTasks_ref_some o t s :
  HMilestone.subTasks (milestone_objects (heap s) !!! o) = Some t →
  ensure_subTasks_ref o s = (t, s).
Proof.
  intros Ht. unfold ensure_subTasks_ref. rewrite Mut_bind_run.
  change (get_milestone_object o s) with (milestone_objects (heap s) !!! o, s).
  cbn [fst snd]. by rewrite Ht.
Qed.

Lemma update_milestone_ref_hit uid sid tid c o t s :
  HMilestone.stepId (milestone_objects (heap s) !!! o) = sid →
  HMilestone.subTasks (milestone_objects (heap s) !!! o) = Some t →
  ∃ newm ups,
    (update_milestone_ref uid sid tid c o s).1
      = fresh (dom (milestone_objects (heap (ensure_subtask_ref tid t s).2))) ∧
    heap (update_milestone_ref uid sid tid c o s).2 =
      {| milestone_arrays :=
           milestone_arrays (heap (ensure_subtask_ref tid t s).2);
         milestone_objects :=
           <[fresh (dom (milestone_objects (heap (ensure_subtask_ref tid t s).2)))
               := newm]>
             (milestone_objects (heap (ensure_subtask_ref tid t s).2));
         subtask_arrays :=
           <[fresh (dom (subtask_arrays (heap (ensure_subtask_ref tid t s).2)))
               := ups]>
             (subtask_arrays (heap (ensure_subtask_ref tid t s).2)) |}.
Proof.
  intros Hsid Ht. unfold update_milestone_ref. rewrite Mut_bind_run.
  change (get_milestone_object o s) with (milestone_objects (heap s) !!! o, s).
  cbn [fst snd]. destruct (decide _) as [Hne|_]; [done |].
  rewrite Mut_bind_run, (ensure_subTasks_ref_some _ _ _ Ht). cbn [fst snd].
  rewrite Mut_bind_run. set (s1 := (ensure_subtask_ref tid t s).2).
  rewrite Mut_bind_run.
  change (get_subtask_array t s1) with (subtask_arrays (heap s1) !!! t, s1).
  cbn [fst snd].
  rewrite Mut_bind_run.
  pose proof (update_tasks_ref_heap uid tid c (subtask_arrays (heap s1) !!! t) s1)
    as Hs2.
  set (r := mapM (update_task_ref uid tid c) (subtask_arrays (heap s1) !!! t) s1)
    in *.
  rewrite Mut_bind_run. cbv zeta.
  assert (heap (new_subtask_array r.1 r.2).2 =
          {| milestone_arrays := milestone_arrays (heap s1);
             milestone_objects := milestone_objects (heap s1);
             subtask_arrays :=
               <[fresh (dom (subtask_arrays (heap s1))) := r.1]>
                 (subtask_arrays (heap s1)) |}) as Hs3.
  { unfold new_subtask_array. cbn [snd heap with_subtask_arrays].
    by rewrite Hs2. }
  set (s3 := (new_subtask_array r.1 r.2).2) in *.
  set (t' := (new_subtask_array r.1 r.2).1).
  rewrite Mut_bind_run.
  change (get_milestone_object o s3) with (milestone_objects (heap s3) !!! o, s3).
  cbn [fst snd]. set (stamp := _ && _). rewrite Mut_bind_run.
  set (q := (if stamp then Some <$> lift now_iso else mret _) s3).
  assert (heap q.2 = heap s3) as Hq.
  { unfold q. destruct stamp; [| done]. rewrite Mut_fmap_run. apply lift_heap. }
  unfold new_milestone_object. cbn [fst snd heap with_milestone_objects].
  eexists _, _. rewrite Hq, Hs3.
  cbn [milestone_arrays milestone_objects subtask_arrays]. by split.
Qed.

Lemma ensure_subtask_ref_push tid t s :
  subtask_arrays (heap s) !!! t = [] →
  heap (ensure_subtask_ref tid t s).2 =
    {| milestone_arrays := milestone_arrays (heap s);
       milestone_objects := milestone_objects (heap s);
       subtask_arrays :=
         alter (λ l, l ++ [placeholder_subtask tid]) t (subtask_arrays (heap s)) |}.
Proof.
  intros Ht. unfold ensure_subtask_ref. rewrite Mut_bind_run.
  change (get_subtask_array t s) with (subtask_arrays (heap s) !!! t, s).
  cbn [fst snd]. by rewrite Ht.
Qed.

Lemma ensure_milestone_ref_push sid a s :
  (∀ o, o ∈ milestone_arrays (heap s) !!! a →
        HMilestone.stepId (milestone_objects (heap s) !!! o) ≠ sid) →
  heap (ensure_milestone_ref sid a s).2 =
    {| milestone_arrays :=
         alter (λ l, l ++ [fresh (dom (milestone_objects (heap s)))]) a
           (milestone_arrays (heap s));
       milestone_objects :=
         <[fresh (dom (milestone_objects (heap s))) :=
             {| HMilestone.stepId := sid;
                HMilestone.title := "Step " +:+ pretty sid;
                HMilestone.completed := false;
                HMilestone.completedAt := None;
                HMilestone.completedBy := None;
                HMilestone.subTasks :=
                  Some (fresh (dom (subtask_arrays (heap s)))) |}]>
           (milestone_objects (heap s));
       subtask_arrays :=
         <[fresh (dom (subtask_arrays (heap s))) := []]>
           (subtask_arrays (heap s)) |}.
Proof.
  intros Hother. unfold ensure_milestone_ref. rewrite Mut_bind_run.
  change (get_milestone_array a s) with (milestone_arrays (heap s) !!! a, s).
  cbn [fst snd]. rewrite Mut_bind_run, get_milestone_objects_run. cbn [fst snd].
  assert (find (λ m, bool_decide (HMilestone.stepId m = sid))
            ((λ o, milestone_objects (heap s) !!! o)
               <$> milestone_arrays (heap s) !!! a) = None) as ->.
  { apply find_bool_decide_None.
    intros m (o & -> & Ho)%list_elem_of_fmap. by apply Hother. }
  reflexivity.
Qed.

(** The dispatch for a rep whose milestone array has no milestone of the
    step: what the heap holds afterwards. *)
Lemma update_rep_ref_push uid rid sid tid c rep a s :
  HRep.id rep = rid →
  HRep.milestones rep = Some a →
  a ∈ dom (milestone_arrays (heap s)) →
  (∀ o, o ∈ milestone_arrays (heap s) !!! a →
        o ∈ dom (milestone_objects (heap s)) ∧
        HMilestone.stepId (milestone_objects (heap s) !!! o) ≠ sid) →
  ∃ o t,
    (o ∉ dom (milestone_objects (heap s))) ∧
    (t ∉ dom (subtask_arrays (heap s))) ∧
    milestone_arrays (heap (update_rep_ref uid rid sid tid c rep s).2) !!! a
      = (milestone_arrays (heap s) !!! a) ++ [o] ∧
    milestone_objects (heap (update_rep_ref uid rid sid tid c rep s).2) !!! o
      = {| HMilestone.stepId := sid;
           HMilestone.title := "Step " +:+ pretty sid;
           HMilestone.completed := false;
           HMilestone.completedAt := None;
           HMilestone.completedBy := None;
           HMilestone.subTasks := Some t |} ∧
    subtask_arrays (heap (update_rep_ref uid rid sid tid c rep s).2) !!! t
      = [placeholder_subtask tid] ∧
    (∀ x, x ∈ dom (milestone_objects (heap s)) →
          milestone_objects (heap (update_rep_ref uid rid sid tid c rep s).2) !!! x
            = milestone_objects (heap s) !!! x) ∧
    (∀ y, y ∈ dom (subtask_arrays (heap s)) →
          subtask_arrays (heap (update_rep_ref uid rid sid tid c rep s).2) !!! y
            = subtask_arrays (heap s) !!! y).
Proof.
  intros Hid Ha Hdom Hrefs.
  set (o := fresh (dom (milestone_objects (heap s)))).
  set (t := fresh (dom (subtask_arrays (heap s)))).
  assert (o ∉ dom (milestone_objects (heap s))) as Ho by apply is_fresh.
  assert (t ∉ dom (subtask_arrays (heap s))) as Ht by apply is_fresh.
  apply elem_of_dom in Hdom as [refs Hrefs'].
  assert (milestone_arrays (heap s) !!! a = refs) as Hrefs''.
  { by rewrite lookup_total_alt, Hrefs'. }
  rewrite Hrefs'' in *.
  exists o, t. split; [done |]. split; [done |].
  unfold update_rep_ref. destruct (decide _) as [Hne|_]; [done |].
  rewrite Ha, Mut_bind_run. change ((mret a : Mut loc) s) with (a, s).
  cbn [fst snd].
  (* the placeholder is pushed *)
  rewrite Mut_bind_run.
  pose proof (ensure_milestone_ref_push sid a s) as Hs1.
  rewrite Hrefs'' in Hs1. specialize (Hs1 (λ x Hx, proj2 (Hrefs x Hx))).
  fold o t in Hs1.
  set (s1 := (ensure_milestone_ref sid a s).2) in *.
  rewrite Mut_bind_run.
  change (get_milestone_array a s1) with (milestone_arrays (heap s1) !!! a, s1).
  cbn [fst snd].
  assert (milestone_arrays (heap s1) !!! a = refs ++ [o]) as ->.
  { rewrite Hs1. cbn [milestone_arrays].
    by rewrite lookup_total_alter_eq, Hrefs'. }
  (* the milestones that were there are passed over *)
  rewrite Mut_bind_run, mapM_Mut_app, update_milestones_ref_miss; last first.
  { intros x Hx. rewrite Hs1. cbn [milestone_objects].
    rewrite lookup_total_insert_ne; [by apply Hrefs |].
    intros <-. by destruct (Hrefs o Hx). }
  cbn [fst snd]. rewrite mapM_Mut_cons, mapM_Mut_nil. cbn [fst snd].
  (* the placeholder is mapped *)
  destruct (update_milestone_ref_hit uid sid tid c o t s1)
    as (newm & ups & Ho' & Hs2).
  { rewrite Hs1. cbn [milestone_objects]. by rewrite lookup_total_insert_eq. }
  { rewrite Hs1. cbn [milestone_objects]. by rewrite lookup_total_insert_eq. }
  pose proof (ensure_subtask_ref_push tid t s1) as Hpush.
  rewrite Hpush in Hs2, Ho'
    by (rewrite Hs1; cbn [subtask_arrays]; by rewrite lookup_total_insert_eq).
  clear Hpush.
  cbn [milestone_arrays milestone_objects subtask_arrays] in Hs2, Ho'.
  set (s2 := (update_milestone_ref uid sid tid c o s1).2) in *.
  set (o' := (update_milestone_ref uid sid tid c o s1).1) in *.
  (* the new array, the count and the clock *)
  rewrite Mut_bind_run.
  set (s3 := (new_milestone_array (refs ++ [o']) s2).2).
  set (a' := (new_milestone_array (refs ++ [o']) s2).1).
  rewrite Mut_bind_run, get_milestone_objects_run. cbn [fst snd]. cbv zeta.
  rewrite Mut_bind_run. unfold mret at 1 2 3 4 5. unfold Mut_ret. cbn [snd].
  rewrite lift_heap.
  assert (heap s3 =
          {| milestone_arrays :=
               <[fresh (dom (milestone_arrays (heap s2))) := refs ++ [o']]>
                 (milestone_arrays (heap s2));
             milestone_objects := milestone_objects (heap s2);
             subtask_arrays := subtask_arrays (heap s2) |}) as -> by done.
  rewrite Hs2, Hs1. cbn [milestone_arrays milestone_objects subtask_arrays].
  rewrite !dom_alter_L, !dom_insert_L.
  pose proof (is_fresh (dom (milestone_arrays (heap s)))) as Hfa.
  pose proof (is_fresh ({[o]} ∪ dom (milestone_objects (heap s)))) as Hfo.
  pose proof (is_fresh ({[t]} ∪ dom (subtask_arrays (heap s)))) as Hft.
  split_and!.
  - rewrite lookup_total_insert_ne.
    + by rewrite lookup_total_alter_eq, Hrefs'.
    + intros Heq. apply Hfa. rewrite Heq. by eapply elem_of_dom_2.
  - rewrite lookup_total_insert_ne; [by rewrite lookup_total_insert_eq |].
    intros Heq. apply Hfo. rewrite Heq. apply elem_of_union_l. by apply elem_of_singleton.
  - rewrite lookup_total_insert_ne.
    + by rewrite lookup_total_alter_eq, lookup_insert_eq.
    + intros Heq. apply Hft. rewrite Heq. apply elem_of_union_l. by apply elem_of_singleton.
  - intros x Hx. rewrite !lookup_total_insert_ne; [done | |].
    + intros <-. by apply Ho.
    + intros Heq. apply Hfo. rewrite Heq. by apply elem_of_union_r.
  - intros y Hy. rewrite lookup_total_insert_ne.
    + rewrite lookup_total_alter_ne by (intros <-; by apply Ht).
      rewrite lookup_total_insert_ne; [done |]. intros <-. by apply Ht.
    + intros Heq. apply Hft. rewrite Heq. by apply elem_of_union_r.
Qed.

(** X20. The cascade writes into the state it is given.  On a store, take
    a list in which one rep has the id of the dispatch, and let the
    milestone array of that rep have no milestone of the step.  After the
    dispatch whoever holds that array, be it the rep of the state passed in
    or another rep that shares the array, stands for a value with one more
    milestone at the end: the placeholder of the step, which is not
    completed and has no stamps whatever value was passed, with the
    placeholder subtask as its only subtask.  The milestones before it are
    as they were. *)
Theorem X20_toggle_writes_into_the_array_it_is_given
    uid repId stepId taskId completed
    (l1 l2 : list HRep.t) (r' : HRep.t) (selected : option HRep.t) s
    (r : HRep.t) (a : loc) :
  (∀ x, x ∈ l1 ++ l2 → HRep.id x ≠ repId) →
  HRep.id r' = repId →
  HRep.milestones r' = Some a →
  HRep.milestones r = Some a →
  allocated (held (heap s) r) (heap s) →
  (∀ m, m ∈ milestones_value (heap s) a → Milestone.stepId m ≠ stepId) →
  Rep.milestones
    (rep_value (heap (update_subtask_ref uid repId stepId taskId completed
                        (l1 ++ r' :: l2) selected s).2) r)
    = Some (milestones_value (heap s) a ++
            [ {| Milestone.stepId := stepId;
                 Milestone.title := "Step " +:+ pretty stepId;
                 Milestone.completed := false;
                 Milestone.completedAt := None;
                 Milestone.completedBy := None;
                 Milestone.subTasks := Some [placeholder_subtask taskId] |} ]).
Proof.
  intros Hmiss Hid Ha Hr (Aa & Ao & At) Hother.
  unfold update_subtask_ref. rewrite Mut_bind_run. unfold mret at 1, Mut_ret.
  cbn [snd].
  rewrite mapM_Mut_app, update_reps_ref_miss
    by (intros x Hx; apply Hmiss, elem_of_app; by left).
  cbn [fst snd].
  rewrite mapM_Mut_cons, update_reps_ref_miss
    by (intros x Hx; apply Hmiss, elem_of_app; by right).
  cbn [fst snd].
  destruct (update_rep_ref_push uid repId stepId taskId completed r' a s Hid Ha)
    as (o & t & _ & _ & HA & HD & HE & HB & HC).
  { by apply Aa. }
  { intros x Hx. split; [apply Ao; by exists a |].
    apply (Hother (milestone_value (heap s) x)).
    unfold milestones_value. apply list_elem_of_fmap. by exists x. }
  unfold rep_value. cbn [Rep.milestones]. rewrite Hr. cbn [fmap option_fmap option_map].
  f_equal. unfold milestones_value. rewrite HA, fmap_app. f_equal.
  - apply list_fmap_ext. intros j x Hx%list_elem_of_lookup_2.
    unfold milestone_value. rewrite HB by (apply Ao; by exists a).
    f_equal.
    destruct (HMilestone.subTasks (milestone_objects (heap s) !!! x))
      as [tx|] eqn:Htx; [| done].
    cbn [fmap option_fmap option_map]. f_equal.
    apply HC, At. by exists a, x.
  - cbn [fmap list_fmap]. unfold milestone_value. rewrite HD.
    cbn [HMilestone.stepId HMilestone.title HMilestone.completed
         HMilestone.completedAt HMilestone.completedBy HMilestone.subTasks
         fmap option_fmap option_map].
    by rewrite HE.
Qed.

End Store_writes.


Section More_reducer.

Context {env : Environment}.

Local Ltac run_action :=
  simpl; try unfold update_subtask; rewrite ?Ambient_bind_run; simpl.

Lemma appReducer_World_le state action w : World_le w (appReducer state action w).2.
Proof.
  destruct action; try (run_action; unfold World_le; simpl; lia).
  - by destruct (UPDATE_REP_spec state id updates w) as (? & _).
  - by destruct (update_subtask_spec state repId stepId taskId completed w) as (? & _).
Qed.

Lemma appReducer_trainers state action w :
  trainers (appReducer state action w).1 = trainers state.
Proof. destruct action; by run_action. Qed.

Lemma appReducer_reps_length state action w :
  length (reps (appReducer state action w).1)
  = (length (reps state) + (if is_ADD_REP action then 1 else 0))%nat.
Proof.
  destruct action; try (run_action; lia).
  - run_action. rewrite length_app. simpl. lia.
  - destruct (UPDATE_REP_spec state id updates w) as (_ & Hreps & _).
    cbv zeta in Hreps. rewrite <- (Forall2_length _ _ _ Hreps). simpl. lia.
  - destruct (update_subtask_spec state repId stepId taskId completed w)
      as (_ & Hreps & _).
    cbv zeta in Hreps. rewrite <- (Forall2_length _ _ _ Hreps). simpl. lia.
Qed.

Lemma appReducer_logs_length state action w :
  length (auditLogs (appReducer state action w).1)
  = (length (auditLogs state) + (if is_ADD_AUDIT_LOG action then 1 else 0))%nat.
Proof. destruct action; run_action; lia. Qed.

Lemma appReducer_auth_ok state action w :
  auth_ok state → auth_ok (appReducer state action w).1.
Proof.
  unfold auth_ok. destruct action; run_action; try done.
  intros Hs. by rewrite fmap_is_Some.
Qed.

Lemma appReducer_user_id state action w :
  is_sign action = false →
  AppUser.id <$> currentUser (appReducer state action w).1
  = AppUser.id <$> currentUser state.
Proof.
  destruct action; run_action; try done.
  intros _. by destruct (currentUser state).
Qed.

Lemma appReducer_stage state action w (i : nat) rep :
  patches_stage action = false →
  reps state !! i = Some rep →
  ∃ rep', reps (appReducer state action w).1 !! i = Some rep' ∧
          Rep.stage rep ≤ Rep.stage rep'.
Proof.
  intros Hno Hi.
  destruct action;
    try (run_action; exists rep; split; [done | lia]).
  - run_action. exists rep. split; [by apply lookup_app_l_Some | lia].
  - destruct (UPDATE_REP_spec state id updates w) as (_ & Hreps & _).
    cbv zeta in Hreps.
    destruct (Forall2_lookup_l _ _ _ _ _ Hreps Hi) as (rep' & Hi' & Hhit & Hmiss).
    exists rep'. split; [done |].
    destruct (decide (Rep.id rep = id)) as [Heq|Hne]; [| rewrite (Hmiss Hne); lia].
    destruct (Hhit Heq) as (t & _ & ->). simpl.
    simpl in Hno. apply bool_decide_eq_false in Hno.
    destruct (RepPatch.stage updates); [| simpl; lia].
    destruct Hno. by eexists.
  - destruct (update_subtask_lookup state repId stepId taskId completed w i rep Hi)
      as (rep' & Hi' & _ & _ & _ & Hmiss & Hhit).
    exists rep'. split; [done |].
    destruct (decide (Rep.id rep = repId)) as [Heq|Hne]; [| rewrite (Hmiss Hne); lia].
    destruct (Hhit Heq) as (ms' & _ & _ & -> & _). lia.
Qed.

Lemma dispatch_all_cons a l state w :
  dispatch_all (a :: l) state w
  = dispatch_all l (appReducer state a w).1 (appReducer state a w).2.
Proof. simpl. by rewrite Ambient_bind_run. Qed.

Lemma ADD_REP_step state p w :
  reps (appReducer state (ADD_REP p) w).1
  = reps state ++
    [ {| Rep.id := generateId (gens w);
         Rep.stage := NewRep.stage p;
         Rep.milestones := NewRep.milestones p;
         Rep.createdAt := clock (reads w);
         Rep.updatedAt := clock (reads w + 1);
         Rep.fields := NewRep.fields p |} ] ∧
  gens (appReducer state (ADD_REP p) w).2 = S (gens w) ∧
  reads (appReducer state (ADD_REP p) w).2 = S (S (reads w)).
Proof. simpl. by rewrite Nat.add_1_r. Qed.

(** X8. No action removes a rep or moves it, and only an Update rep whose
    patch gives a stage can lower a stage: along any sequence of actions
    without such a patch, the rep at a place of the list is still at that
    place and its stage is at least what it was. *)
Theorem X8_stage_lowered_by_stage_patch_only
    (actions : list AppAction) state w (i : nat) rep :
  forallb (λ a, negb (patches_stage a)) actions = true →
  reps state !! i = Some rep →
  ∃ rep', reps (dispatch_all actions state w).1 !! i = Some rep' ∧
          Rep.stage rep ≤ Rep.stage rep'.
Proof.
  revert state w rep.
  induction actions as [|a l IH]; intros state w rep Hall Hi.
  - exists rep. split; [done | lia].
  - simpl in Hall. apply andb_prop in Hall as [Ha Hl].
    apply negb_true_iff in Ha.
    destruct (appReducer_stage state a w i rep Ha Hi) as (rep1 & Hi1 & Hle1).
    rewrite dispatch_all_cons.
    destruct (IH _ (appReducer state a w).2 rep1 Hl Hi1) as (rep2 & Hi2 & Hle2).
    exists rep2. split; [done | lia].
Qed.

(** X9. Along any sequence of actions the trainers are never changed, the
    rep list grows by exactly one rep for each Add rep and the log by
    exactly one entry for each Add audit log, and neither ever shrinks. *)
Theorem X9_trainers_fixed_reps_and_logs_counted
    (actions : list AppAction) state w :
  trainers (dispatch_all actions state w).1 = trainers state ∧
  length (reps (dispatch_all actions state w).1)
    = (length (reps state) + length (List.filter is_ADD_REP actions))%nat ∧
  length (auditLogs (dispatch_all actions state w).1)
    = (length (auditLogs state) + length (List.filter is_ADD_AUDIT_LOG actions))%nat.
Proof.
  revert state w. induction actions as [|a l IH]; intros state w.
  - simpl. split_and!; [done | lia | lia].
  - rewrite dispatch_all_cons.
    destruct (IH (appReducer state a w).1 (appReducer state a w).2)
      as (-> & -> & ->).
    rewrite appReducer_trainers, appReducer_reps_length, appReducer_logs_length.
    simpl. split_and!; [done | |].
    + destruct (is_ADD_REP a); simpl; lia.
    + destruct (is_ADD_AUDIT_LOG a); simpl; lia.
Qed.

(** X10. The state says that somebody is authenticated exactly when a
    current user is present: this holds in the initial state, every action
    keeps it, and so it holds after any sequence of actions from the initial
    state. *)
Theorem X10_authenticated_iff_user_present
    (actions : list AppAction) state w
    (Date_of_string : string → Instant)
    (dummyReps : list DummyRep.t) (dummyTrainers : list DummyTrainer.t) :
  (auth_ok state → auth_ok (dispatch_all actions state w).1) ∧
  auth_ok (dispatch_all actions
             (initialState Date_of_string dummyReps dummyTrainers) w).1.
Proof.
  assert (∀ l s w', auth_ok s → auth_ok (dispatch_all l s w').1) as Hkeep.
  { induction l as [|a l IH]; intros s w' Hs; [done |].
    rewrite dispatch_all_cons. apply IH. by apply appReducer_auth_ok. }
  split; [apply Hkeep |].
  apply Hkeep. unfold auth_ok, initialState. simpl.
  split; [done | by intros [? ?]].
Qed.

(** X11. Only Sign in and Sign out change who is signed in: along any
    sequence of other actions (Set role included, which rewrites the role
    of the user) the id of the current user, which is what the cascade
    writes into completedBy, stays what it was. *)
Theorem X11_user_id_changed_by_sign_actions_only
    (actions : list AppAction) state w :
  forallb (λ a, negb (is_sign a)) actions = true →
  AppUser.id <$> currentUser (dispatch_all actions state w).1
  = AppUser.id <$> currentUser state.
Proof.
  revert state w. induction actions as [|a l IH]; intros state w Hall; [done |].
  simpl in Hall. apply andb_prop in Hall as [Ha Hl].
  apply negb_true_iff in Ha.
  rewrite dispatch_all_cons, (IH _ _ Hl). by apply appReducer_user_id.
Qed.

(** X12. A run of Add rep dispatches appends one rep for each payload, in
    the order of the payloads, after the reps that were there, which are
    kept: the k-th new rep has the k-th id generated, the stage, milestones
    and fields of the k-th payload, and as createdAt and updatedAt two
    successive clock reads of its own. *)
Theorem X12_add_rep_run (payloads : list NewRep.t) state w :
  ∃ news,
    reps (dispatch_all (ADD_REP <$> payloads) state w).1 = reps state ++ news ∧
    length news = length payloads ∧
    gens (dispatch_all (ADD_REP <$> payloads) state w).2
      = (gens w + length payloads)%nat ∧
    reads (dispatch_all (ADD_REP <$> payloads) state w).2
      = (reads w + 2 * length payloads)%nat ∧
    ∀ (k : nat) p, payloads !! k = Some p →
      ∃ rep,
        news !! k = Some rep ∧
        Rep.id rep = generateId (gens w + k) ∧
        Rep.stage rep = NewRep.stage p ∧
        Rep.milestones rep = NewRep.milestones p ∧
        Rep.fields rep = NewRep.fields p ∧
        Rep.createdAt rep = clock (reads w + 2 * k) ∧
        Rep.updatedAt rep = clock (reads w + 2 * k + 1).
Proof.
  revert state w. induction payloads as [|p l IH]; intros state w.
  - exists []. simpl. rewrite app_nil_r.
    split_and!; [done | done | lia | lia | done].
  - rewrite fmap_cons, dispatch_all_cons.
    destruct (IH (appReducer state (ADD_REP p) w).1
                 (appReducer state (ADD_REP p) w).2)
      as (news & -> & Hlen & -> & -> & Hall).
    destruct (ADD_REP_step state p w) as (-> & Hg & Hr).
    rewrite Hg, Hr. rewrite Hg, Hr in Hall.
    rewrite <- app_assoc.
    eexists (_ :: news). split_and!; [done | | | |].
    + rewrite !length_cons. lia.
    + rewrite length_cons. lia.
    + rewrite length_cons. lia.
    + intros [|k] q Hk.
      * injection Hk as <-. eexists. split; [done |].
        rewrite !Nat.add_0_r, Nat.add_1_r. by split_and!.
      * destruct (Hall k q Hk) as (rep & ? & Hid & ? & ? & ? & Hc & Hu).
        exists rep. split_and!; try done.
        -- rewrite Hid. f_equal. lia.
        -- rewrite Hc. f_equal. lia.
        -- rewrite Hu. f_equal. lia.
Qed.

(** X13. A run of Add audit log dispatches leaves the log most recent
    first: the new entries come before the old log, which is kept, and
    their fields are the payloads in reverse order of dispatch; the run
    reads the clock twice for each entry. *)
Theorem X13_audit_log_run (payloads : list (gmap string string)) state w :
  ∃ news,
    auditLogs (dispatch_all (ADD_AUDIT_LOG <$> payloads) state w).1
      = news ++ auditLogs state ∧
    AuditLog.fields <$> news = reverse payloads ∧
    reads (dispatch_all (ADD_AUDIT_LOG <$> payloads) state w).2
      = (reads w + 2 * length payloads)%nat.
Proof.
  revert state w. induction payloads as [|p l IH]; intros state w.
  - exists []. simpl. split_and!; [done | done | lia].
  - rewrite fmap_cons, dispatch_all_cons.
    destruct (IH (appReducer state (ADD_AUDIT_LOG p) w).1
                 (appReducer state (ADD_AUDIT_LOG p) w).2)
      as (news & -> & Hfields & ->).
    simpl. eexists (news ++ [_]). split_and!.
    + by rewrite <- app_assoc.
    + by rewrite fmap_app, Hfields, reverse_cons.
    + lia.
Qed.

Lemma appReducer_role_ok state action w :
  is_SIGN_IN action = false →
  role_ok state → role_ok (appReducer state action w).1.
Proof.
  unfold role_ok. destruct action; run_action; try done.
  intros _ _ u. destruct (currentUser state); simpl; [| done].
  by intros [= <-].
Qed.

(** X18. Once a role is set, the role of the current user and the role of
    the state agree until the next Sign in: after Set role and then any
    sequence of actions without a Sign in, whoever is the current user has
    the role that the state holds. *)
Theorem X18_role_agrees_until_next_sign_in
    role (others : list AppAction) state w :
  forallb (λ a, negb (is_SIGN_IN a)) others = true →
  role_ok (dispatch_all (SET_ROLE role :: others) state w).1.
Proof.
  intros Hall. rewrite dispatch_all_cons.
  assert (role_ok (appReducer state (SET_ROLE role) w).1) as Hset.
  { intros u. simpl. destruct (currentUser state); simpl; [| done].
    by intros [= <-]. }
  revert Hset. generalize (appReducer state (SET_ROLE role) w).1 as s.
  generalize (appReducer state (SET_ROLE role) w).2 as w'.
  induction others as [|a l IH]; intros w' s Hs; [done |].
  simpl in Hall. apply andb_prop in Hall as [Ha Hl].
  apply negb_true_iff in Ha.
  rewrite dispatch_all_cons. apply (IH Hl). by apply appReducer_role_ok.
Qed.

End More_reducer.

Section More_catalog.

Context {env : Environment}.

Lemma shaped_step uid rid s tid c w w' n j T L r r' :
  rep_rel uid rid s tid c w w' r r' →
  tid ∈ L.*1 →
  shaped s n j T L r → shaped s n j T L r'.
Proof.
  intros (_ & _ & _ & Hmiss & Hhit) Htid Hsh.
  destruct (decide (Rep.id r = rid)) as [Hid|Hne]; [| by rewrite (Hmiss Hne)].
  destruct Hsh as (ms & m & sts & Hms & Hn & Hj & Hs & HT & Hsts & HL).
  destruct (Hhit Hid) as (ms' & Hms' & Hrel & _).
  rewrite Hms in Hrel.
  rewrite (ensure_milestone_present s (Some ms) m
             (list_elem_of_lookup_2 _ _ _ Hj) Hs) in Hrel.
  simpl in Hrel.
  destruct (Forall2_lookup_l _ _ _ _ _ Hrel Hj)
    as (m' & Hj' & Hs' & HT' & _ & Hmhit).
  destruct (Hmhit Hs) as (sts' & Hsts' & Htasks & _).
  exists ms', m', sts'. split_and!; try done; try congruence.
  - rewrite <- Hn. symmetry. by eapply Forall2_length.
  - rewrite <- HL.
    assert (ensure_subtask tid (Milestone.subTasks m) = sts) as Hens.
    { rewrite Hsts.
      destruct (ensure_subtask_cases tid (Some sts)) as [[Heq _]|[_ Habs]];
        [done |].
      rewrite <- HL in Htid. rewrite <- list_fmap_compose in Htid.
      apply list_elem_of_fmap in Htid as (t & -> & Ht). by destruct (Habs t). }
    rewrite Hens in Htasks.
    eapply Forall2_fmap_same; [exact Htasks |].
    intros x y _ (-> & -> & _). done.
Qed.

Lemma shaped_toggles rid s n j T L (tids : list string) :
  (∀ t, t ∈ tids → t ∈ L.*1) →
  ∀ state w (i : nat) r,
    reps state !! i = Some r → shaped s n j T L r →
    ∃ r', reps (dispatch_all (toggles rid ((λ t, (s, t, true)) <$> tids))
                  state w).1 !! i = Some r' ∧
          shaped s n j T L r'.
Proof.
  induction tids as [|t tids IH]; intros Hin state w i r Hi Hsh.
  - by exists r.
  - change (toggles rid ((λ t, (s, t, true)) <$> t :: tids))
      with (UPDATE_SUBTASK rid s t true
              :: toggles rid ((λ t, (s, t, true)) <$> tids)).
    cbn [dispatch_all]. rewrite Ambient_bind_run.
    destruct (update_subtask_lookup state rid s t true w i r Hi)
      as (r1 & Hi1 & Hrel).
    apply (IH (λ x Hx, Hin x (list_elem_of_further _ _ _ Hx)) _ _ i r1 Hi1).
    eapply shaped_step; [exact Hrel | | exact Hsh].
    apply Hin. left.
Qed.

(** X14. Find step: a result is an entry of the catalog with the id asked
    for; there is no result exactly when no entry has the id; and when the
    step ids of the catalog are pairwise different, every entry is found by
    its own id. *)
Theorem X14_getStepById_lookup (checklistSteps : list StepDef.t) stepId :
  (∀ step, getStepById checklistSteps stepId = Some step →
     step ∈ checklistSteps ∧ StepDef.stepId step = stepId) ∧
  (getStepById checklistSteps stepId = None ↔
     ∀ step, step ∈ checklistSteps → StepDef.stepId step ≠ stepId) ∧
  (NoDup (StepDef.stepId <$> checklistSteps) →
     ∀ step, step ∈ checklistSteps →
       getStepById checklistSteps (StepDef.stepId step) = Some step).
Proof.
  unfold getStepById. split_and!.
  - intros step Hfind.
    by apply (find_bool_decide_Some (λ x, StepDef.stepId x = stepId)).
  - apply (find_bool_decide_None (λ x, StepDef.stepId x = stepId)).
  - intros Hnd step Hstep.
    destruct (find_bool_decide_first
                (λ x, StepDef.stepId x = StepDef.stepId step) checklistSteps)
      as (k & x & -> & Hk & Hx & _); [by exists step |].
    apply list_elem_of_lookup in Hstep as [j Hj].
    assert (k = j) as ->.
    { eapply (NoDup_lookup _ _ _ (StepDef.stepId step) Hnd);
        rewrite list_lookup_fmap; [rewrite Hk | rewrite Hj]; simpl; congruence. }
    congruence.
Qed.

(** X15. The catalog and the cascade together: take a rep whose milestone
    of a step is the one that Build default milestone gives, for a catalog
    step with at least one subtask.  Setting the tasks of the catalog step
    to true, one after the other, synthesizes nothing (the rep keeps its
    number of milestones, and the milestone keeps the title, the task ids
    and the descriptions of the catalog: no placeholder text appears) and
    leaves the milestone completed. *)
Theorem X15_catalog_milestone_completed_by_catalog_tasks
    (checklistSteps : list StepDef.t) s step first others
    state repId w (i : nat) r ms (j : nat) :
  getStepById checklistSteps s = Some step →
  StepDef.subTasks step = first :: others →
  reps state !! i = Some r →
  Rep.id r = repId →
  Rep.milestones r = Some ms →
  ms !! j = createMilestoneFromStep checklistSteps s →
  (∀ m0, m0 ∈ ms → Milestone.stepId m0 = s →
         Some m0 = createMilestoneFromStep checklistSteps s) →
  ∃ r' ms' m' sts',
    reps (dispatch_all
            (toggles repId
               ((λ t, (s, StepDef.taskId t, true)) <$> StepDef.subTasks step))
            state w).1 !! i = Some r' ∧
    Rep.milestones r' = Some ms' ∧
    length ms' = length ms ∧
    ms' !! j = Some m' ∧
    Milestone.stepId m' = s ∧
    Milestone.title m' = StepDef.title step ∧
    Milestone.completed m' = true ∧
    Milestone.subTasks m' = Some sts' ∧
    (λ t, (SubTask.taskId t, SubTask.description t)) <$> sts'
      = (λ t, (StepDef.taskId t, StepDef.description t)) <$> StepDef.subTasks step.
Proof.
  intros Hstep Htasks Hi Hid Hms Hj Honly.
  unfold createMilestoneFromStep in Hj, Honly. rewrite Hstep in Hj, Honly.
  set (L := (λ t, (StepDef.taskId t, StepDef.description t))
              <$> StepDef.subTasks step).
  assert ((λ t, (s, StepDef.taskId t, true)) <$> StepDef.subTasks step
          = (λ t, (s, t, true)) <$> (StepDef.taskId <$> StepDef.subTasks step))
    as Hlist by (by rewrite <- list_fmap_compose).
  rewrite Hlist.
  assert (L.*1 = StepDef.taskId <$> StepDef.subTasks step) as HL1.
  { unfold L. by rewrite <- list_fmap_compose. }
  destruct (shaped_toggles repId s (length ms) j (StepDef.title step) L
              (StepDef.taskId <$> StepDef.subTasks step)
              ltac:(by rewrite HL1) state w i r Hi)
    as (r' & Hi' & ms' & m' & sts' & Hms' & Hlen & Hj' & Hs' & HT' & Hsts' & HL').
  { eexists ms, _, _. split_and!; [done | done | exact Hj | done | done | done |].
    unfold L. by rewrite <- list_fmap_compose. }
  assert (pending s (StepDef.taskId <$> StepDef.subTasks step) r) as Hpend.
  { intros m0 Hm0 Hs0 st Hst. rewrite Hms in Hm0. simpl in Hm0.
    specialize (Honly m0 Hm0 Hs0). injection Honly as ->. simpl in Hst.
    apply list_elem_of_fmap in Hst as (t & -> & Ht). right. simpl.
    by apply list_elem_of_fmap_2. }
  rewrite Htasks in Hpend, Hi'. rewrite Htasks. rewrite !fmap_cons in Hpend, Hi'.
  rewrite !fmap_cons.
  destruct (toggles_true_all repId s (StepDef.taskId <$> others)
              (StepDef.taskId first) state w i r Hi Hid Hpend)
    as (r'' & ms'' & Hi'' & Hms'' & _ & Hdone).
  assert (r'' = r') as -> by (simpl in Hi', Hi''; congruence).
  assert (ms'' = ms') as -> by congruence.
  exists r', ms', m', sts'. split_and!; try done.
  apply Hdone; [by eapply list_elem_of_lookup_2 | done].
Qed.

End More_catalog.

Section More_update_rep.

Context {env : Environment}.

Lemma merge_rep_again rep updates t t' :
  merge_rep (merge_rep rep updates t) updates t' = merge_rep rep updates t'.
Proof.
  unfold merge_rep. simpl. f_equal.
  - by destruct (RepPatch.id updates).
  - by destruct (RepPatch.stage updates).
  - by destruct (RepPatch.milestones updates).
  - by destruct (RepPatch.createdAt updates).
  - by rewrite (assoc_L (∪)), (idemp_L (∪)).
Qed.

(** X16. Applying the same Update rep twice in a row gives, for a rep that
    the first dispatch matched, the merge that one dispatch gives, with a
    later clock read as updatedAt at most: the second dispatch merges the
    same fields again when the rep still has the id, and leaves the rep as
    it is when the patch has changed its id. *)
Theorem X16_update_rep_twice
    state id updates w (i : nat) rep :
  reps state !! i = Some rep →
  Rep.id rep = id →
  ∃ t1 t2,
    reps (dispatch_all [UPDATE_REP id updates] state w).1 !! i
      = Some (merge_rep rep updates t1) ∧
    reps (dispatch_all [UPDATE_REP id updates; UPDATE_REP id updates] state w).1 !! i
      = Some (merge_rep rep updates t2) ∧
    read_in w (dispatch_all [UPDATE_REP id updates] state w).2 t1 ∧
    read_in w (dispatch_all [UPDATE_REP id updates; UPDATE_REP id updates]
                 state w).2 t2.
Proof.
  intros Hi Hid.
  change [UPDATE_REP id updates; UPDATE_REP id updates]
    with ([UPDATE_REP id updates] ++ [UPDATE_REP id updates]).
  rewrite dispatch_all_app, !dispatch_all_one.
  set (a := appReducer state (UPDATE_REP id updates) w).
  destruct (UPDATE_REP_spec state id updates w) as (Hle & Hreps & _).
  destruct (UPDATE_REP_spec a.1 id updates a.2) as (Hle' & Hreps' & _).
  cbv zeta in Hle, Hreps, Hle', Hreps'. fold a in Hle, Hreps.
  destruct (Forall2_lookup_l _ _ _ _ _ Hreps Hi) as (rep1 & Hi1 & Hhit & _).
  destruct (Hhit Hid) as (t1 & Ht1 & ->).
  destruct (Forall2_lookup_l _ _ _ _ _ Hreps' Hi1) as (rep2 & Hi2 & Hhit2 & Hmiss2).
  destruct (decide (Rep.id (merge_rep rep updates t1) = id)) as [Heq|Hne].
  - destruct (Hhit2 Heq) as (t2 & Ht2 & ->).
    rewrite merge_rep_again in Hi2. exists t1, t2. split_and!; try done.
    eapply read_in_mono; [exact Hle | reflexivity | exact Ht2].
  - rewrite (Hmiss2 Hne) in Hi2.
    exists t1, t1. split_and!; try done.
    eapply read_in_mono; [reflexivity | exact Hle' | exact Ht1].
Qed.

End More_update_rep.

(** ** The examples of the specification *)

Example first_toggle_completes_step_1 :
  progress (dispatch_all (env := example_environment)
              [UPDATE_SUBTASK "r1" 1 "t1" true] fresh_state w0).1
  = [(2, [(1, true, [("t1", true)])])].
Proof. reflexivity. Qed.

Example second_task_reopens_step_1_and_stage_stays :
  progress (dispatch_all (env := example_environment)
              [UPDATE_SUBTASK "r1" 1 "t1" true; UPDATE_SUBTASK "r1" 1 "t2" false]
              fresh_state w0).1
  = [(2, [(1, false, [("t1", true); ("t2", false)])])].
Proof. reflexivity. Qed.

Example steps_1_and_2_give_stage_3 :
  progress (dispatch_all (env := example_environment)
              [UPDATE_SUBTASK "r1" 1 "t1" true; UPDATE_SUBTASK "r1" 2 "t1" true]
              fresh_state w0).1
  = [(3, [(1, true, [("t1", true)]); (2, true, [("t1", true)])])].
Proof. reflexivity. Qed.

(** ** The claims on the example data *)

Local Ltac elems :=
  repeat (simpl in *;
          match goal with
          | H : _ ∈ _ :: _ |- _ => apply elem_of_cons in H as [->|H]
          | H : _ ∈ [] |- _ => by apply elem_of_nil in H
          end).

Lemma C1_witness :
  ∃ rep',
    reps (appReducer (env := example_environment) example_state
            (UPDATE_SUBTASK "r1" 2 "b" true) w0).1 !! 0%nat = Some rep' ∧
    Rep.stage example_rep ≤ Rep.stage rep'.
Proof.
  destruct (C1_stage_max_and_monotone (env := example_environment)
              example_state "r1" 2 "b" true w0 0 example_rep
              [(2, "b", true)] [(2, "a", false)] eq_refl eq_refl)
    as [(rep' & ms' & Hi & _ & Hstage) _].
  exists rep'. split; [exact Hi |]. rewrite Hstage. apply Z.le_max_l.
Defined.

Lemma C2_witness :
  ∃ rep' ms',
    reps (dispatch_all (env := example_environment)
            (toggles "r1" [(2, "a", true); (2, "b", true)])
            example_state w0).1 !! 0%nat = Some rep' ∧
    Rep.milestones rep' = Some ms' ∧
    ∀ m', m' ∈ ms' → Milestone.stepId m' = 2 → Milestone.completed m' = true.
Proof.
  destruct (C2_milestone_completed_iff_all_subtasks (env := example_environment)
              example_state "r1" 2 "b" true w0 0 example_rep "a" ["b"]
              eq_refl eq_refl) as [_ Hall].
  destruct Hall as (rep' & ms' & Hi & Hms & _ & Hdone).
  - intros m st Hm Hsid Hst. elems; try discriminate; repeat constructor.
  - by exists rep', ms'.
Defined.

Lemma C3_witness :
  ∃ rep' ms' m' sts' t',
    reps (appReducer (env := example_environment) example_state
            (UPDATE_SUBTASK "r1" 2 "b" true) w0).1 !! 0%nat = Some rep' ∧
    Rep.milestones rep' = Some ms' ∧
    m' ∈ ms' ∧ Milestone.stepId m' = 2 ∧
    Milestone.subTasks m' = Some sts' ∧
    t' ∈ sts' ∧ SubTask.taskId t' = "b" ∧
    SubTask.completed t' = true ∧
    SubTask.completedBy t' = Some "u1".
Proof.
  destruct (C3_subtask_takes_value_passed (env := example_environment)
              example_state "r1" 2 "b" true w0 0 example_rep [false; true]
              eq_refl eq_refl)
    as [(rep' & ms' & Hi & Hms & (m' & sts' & t' & Hm & Hsid & Hsts & Ht & Htid) & Hall) _].
  destruct (Hall m' sts' t' Hm Hsid Hsts Ht Htid) as (Hc & Htrue & _).
  destruct (Htrue eq_refl) as [_ Hby].
  by exists rep', ms', m', sts', t'.
Defined.

Lemma C4_witness :
  ∃ rep' ms' m' t',
    reps (appReducer (env := example_environment) example_state
            (UPDATE_SUBTASK "r1" 3 "x" false) w0).1 !! 0%nat = Some rep' ∧
    Rep.milestones rep' = Some ms' ∧
    ms' = default [] (Rep.milestones example_rep) ++ [m'] ∧
    Milestone.title m' = "Step 3" ∧
    Milestone.subTasks m' = Some [t'] ∧
    SubTask.description t' = "Task x" ∧
    SubTask.completed t' = false.
Proof.
  destruct (C4_missing_milestone_and_subtask_synthesized
              (env := example_environment)
              example_state "r1" 3 "x" false w0 0 example_rep eq_refl eq_refl)
    as (_ & _ & rep' & ms' & Hi & Hms & Hnew & _).
  destruct Hnew as (m' & t' & -> & _ & Htitle & Hsts & _ & Hdesc & Hc).
  - intros m Hm. elems; discriminate.
  - exists rep', (default [] (Rep.milestones example_rep) ++ [m']), m', t'.
    split_and!; [exact Hi | exact Hms | reflexivity | exact Htitle | exact Hsts
                | exact Hdesc | exact Hc].
Defined.

Lemma C5_witness :
  ∃ rep' ms' m',
    reps (appReducer (env := example_environment) example_state
            (UPDATE_SUBTASK "r1" 2 "b" true) w0).1 !! 0%nat = Some rep' ∧
    Rep.milestones rep' = Some ms' ∧
    ms' !! 1%nat = Some m' ∧
    Milestone.completed m' = true ∧
    is_Some (Milestone.completedAt m') ∧
    Milestone.completedBy m' = Some "u1".
Proof.
  destruct (C5_milestone_stamped_on_transition_only (env := example_environment)
              example_state "r1" 2 "b" true w0 0 example_rep eq_refl eq_refl)
    as (rep' & ms' & Hi & Hms & Hold & _).
  destruct (Hold 1%nat _ eq_refl eq_refl) as (m' & Hm' & _ & Hdone & Hstamp & _).
  assert (Milestone.completed m' = true) as Hnow.
  { apply Hdone. split; [done |]. intros t Ht Hne. elems; done. }
  destruct (Hstamp eq_refl Hnow) as [(t & _ & Hat) Hby].
  exists rep', ms', m'. split_and!; [done | done | done | done | | done].
  rewrite Hat. by eexists.
Defined.

Lemma C6_witness :
  ∃ state',
    appReducer (env := example_environment) example_state
      (UPDATE_SUBTASK "r7" 1 "t1" true) w0 = (state', w0) ∧
    reps state' = reps example_state.
Proof.
  destruct (C6_unknown_rep_leaves_reps_unchanged (env := example_environment)
              example_state "r7" 1 "t1" true w0)
    as (state' & Hrun & Hreps & _).
  - intros r Hr. elems; discriminate.
  - by exists state'.
Defined.



Lemma C8_witness :
  ∃ m sts,
    createMilestoneFromStep example_catalog 2 = Some m ∧
    Milestone.title m = "Field training" ∧
    Milestone.subTasks m = Some sts ∧
    length sts = 2%nat.
Proof.
  destruct (C8_default_milestone_from_catalog example_catalog 2) as [_ Hfound].
  destruct Hfound as (k & step & m & sts & Hk & Hsid & Hfirst & Hm & _ & Htitle
                      & _ & _ & _ & Hsts & Hlen & _).
  - eexists. split; [right; left | reflexivity].
  - exists m, sts. split_and!; [done | | done |].
    + destruct k as [|[|k]]; simpl in Hk; [| | done].
      * injection Hk as <-. discriminate.
      * injection Hk as <-. exact Htitle.
    + destruct k as [|[|k]]; simpl in Hk; [| | done].
      * injection Hk as <-. discriminate.
      * injection Hk as <-. exact Hlen.
Defined.

Lemma C9_witness :
  ∃ newLog,
    auditLogs (appReducer (env := example_environment) example_state
                 (ADD_AUDIT_LOG {[ "action" := "toggle" ]}) w0).1 !! 0%nat
      = Some newLog ∧
    AuditLog.id newLog = 1700000000000.
Proof.
  destruct (C9_audit_log_prepended (env := example_environment)
              example_state {[ "action" := "toggle" ]} w0)
    as [(newLog & _ & H0 & Hid & _) _].
  by exists newLog.
Defined.

Lemma C10_witness :
  selectedRep (appReducer (env := example_environment) stale_state
                 (UPDATE_SUBTASK "r9" 1 "t1" true) w0).1 = None ∧
  reps (appReducer (env := example_environment) stale_state
          (UPDATE_SUBTASK "r9" 1 "t1" true) w0).1 = reps stale_state.
Proof.
  apply (C10_selection_cleared_when_rep_not_listed (env := example_environment)
           stale_state "r9" 1 "t1" true w0 unlisted_rep eq_refl eq_refl).
  intros r Hr. elems; discriminate.
Defined.

(** ** The further properties on the example data *)

(** The store of the example against the values of the example: the reps
    of the store stand for the reps of [example_state], and an Update
    subtask dispatch on the store ends with reps that stand for those that
    [appReducer] returns, after the same reads of the clock. *)
Example example_store_stands_for_example_state :
  rep_value example_heap <$> [example_rep_ref; other_rep_ref]
    = reps example_state.
Proof. reflexivity. Qed.

Example update_subtask_ref_agrees_on_the_example :
  let out := update_subtask_ref (env := example_environment) (Some "u1")
               "r1" 3 "x" true [example_rep_ref; other_rep_ref] None
               example_store in
  let out' := appReducer (env := example_environment) example_state
                (UPDATE_SUBTASK "r1" 3 "x" true) w0 in
  rep_value (heap out.2) <$> out.1.1 = reps out'.1 ∧ world out.2 = out'.2.
Proof. vm_compute. done. Qed.

Example update_subtask_ref_agrees_on_an_existing_step :
  let out := update_subtask_ref (env := example_environment) (Some "u1")
               "r1" 2 "b" true [example_rep_ref; other_rep_ref]
               (Some example_rep_ref) example_store in
  let out' := appReducer (env := example_environment)
                {| isAuthenticated := true;
                   currentUser := Some example_user;
                   userRole := Some trainer;
                   reps := [example_rep; other_rep];
                   trainers := [];
                   auditLogs := [];
                   selectedRep := Some example_rep |}
                (UPDATE_SUBTASK "r1" 2 "b" true) w0 in
  rep_value (heap out.2) <$> out.1.1 = reps out'.1 ∧
  rep_value (heap out.2) <$> out.1.2 = selectedRep out'.1 ∧
  world out.2 = out'.2.
Proof. vm_compute. done. Qed.

(** Two reps that hold one array: the placeholder milestone that the
    dispatch for the first pushes is in the array of the second too. *)
Example a_shared_array_is_written_to :
  let out := update_subtask_ref (env := example_environment) None
               "r1" 1 "t1" true [sharing_rep "r1"; sharing_rep "r2"] None
               shared_store in
  out.1.1 !! 1%nat = Some (sharing_rep "r2") ∧
  Rep.milestones (rep_value (heap shared_store) (sharing_rep "r2")) = Some [] ∧
  Rep.milestones (rep_value (heap out.2) (sharing_rep "r2"))
    = Some [ {| Milestone.stepId := 1;
                Milestone.title := "Step 1";
                Milestone.completed := false;
                Milestone.completedAt := None;
                Milestone.completedBy := None;
                Milestone.subTasks := Some [placeholder_subtask "t1"] |} ].
Proof. vm_compute. done. Qed.

Lemma example_store_allocated :
  allocated (held example_heap third_rep_ref) example_heap.
Proof.
  split_and!.
  - intros a [= <-]. compute_done.
  - intros o (a & [= <-] & Ho).
    change (o ∈ [3%positive]) in Ho. apply list_elem_of_singleton in Ho as ->.
    compute_done.
  - intros t (a & o & [= <-] & Ho & Ht).
    change (o ∈ [3%positive]) in Ho. apply list_elem_of_singleton in Ho as ->.
    injection Ht as <-. compute_done.
Qed.

Lemma example_store_apart :
  apart example_heap third_rep_ref example_rep_ref.
Proof.
  intros a [= <-]. split; [by intros [=] |].
  intros o Ho. change (o ∈ [1%positive; 2%positive]) in Ho.
  split.
  - intros (a & [= <-] & Ho').
    change (o ∈ [3%positive]) in Ho'. apply list_elem_of_singleton in Ho' as ->.
    apply elem_of_cons in Ho as [[=]|Ho].
    apply elem_of_cons in Ho as [[=]|Ho].
    by apply elem_of_nil in Ho.
  - intros t Ht (a & o' & [= <-] & Ho' & Ht').
    change (o' ∈ [3%positive]) in Ho'. apply list_elem_of_singleton in Ho' as ->.
    injection Ht' as <-.
    apply elem_of_cons in Ho as [->|Ho]; [discriminate Ht |].
    apply elem_of_cons in Ho as [->|Ho]; [discriminate Ht |].
    by apply elem_of_nil in Ho.
Qed.

Lemma X1_witness :
  let out := update_subtask_ref (env := example_environment) (Some "u1")
               "r1" 3 "x" true
               [example_rep_ref; other_rep_ref; third_rep_ref] None
               example_store in
  length (milestone_arrays (heap out.2) !!! 1%positive) = 3%nat ∧
  out.1.1 !! 2%nat = Some third_rep_ref ∧
  rep_value (heap out.2) third_rep_ref = rep_value example_heap third_rep_ref.
Proof.
  split; [reflexivity |].
  apply (X1_toggle_spares_what_it_does_not_share (env := example_environment)
           (Some "u1") "r1" 3 "x" true
           [example_rep_ref; other_rep_ref; third_rep_ref] None
           example_store 2 third_rep_ref eq_refl).
  - discriminate.
  - exact example_store_allocated.
  - intros r' Hr' Hid. elems; try discriminate Hid.
    exact example_store_apart.
Defined.

Lemma example_rep_ref_allocated :
  allocated (held example_heap example_rep_ref) example_heap.
Proof.
  split_and!.
  - intros a [= <-]. compute_done.
  - intros o (a & [= <-] & Ho).
    change (o ∈ [1%positive; 2%positive]) in Ho.
    apply elem_of_cons in Ho as [->|Ho]; [compute_done |].
    apply list_elem_of_singleton in Ho as ->. compute_done.
  - intros t (a & o & [= <-] & Ho & Ht).
    change (o ∈ [1%positive; 2%positive]) in Ho.
    apply elem_of_cons in Ho as [->|Ho]; [injection Ht as <-; compute_done |].
    apply list_elem_of_singleton in Ho as ->. injection Ht as <-. compute_done.
Qed.

Lemma X20_witness :
  Rep.milestones
    (rep_value
       (heap (update_subtask_ref (env := example_environment) (Some "u1")
                "r1" 3 "x" true
                ([] ++ example_rep_ref :: [other_rep_ref; third_rep_ref]) None
                example_store).2)
       example_rep_ref)
    = Some (default [] (Rep.milestones example_rep) ++
            [ {| Milestone.stepId := 3;
                 Milestone.title := "Step 3";
                 Milestone.completed := false;
                 Milestone.completedAt := None;
                 Milestone.completedBy := None;
                 Milestone.subTasks := Some [placeholder_subtask "x"] |} ]).
Proof.
  apply (X20_toggle_writes_into_the_array_it_is_given
           (env := example_environment) (Some "u1") "r1" 3 "x" true
           [] [other_rep_ref; third_rep_ref] example_rep_ref None example_store
           example_rep_ref 1%positive).
  - intros x Hx. elems; discriminate.
  - reflexivity.
  - reflexivity.
  - reflexivity.
  - exact example_rep_ref_allocated.
  - intros m Hm. change (m ∈ default [] (Rep.milestones example_rep)) in Hm.
    elems; discriminate.
Defined.

Lemma X2_witness :
  ∃ r',
    reps (dispatch_all (env := example_environment)
            (toggles "r1" [(3, "x", true); (2, "b", true)])
            example_state w0).1 !! 0%nat = Some r' ∧
    unique_ids r'.
Proof.
  destruct (X2_toggles_keep_ids_unique (env := example_environment)
              example_state "r1" [(3, "x", true); (2, "b", true)] w0 0
              example_rep eq_refl) as (r' & Hi & _ & Hu).
  - split.
    + compute_done.
    + intros m Hm. elems; compute_done.
  - by exists r'.
Defined.


Lemma X4_witness :
  ∃ r',
    reps (dispatch_all (env := example_environment)
            (toggles "r1" [(2, "a", false); (2, "b", true)])
            example_state w0).1 !! 0%nat = Some r' ∧
    stamps_agree r'.
Proof.
  destruct (X4_toggles_keep_subtask_stamps (env := example_environment)
              example_state "r1" [(2, "a", false); (2, "b", true)] w0 0
              example_rep eq_refl) as (r' & Hi & _ & Hs).
  - intros m t Hm Ht. elems; compute_done.
  - by exists r'.
Defined.


Lemma X6_witness :
  ∃ r' m',
    reps (appReducer (env := example_environment) example_state
            (UPDATE_SUBTASK "r2" 1 "t1" true) w0).1 !! 1%nat = Some r' ∧
    Rep.milestones r' = Some [m'] ∧
    Milestone.completed m' = true ∧
    Rep.stage r' = 2.
Proof.
  destruct (X6_first_toggle_on_a_bare_rep (env := example_environment)
              example_state "r2" 1 "t1" true w0 1 other_rep
              eq_refl eq_refl eq_refl)
    as (r' & m' & t' & Hi & Hms & _ & _ & Hdone & _ & _ & _ & _ & Hstage).
  by exists r', m'.
Defined.

Lemma X8_witness :
  ∃ rep',
    reps (dispatch_all (env := example_environment)
            [UPDATE_SUBTASK "r1" 2 "a" false;
             ADD_REP {| NewRep.stage := 1; NewRep.milestones := None;
                        NewRep.fields := ∅ |};
             UPDATE_REP "r1" name_patch;
             SIGN_OUT]
            example_state w0).1 !! 0%nat = Some rep' ∧
    Rep.stage example_rep ≤ Rep.stage rep'.
Proof.
  apply (X8_stage_lowered_by_stage_patch_only (env := example_environment)
           [UPDATE_SUBTASK "r1" 2 "a" false;
            ADD_REP {| NewRep.stage := 1; NewRep.milestones := None;
                       NewRep.fields := ∅ |};
            UPDATE_REP "r1" name_patch;
            SIGN_OUT]
           example_state w0 0 example_rep eq_refl eq_refl).
Defined.

Lemma X11_witness :
  AppUser.id <$>
    currentUser (dispatch_all (env := example_environment)
                   [SET_ROLE admin; UPDATE_SUBTASK "r1" 2 "b" true;
                    UPDATE_REP "r1" name_patch]
                   example_state w0).1
  = Some "u1".
Proof.
  apply (X11_user_id_changed_by_sign_actions_only (env := example_environment)
           [SET_ROLE admin; UPDATE_SUBTASK "r1" 2 "b" true;
            UPDATE_REP "r1" name_patch]
           example_state w0 eq_refl).
Defined.

Lemma X14_witness :
  getStepById example_catalog 2
  = Some {| StepDef.stepId := 2;
            StepDef.title := "Field training";
            StepDef.subTasks :=
              [ {| StepDef.taskId := "a"; StepDef.description := "Ride along" |};
                {| StepDef.taskId := "b"; StepDef.description := "Lead a visit" |} ] |}.
Proof.
  destruct (X14_getStepById_lookup example_catalog 0) as (_ & _ & Hfound).
  apply (Hfound ltac:(compute_done)
           {| StepDef.stepId := 2;
              StepDef.title := "Field training";
              StepDef.subTasks :=
                [ {| StepDef.taskId := "a"; StepDef.description := "Ride along" |};
                  {| StepDef.taskId := "b"; StepDef.description := "Lead a visit" |} ] |}).
  right. left.
Defined.

Lemma X15_witness :
  ∃ r' ms' m',
    reps (dispatch_all (env := example_environment)
            (toggles "r3" [(2, "a", true); (2, "b", true)])
            catalog_state w0).1 !! 0%nat = Some r' ∧
    Rep.milestones r' = Some ms' ∧
    ms' !! 0%nat = Some m' ∧
    Milestone.title m' = "Field training" ∧
    Milestone.completed m' = true.
Proof.
  destruct (X15_catalog_milestone_completed_by_catalog_tasks
              (env := example_environment) example_catalog 2
              {| StepDef.stepId := 2;
                 StepDef.title := "Field training";
                 StepDef.subTasks :=
                   [ {| StepDef.taskId := "a"; StepDef.description := "Ride along" |};
                     {| StepDef.taskId := "b"; StepDef.description := "Lead a visit" |} ] |}
              {| StepDef.taskId := "a"; StepDef.description := "Ride along" |}
              [ {| StepDef.taskId := "b"; StepDef.description := "Lead a visit" |} ]
              catalog_state "r3" w0 0 catalog_rep
              (option_list (createMilestoneFromStep example_catalog 2)) 0
              eq_refl eq_refl eq_refl eq_refl eq_refl eq_refl)
    as (r' & ms' & m' & sts' & Hi & Hms & _ & Hj & _ & Htitle & Hdone & _).
  - intros m0 Hm0 _. elems. reflexivity.
  - by exists r', ms', m'.
Defined.

Lemma X16_witness :
  ∃ t1 t2,
    reps (dispatch_all (env := example_environment)
            [UPDATE_REP "r1" example_patch] example_state w0).1 !! 0%nat
      = Some (merge_rep example_rep example_patch t1) ∧
    reps (dispatch_all (env := example_environment)
            [UPDATE_REP "r1" example_patch; UPDATE_REP "r1" example_patch]
            example_state w0).1 !! 0%nat
      = Some (merge_rep example_rep example_patch t2).
Proof.
  destruct (X16_update_rep_twice (env := example_environment)
              example_state "r1" example_patch w0 0 example_rep eq_refl eq_refl)
    as (t1 & t2 & H1 & H2 & _).
  by exists t1, t2.
Defined.

Lemma X17_witness :
  ∃ r',
    reps (dispatch_all (env := example_environment)
            (toggles "r1" [(1, "t1", true); (1, "t2", false); (2, "t1", true)])
            fresh_state w0).1 !! 0%nat = Some r' ∧
    stage_in_range r'.
Proof.
  destruct (X17_toggles_keep_stage_in_range (env := example_environment)
              fresh_state "r1" [(1, "t1", true); (1, "t2", false); (2, "t1", true)]
              w0 0 {| Rep.id := "r1"; Rep.stage := 1; Rep.milestones := Some [];
                      Rep.createdAt := 0; Rep.updatedAt := 0; Rep.fields := ∅ |}
              eq_refl) as (r' & Hi & _ & Hr).
  - split; simpl; lia.
  - by exists r'.
Defined.

Lemma X18_witness :
  role_ok (dispatch_all (env := example_environment)
             [SET_ROLE admin; UPDATE_SUBTASK "r1" 2 "b" true; SIGN_OUT;
              SET_ROLE trainer]
             example_state w0).1.
Proof.
  apply (X18_role_agrees_until_next_sign_in (env := example_environment)
           admin [UPDATE_SUBTASK "r1" 2 "b" true; SIGN_OUT; SET_ROLE trainer]
           example_state w0 eq_refl).
Defined.
